(** * lab0-c queue: a shallow embedding of queue.c and its properties

    The queue of [queue.c] is an intrusive circular doubly-linked list: a
    sentinel [struct list_head] and, for every element, an [element_t] that
    embeds a [struct list_head] next to an owned string.  The functions of
    [queue.c] are embedded as programs of a small state-and-error monad over
    an explicit heap, with one definition per C function, and the properties of
    the specification are proved about these programs. *)

From Stdlib Require Import ZArith String Ascii List Lia.
From stdpp Require Import base option list gmap strings fin_maps.

Local Open Scope Z_scope.

(* [set_solver] tries to clear hypotheses that it has already consumed. *)
#[local] Set Warnings "-clear-no-such-hyp".

(** ** Memory *)

(** A pointer is a machine address; [NULL] is address zero, so that the
    bitwise-or of two pointers in [mergeTwoLists] can be written as it is. *)
Definition NULL : Z := 0.

(** [struct list_head { struct list_head *next, *prev; }] *)
Record list_head : Type := ListHead { next : Z; prev : Z }.

(** The heap.  [links] holds every live [struct list_head], the sentinel as
    well as the [list] member of every live [element_t]; [values] holds the
    [value] member of every live [element_t] ([None] is a null [char *],
    [Some s] an owned heap string with contents [s]).  An element is
    identified with the address of its [list] member, which makes
    [container_of]/[list_entry] the identity on addresses. *)
Record heap : Type := Heap {
  links : gmap Z list_head;
  values : gmap Z (option string)
}.

Definition nxt (h : heap) (p : Z) : option Z := next <$> links h !! p.
Definition prv (h : heap) (p : Z) : option Z := prev <$> links h !! p.
Definition txt (h : heap) (p : Z) : option string :=
  match values h !! p with Some (Some s) => Some s | _ => None end.

Definition with_next (v : Z) (n : list_head) : list_head :=
  ListHead v (prev n).
Definition with_prev (v : Z) (n : list_head) : list_head :=
  ListHead (next n) v.

Definition upd_next (p v : Z) (h : heap) : heap :=
  Heap (alter (with_next v) p (links h)) (values h).
Definition upd_prev (p v : Z) (h : heap) : heap :=
  Heap (alter (with_prev v) p (links h)) (values h).

(** ** The monad: state, undefined behaviour, and fuel *)

Inductive outcome (A : Type) : Type :=
| Done (a : A) (h : heap)   (* normal return *)
| Undefined                 (* access through an invalid pointer *)
| OutOfFuel.                (* the loop bound of the model was reached *)
Arguments Done {A} a h.
Arguments Undefined {A}.
Arguments OutOfFuel {A}.

Definition M (A : Type) : Type := heap -> outcome A.

Definition ret {A} (a : A) : M A := fun h => Done a h.
Definition bind {A B} (m : M A) (k : A -> M B) : M B :=
  fun h => match m h with
           | Done a h' => k a h'
           | Undefined => Undefined
           | OutOfFuel => OutOfFuel
           end.
Definition undefined {A} : M A := fun _ => Undefined.
Definition out_of_fuel {A} : M A := fun _ => OutOfFuel.

Declare Scope prog_scope.
Delimit Scope prog_scope with prog.
Notation "x <- m ;; k" := (bind m (fun x => k))
  (at level 100, m at next level, right associativity) : prog_scope.
Notation "m ;; k" := (bind m (fun _ => k))
  (at level 100, right associativity) : prog_scope.
Local Open Scope prog_scope.

(** Field reads and writes; a dead or null pointer is undefined behaviour. *)
Definition get_next (p : Z) : M Z :=
  fun h => match nxt h p with Some v => Done v h | None => Undefined end.
Definition get_prev (p : Z) : M Z :=
  fun h => match prv h p with Some v => Done v h | None => Undefined end.
Definition set_next (p v : Z) : M unit :=
  fun h => match links h !! p with
           | Some _ => Done tt (upd_next p v h)
           | None => Undefined
           end.
Definition set_prev (p v : Z) : M unit :=
  fun h => match links h !! p with
           | Some _ => Done tt (upd_prev p v h)
           | None => Undefined
           end.
(** [list_entry(p, element_t, list)->value], read as a C string. *)
Definition get_value (p : Z) : M string :=
  fun h => match txt h p with Some s => Done s h | None => Undefined end.

(** ** The allocator (harness.h: malloc, strdup and free can be made to fail)

    [malloc] answers [NULL] when the environment says so ([ok = false]);
    otherwise it returns an address that is neither null nor live.  Which
    unused address is chosen is immaterial; the model takes one past the
    largest live address.  Fresh storage is uninitialised; the model fills
    it with null pointers, and the code never reads it before writing. *)
Definition max_key {V} (m : gmap Z V) : Z :=
  map_fold (fun k (_ : V) acc => Z.max k acc) 0 m.
Definition fresh_addr (h : heap) : Z :=
  1 + Z.max (max_key (links h)) (max_key (values h)).

Definition malloc_list_head (ok : bool) : M Z :=
  fun h => if ok
           then let p := fresh_addr h in
                Done p (Heap (<[p := ListHead NULL NULL]> (links h)) (values h))
           else Done NULL h.

Definition malloc_element (ok : bool) : M Z :=
  fun h => if ok
           then let p := fresh_addr h in
                Done p (Heap (<[p := ListHead NULL NULL]> (links h))
                             (<[p := None]> (values h)))
           else Done NULL h.

(** [free(head)] for a sentinel obtained from [malloc]. *)
Definition free_list_head (p : Z) : M unit :=
  fun h => match links h !! p with
           | Some _ => Done tt (Heap (delete p (links h)) (values h))
           | None => Undefined
           end.

(** [strdup(s)]: a null argument is undefined behaviour (strdup reads its
    argument), otherwise a copy, or [NULL] when the allocation fails. *)
Definition strdup (ok : bool) (s : option string) : M (option string) :=
  match s with
  | None => undefined
  | Some s => ret (if ok then Some s else None)
  end.

Definition set_value (p : Z) (v : option string) : M unit :=
  fun h => match values h !! p with
           | Some _ => Done tt (Heap (links h) (<[p := v]> (values h)))
           | None => Undefined
           end.

(** ** list.h

    The header list.h of the repository is not among the sources at hand;
    its primitives are the link layer of the specification. *)

(** Modelled from the spec: [INIT_LIST_HEAD] of list.h.  It makes [head] an
    empty ring: the empty queue is a sentinel whose [next] and [prev] are
    the sentinel itself. *)
Definition INIT_LIST_HEAD (head : Z) : M unit :=
  set_next head head ;;
  set_prev head head.

(** Modelled from the spec: [list_add] of list.h, the spec's [link]: splice
    [node] immediately after [head]. *)
Definition list_add (node head : Z) : M unit :=
  nx <- get_next head ;;
  set_prev nx node ;;
  set_next node nx ;;
  set_prev node head ;;
  set_next head node.

(** Modelled from the spec: [list_add_tail] of list.h: splice [node]
    immediately before [head], that is, at the tail of the queue whose
    sentinel is [head]. *)
Definition list_add_tail (node head : Z) : M unit :=
  pv <- get_prev head ;;
  set_next pv node ;;
  set_next node head ;;
  set_prev node pv ;;
  set_prev head node.

(** Modelled from the spec: [list_del] of list.h, the spec's [unlink]: take
    [node] out of its ring.  The spec leaves the links of [node] itself
    unspecified; the model leaves them as they were. *)
Definition list_del (node : Z) : M unit :=
  nx <- get_next node ;;
  pv <- get_prev node ;;
  set_prev nx pv ;;
  set_next pv nx.

(** Modelled from the spec: [list_del_init] of list.h: [unlink], after which
    the node is initialised again.  Of the states that the spec allows for
    an unlinked node this is the self-referential one, which the name of the
    primitive announces. *)
Definition list_del_init (node : Z) : M unit :=
  list_del node ;;
  INIT_LIST_HEAD node.

(** Modelled from the spec: [list_move] of list.h, the spec's [moveToFront]:
    unlink [node], then link it immediately after [head]. *)
Definition list_move (node head : Z) : M unit :=
  list_del node ;;
  list_add node head.

(** Modelled from the spec: [list_empty] of list.h: the sentinel is its own
    successor. *)
Definition list_empty (head : Z) : M bool :=
  nx <- get_next head ;;
  ret (nx =? head).

(** Modelled from the spec: [list_is_singular] of list.h: the queue is not
    empty, and its first element is also its last. *)
Definition list_is_singular (head : Z) : M bool :=
  e <- list_empty head ;;
  if e then ret false
  else pv <- get_prev head ;;
       nx <- get_next head ;;
       ret (pv =? nx).

(** ** Strings *)

Definition byte_of (c : ascii) : Z := Z.of_N (N_of_ascii c).

(** [strcmp]: the difference of the first two bytes that differ, as
    unsigned chars; only its sign is used by the queue.  A [string] stands
    for the bytes of a C string before its terminator. *)
Fixpoint strcmp (s1 s2 : string) : Z :=
  match s1, s2 with
  | EmptyString, EmptyString => 0
  | EmptyString, String c2 _ => - byte_of c2
  | String c1 _, EmptyString => byte_of c1
  | String c1 r1, String c2 r2 =>
      if byte_of c1 =? byte_of c2 then strcmp r1 r2
      else byte_of c1 - byte_of c2
  end.

(** A caller's character buffer: the bytes it holds; its capacity is its
    length.  [None] is a null [char *]. *)
Definition buffer : Type := list ascii.

(** [size_t] arithmetic wraps modulo [2^64]. *)
Definition SIZE_MOD : Z := 2 ^ 64.
Definition size_sub (a b : Z) : Z := (a - b) mod SIZE_MOD.

(** [strncpy(dst, src, n)] writes exactly [n] bytes to [dst]: the bytes of
    [src] up to and without its terminator, then zero bytes.  Writing past
    the end of the buffer is undefined behaviour. *)
Definition strncpy (dst : list ascii) (src : string) (n : Z) : option buffer :=
  if n <=? Z.of_nat (length dst)
  then let k := Z.to_nat n in
       let cs := list_ascii_of_string src in
       Some (take k (cs ++ replicate (k - length cs)%nat zero) ++ drop k dst)
  else None.

(** [dst[i] = c] *)
Definition store_char (dst : list ascii) (i : Z) (c : ascii) : option buffer :=
  if (0 <=? i) && (i <? Z.of_nat (length dst))
  then Some (<[Z.to_nat i := c]> dst)
  else None.

(** The body of [if (sp) { strncpy(...); sp[bufsize - 1] = '\0'; }]. *)
Definition copy_out (sp : option buffer) (s : string) (bufsize : Z)
  : option (option buffer) :=
  match sp with
  | None => Some None
  | Some b =>
      match strncpy b s (size_sub bufsize 1) with
      | None => None
      | Some b1 =>
          match store_char b1 (size_sub bufsize 1) zero with
          | None => None
          | Some b2 => Some (Some b2)
          end
      end
  end.

(** [INT_MAX] of limits.h, for a 32-bit [int]. *)
Definition INT_MAX : Z := 2147483647.

(** ** queue.c *)

Definition q_new (ok : bool) : M Z :=
  head <- malloc_list_head ok ;;
  if head =? NULL then ret NULL
  else INIT_LIST_HEAD head ;; ret head.

Definition q_release_element (e : Z) : M unit :=
  fun h => match links h !! e, values h !! e with
           | Some _, Some _ =>
               Done tt (Heap (delete e (links h)) (delete e (values h)))
           | _, _ => Undefined
           end.

(** [list_for_each_entry_safe (cur, next, head, list) q_release_element(cur)] *)
Fixpoint q_free_loop (fuel : nat) (head cur safe : Z) : M unit :=
  if cur =? head then ret tt
  else match fuel with
       | O => out_of_fuel
       | S fuel' =>
           q_release_element cur ;;
           nn <- get_next safe ;;
           q_free_loop fuel' head safe nn
       end.

Definition q_free (fuel : nat) (head : Z) : M unit :=
  if head =? NULL then ret tt
  else cur <- get_next head ;;
       safe <- get_next cur ;;
       q_free_loop fuel head cur safe ;;
       free_list_head head.

Definition q_insert_head (ok_elem ok_str : bool) (head : Z) (s : option string)
  : M bool :=
  if head =? NULL then ret false
  else q_node <- malloc_element ok_elem ;;
       if q_node =? NULL then ret false
       else v <- strdup ok_str s ;;
            set_value q_node v ;;
            match v with
            | None => q_release_element q_node ;; ret false
            | Some _ => list_add q_node head ;; ret true
            end.

Definition q_insert_tail (ok_elem ok_str : bool) (head : Z) (s : option string)
  : M bool :=
  if head =? NULL then ret false
  else q_node <- malloc_element ok_elem ;;
       if q_node =? NULL then ret false
       else v <- strdup ok_str s ;;
            set_value q_node v ;;
            match v with
            | None => q_release_element q_node ;; ret false
            | Some _ => list_add_tail q_node head ;; ret true
            end.

(** [if (sp) { strncpy(sp, removed_node->value, bufsize - 1);
    sp[bufsize - 1] = 0; }]: the caller's buffer after the copy. *)
Definition copy_to_buffer (node : Z) (sp : option buffer) (bufsize : Z)
  : M (option buffer) :=
  match sp with
  | None => ret None
  | Some _ =>
      s <- get_value node ;;
      match copy_out sp s bufsize with
      | Some sp' => ret sp'
      | None => undefined
      end
  end.

(** A remove returns the unlinked element ([NULL] on failure); the model
    returns with it the caller's buffer as the call leaves it. *)
Definition q_remove_head (head : Z) (sp : option buffer) (bufsize : Z)
  : M (Z * option buffer) :=
  if head =? NULL then ret (NULL, sp)
  else e <- list_empty head ;;
       if (e : bool) then ret (NULL, sp)
       else removed_node <- get_next head ;;
            list_del_init removed_node ;;
            sp' <- copy_to_buffer removed_node sp bufsize ;;
            ret (removed_node, sp').

Definition q_remove_tail (head : Z) (sp : option buffer) (bufsize : Z)
  : M (Z * option buffer) :=
  if head =? NULL then ret (NULL, sp)
  else e <- list_empty head ;;
       if (e : bool) then ret (NULL, sp)
       else removed_node <- get_prev head ;;
            list_del_init removed_node ;;
            sp' <- copy_to_buffer removed_node sp bufsize ;;
            ret (removed_node, sp').

(** [list_for_each (li, head) len++;].  The counter is an [int]:
    incrementing it when it holds [INT_MAX] is a signed overflow, which is
    undefined behaviour. *)
Fixpoint q_size_loop (fuel : nat) (head li : Z) (len : Z) : M Z :=
  if li =? head then ret len
  else match fuel with
       | O => out_of_fuel
       | S fuel' =>
           if len =? INT_MAX then undefined
           else nn <- get_next li ;;
                q_size_loop fuel' head nn (len + 1)
       end.

Definition q_size (fuel : nat) (head : Z) : M Z :=
  if head =? NULL then ret 0
  else li <- get_next head ;;
       q_size_loop fuel head li 0.

(** [while (fast_ptr != head && fast_ptr != head->prev)] *)
Fixpoint q_delete_mid_loop (fuel : nat) (head fast_ptr slow_ptr : Z) : M Z :=
  if fast_ptr =? head then ret slow_ptr
  else tail <- get_prev head ;;
       if fast_ptr =? tail then ret slow_ptr
       else match fuel with
            | O => out_of_fuel
            | S fuel' =>
                f1 <- get_next fast_ptr ;;
                f2 <- get_next f1 ;;
                s1 <- get_next slow_ptr ;;
                q_delete_mid_loop fuel' head f2 s1
            end.

Definition q_delete_mid (fuel : nat) (head : Z) : M bool :=
  if head =? NULL then ret false
  else e <- list_empty head ;;
       if (e : bool) then ret false
       else fast_ptr <- get_next head ;;
            slow_ptr <- get_next head ;;
            mid_node <- q_delete_mid_loop fuel head fast_ptr slow_ptr ;;
            list_del_init mid_node ;;
            q_release_element mid_node ;;
            ret true.

(** [q_swap]: the body of the [for] loop, [node] being the loop variable. *)
Fixpoint q_swap_loop (fuel : nat) (head node : Z) : M unit :=
  if node =? head then ret tt
  else nn <- get_next node ;;
       if nn =? head then ret tt
       else match fuel with
            | O => out_of_fuel
            | S fuel' =>
                let next_node := nn in
                list_del_init node ;;
                list_add node next_node ;;
                node' <- get_next node ;;
                q_swap_loop fuel' head node'
            end.

Definition q_swap (fuel : nat) (head : Z) : M unit :=
  if head =? NULL then ret tt
  else node <- get_next head ;;
       q_swap_loop fuel head node.

(** [list_for_each_safe (node, safe, head) list_move(node, head);] *)
Fixpoint q_reverse_loop (fuel : nat) (head node safe : Z) : M unit :=
  if node =? head then ret tt
  else match fuel with
       | O => out_of_fuel
       | S fuel' =>
           list_move node head ;;
           safe' <- get_next safe ;;
           q_reverse_loop fuel' head safe safe'
       end.

Definition q_reverse (fuel : nat) (head : Z) : M unit :=
  if head =? NULL then ret tt
  else e <- list_empty head ;;
       if (e : bool) then ret tt
       else node <- get_next head ;;
            safe <- get_next node ;;
            q_reverse_loop fuel head node safe.

(** What a [struct list_head **] of [mergeTwoLists] and [q_sort] points to:
    the local variable [head], or the [next] member of a node. *)
Inductive slot : Type :=
| LocalHead
| NextOf (p : Z).

(** [*ptr], given the current value of the local [head]. *)
Definition load (s : slot) (head : Z) : M Z :=
  match s with
  | LocalHead => ret head
  | NextOf p => get_next p
  end.

(** [*ptr = v]; returns the value of the local [head] afterwards. *)
Definition store (s : slot) (v : Z) (head : Z) : M Z :=
  match s with
  | LocalHead => ret v
  | NextOf p => set_next p v ;; ret head
  end.

(** The [for] loop of [mergeTwoLists] and the statement after it.  [node] is
    [&left] or [&right], so the loop step, which moves the variable [node]
    points to along its [next], advances one of the two. *)
Fixpoint mergeTwoLists_loop (fuel : nat) (left right head : Z) (ptr : slot)
  : M Z :=
  if (left =? NULL) || (right =? NULL)
  then head' <- store ptr (Z.lor left right) head ;;
       ret head'
  else match fuel with
       | O => out_of_fuel
       | S fuel' =>
           vl <- get_value left ;;
           vr <- get_value right ;;
           let node_is_left := strcmp vl vr <? 0 in
           let cur := if node_is_left then left else right in
           head' <- store ptr cur head ;;
           p <- load ptr head' ;;
           let ptr' := NextOf p in
           cur' <- get_next (if node_is_left then left else right) ;;
           if node_is_left
           then mergeTwoLists_loop fuel' cur' right head' ptr'
           else mergeTwoLists_loop fuel' left cur' head' ptr'
       end.

Definition mergeTwoLists (fuel : nat) (left right : Z) : M Z :=
  mergeTwoLists_loop fuel left right NULL LocalHead.

(** [while (fast && fast->next)] of [mergesort] *)
Fixpoint mergesort_split (fuel : nat) (fast slow : Z) : M Z :=
  if fast =? NULL then ret slow
  else f1 <- get_next fast ;;
       if f1 =? NULL then ret slow
       else match fuel with
            | O => out_of_fuel
            | S fuel' =>
                f2 <- get_next f1 ;;
                s1 <- get_next slow ;;
                mergesort_split fuel' f2 s1
            end.

Fixpoint mergesort (fuel : nat) (head : Z) : M Z :=
  match fuel with
  | O => out_of_fuel
  | S fuel' =>
      if head =? NULL then ret head
      else n <- get_next head ;;
           if n =? NULL then ret head
           else slow <- mergesort_split fuel' head head ;;
                let mid := slow in
                pv <- get_prev slow ;;
                set_next pv NULL ;;
                left <- mergesort fuel' head ;;
                right <- mergesort fuel' mid ;;
                mergeTwoLists fuel' left right
  end.

(** The [for] loop of [q_sort] that restores the [prev] links. *)
Fixpoint q_sort_relink (fuel : nat) (head : Z) (ptr : slot) : M slot :=
  cur <- load ptr head ;;
  n <- get_next cur ;;
  if n =? NULL then ret ptr
  else match fuel with
       | O => out_of_fuel
       | S fuel' =>
           set_prev n cur ;;
           cur2 <- load ptr head ;;
           q_sort_relink fuel' head (NextOf cur2)
       end.

Definition q_sort (fuel : nat) (head : Z) : M unit :=
  if head =? NULL then ret tt
  else e <- list_empty head ;;
       if (e : bool) then ret tt
       else s <- list_is_singular head ;;
            if (s : bool) then ret tt
            else tail <- get_prev head ;;
                 set_next tail NULL ;;
                 first <- get_next head ;;
                 sorted <- mergesort fuel first ;;
                 set_next head sorted ;;
                 ptr <- q_sort_relink fuel head LocalHead ;;
                 last <- load ptr head ;;
                 set_next last head ;;
                 last' <- load ptr head ;;
                 set_prev head last'.

(** [list_for_each_entry_safe (slow, fast, head, list)] of [q_delete_dup] *)
Fixpoint q_delete_dup_loop (fuel : nat) (head slow fast : Z) : M unit :=
  if slow =? head then ret tt
  else match fuel with
       | O => out_of_fuel
       | S fuel' =>
           sn <- get_next slow ;;
           (if sn =? head then ret tt
            else vs <- get_value slow ;;
                 vf <- get_value fast ;;
                 if strcmp vs vf =? 0
                 then list_del_init slow ;; q_release_element slow
                 else ret tt) ;;
           fn <- get_next fast ;;
           q_delete_dup_loop fuel' head fast fn
       end.

Definition q_delete_dup (fuel : nat) (head : Z) : M bool :=
  if head =? NULL then ret false
  else q_sort fuel head ;;
       slow <- get_next head ;;
       fast <- get_next slow ;;
       q_delete_dup_loop fuel head slow fast ;;
       ret true.

(** ** Representation predicates

    [lseg f p l q]: starting at [p] and following the pointer field [f], one
    visits exactly the nodes of [l], in order, and arrives at [q].  A cycle
    is a segment that returns to its first node.  A ring is a cycle of
    distinct, non-null nodes along [next] whose reverse is a cycle along
    [prev]; a queue is a ring that starts at its sentinel. *)
Fixpoint lseg (f : Z -> option Z) (p : Z) (l : list Z) (q : Z) : Prop :=
  match l with
  | [] => p = q
  | x :: l' => p = x /\ exists n, f x = Some n /\ lseg f n l' q
  end.

Definition cycle (f : Z -> option Z) (c : list Z) : Prop :=
  lseg f (hd 0 c) c (hd 0 c).

Definition ring (h : heap) (c : list Z) : Prop :=
  NoDup c /\ (0 ∉ c) /\ cycle (nxt h) c /\ cycle (prv h) (rev c).

Definition queue (h : heap) (head : Z) (l : list Z) : Prop :=
  ring h (head :: l).

(** ** Notions used to state the properties *)

(** A live address is one that holds a [struct list_head]. *)
Definition live (h : heap) (p : Z) : Prop := is_Some (links h !! p).

(** Two heaps hold the same blocks when the same addresses are live and
    every element owns the same string: nothing was allocated or freed. *)
Definition same_blocks (h h' : heap) : Prop :=
  dom (links h') = dom (links h) /\ values h' = values h.

(** The heap right after [malloc(sizeof(element_t))] succeeded. *)
Definition alloc_element (h : heap) : heap :=
  Heap (<[fresh_addr h := ListHead NULL NULL]> (links h))
       (<[fresh_addr h := None]> (values h)).

(** The first [k] bytes that [strncpy] writes for the string [s]. *)
Definition truncated (s : string) (k : nat) : list ascii :=
  take k (list_ascii_of_string s
          ++ replicate (k - length (list_ascii_of_string s))%nat zero).

(** The order of a queue after [q_swap]. *)
Fixpoint swap_pairs (l : list Z) : list Z :=
  match l with
  | a :: b :: t => b :: a :: swap_pairs t
  | _ => l
  end.

Section Keyed.
(** [key a] is the string owned by the element at address [a]. *)
Variable key : Z -> string.

Definition lt_key (a b : Z) : bool := strcmp (key a) (key b) <? 0.

(** The sequence that [mergeTwoLists] builds from two chains. *)
Fixpoint merge_lists (la : list Z) : list Z -> list Z :=
  fix inner (lb : list Z) : list Z :=
    match la, lb with
    | [], _ => lb
    | _, [] => la
    | a :: la', b :: lb' =>
        if lt_key a b then a :: merge_lists la' lb else b :: inner lb'
    end.

(** Every element compares less than or equal to its successor. *)
Fixpoint sorted_by (l : list Z) : Prop :=
  match l with
  | a :: (b :: _) as t => strcmp (key a) (key b) <= 0 /\ sorted_by t
  | _ => True
  end.

Definition le_head (a : Z) (l : list Z) : Prop :=
  match l with [] => True | b :: _ => strcmp (key a) (key b) <= 0 end.

(** What the loop of [q_delete_dup] keeps: a node is dropped when its
    successor carries an equal string, so the last node of every run of
    equal strings stays. *)
Fixpoint drop_dups (l : list Z) : list Z :=
  match l with
  | [] => []
  | x :: t =>
      match t with
      | [] => [x]
      | y :: _ =>
          if strcmp (key x) (key y) =? 0 then drop_dups t
          else x :: drop_dups t
      end
  end.
End Keyed.

(** Where a [struct list_head **] may point during a merge, and what it
    holds afterwards. *)
Definition slot_free (ptr : slot) (h : heap) (l : list Z) : Prop :=
  match ptr with LocalHead => True | NextOf t => live h t /\ t ∉ l end.

Definition slot_holds (ptr : slot) (h : heap) (local r v : Z) : Prop :=
  match ptr with
  | LocalHead => r = v
  | NextOf t => r = local /\ nxt h t = Some v
  end.

Definition off_slot (ptr : slot) (a : Z) : Prop :=
  match ptr with LocalHead => True | NextOf t => a <> t end.

(** Inside a chain the [prev] links still lead to the predecessor. *)
Fixpoint plinks (h : heap) (l : list Z) : Prop :=
  match l with
  | a :: (b :: _) as t => prv h b = Some a /\ plinks h t
  | _ => True
  end.

(** The slot [ptr] of [q_sort] designates [cur]: it is the local [head]
    holding [cur], or the [next] member of another node holding [cur]. *)
Definition slot_at (ptr : slot) (h : heap) (head cur : Z) : Prop :=
  match ptr with
  | LocalHead => cur = head
  | NextOf t => nxt h t = Some cur /\ t <> cur
  end.

(** ** Observing a queue

    What a traversal with [list_for_each_entry] reads: the strings of the
    elements in queue order.  It is not part of [queue.c]; the examples
    below use it to show the contents of a queue. *)
Fixpoint q_texts_loop (fuel : nat) (head li : Z) : M (list string) :=
  if li =? head then ret []
  else match fuel with
       | O => out_of_fuel
       | S fuel' =>
           s <- get_value li ;;
           n <- get_next li ;;
           r <- q_texts_loop fuel' head n ;;
           ret (s :: r)
       end.

Definition q_texts (fuel : nat) (head : Z) : M (list string) :=
  li <- get_next head ;;
  q_texts_loop fuel head li.

(** The string of the element at [a] in heap [h] (empty if there is none). *)
Definition key_of (h : heap) (a : Z) : string :=
  match txt h a with Some s => s | None => EmptyString end.

(** Every element of [l] owns a (non-null) string. *)
Definition texts_ok (h : heap) (l : list Z) : Prop :=
  Forall (fun a => is_Some (txt h a)) l.



(** A non-null buffer of capacity at least [bufsize >= 1]. *)
Definition buffer_ok (sp : option buffer) (bufsize : Z) : Prop :=
  match sp with
  | None => True
  | Some b => 1 <= bufsize /\ bufsize <= Z.of_nat (length b) /\ bufsize < SIZE_MOD
  end.

(** ** Example queues *)

Definition empty_heap : heap := Heap ∅ ∅.

Fixpoint q_insert_all (head : Z) (l : list string) : M unit :=
  match l with
  | [] => ret tt
  | s :: l' => q_insert_tail true true head (Some s) ;; q_insert_all head l'
  end.

(** A new queue filled with the strings of [l], in order. *)
Definition q_of_list (l : list string) : M Z :=
  head <- q_new true ;;
  q_insert_all head l ;;
  ret head.

(** The strings of the queue built from [l] after running [op] on it. *)
Definition texts_after {A} (l : list string) (op : Z -> M A)
  : option (A * list string) :=
  match (head <- q_of_list l ;;
         r <- op head ;;
         c <- q_texts (S (length l)) head ;;
         ret (r, c)) empty_heap with
  | Done x _ => Some x
  | _ => None
  end.

(** The heap of the queue ["b"; "a"; "b"]: the sentinel is at address 1, the
    elements at 2, 3 and 4. *)
Definition demo_heap : heap :=
  Eval vm_compute in
    match q_of_list ["b"; "a"; "b"]%string empty_heap with
    | Done _ h => h
    | _ => empty_heap
    end.

(** The heap of the queue ["x"; "x"]: sentinel at 1, elements at 2 and 3. *)
Definition tie_heap : heap :=
  Eval vm_compute in
    match q_of_list ["x"; "x"]%string empty_heap with
    | Done _ h => h
    | _ => empty_heap
    end.

(** ** Notions used by the further properties *)



(** A C string holds no zero byte before its terminator. *)
Definition c_string (s : string) : Prop :=
  Forall (fun c => c <> zero) (list_ascii_of_string s).

(** The strings of the elements of [l] are C strings. *)
Definition c_strings (h : heap) (l : list Z) : Prop :=
  Forall (fun a => c_string (key_of h a)) l.

Section KeyedStrict.
Variable key : Z -> string.

(** Every element compares strictly less than its successor. *)
Fixpoint ascending_by (l : list Z) : Prop :=
  match l with
  | a :: (b :: _) as t => strcmp (key a) (key b) < 0 /\ ascending_by t
  | _ => True
  end.
End KeyedStrict.

(** The heap of an empty queue: nothing but the sentinel, at address 1. *)
Definition new_heap : heap :=
  Eval vm_compute in
    match q_of_list [] empty_heap with
    | Done _ h => h
    | _ => empty_heap
    end.

(** The heap [h'] differs from [h] at most in the links of the nodes of
    [c]: the same blocks are live, every string is as it was, and the links
    of every other node are as they were. *)
Definition only_relinks (c : list Z) (h h' : heap) : Prop :=
  same_blocks h h' /\
  forall a, a ∉ c -> links h' !! a = links h !! a.

(** * Verification *)

(** ** Running the monad *)

Lemma bind_Done {A B} (m : M A) (k : A -> M B) h a h' :
  m h = Done a h' -> bind m k h = k a h'.
Proof. unfold bind. intros ->. reflexivity. Qed.

Lemma live_nxt h p : live h p <-> is_Some (nxt h p).
Proof. unfold live, nxt. rewrite fmap_is_Some. reflexivity. Qed.

Lemma live_prv h p : live h p <-> is_Some (prv h p).
Proof. unfold live, prv. rewrite fmap_is_Some. reflexivity. Qed.

Lemma nxt_live h p v : nxt h p = Some v -> live h p.
Proof. intros H. apply live_nxt. eauto. Qed.

Lemma prv_live h p v : prv h p = Some v -> live h p.
Proof. intros H. apply live_prv. eauto. Qed.

Lemma get_next_Done h p v : nxt h p = Some v -> get_next p h = Done v h.
Proof. unfold get_next. intros ->. reflexivity. Qed.

Lemma get_prev_Done h p v : prv h p = Some v -> get_prev p h = Done v h.
Proof. unfold get_prev. intros ->. reflexivity. Qed.

Lemma get_value_Done h p s : txt h p = Some s -> get_value p h = Done s h.
Proof. unfold get_value. intros ->. reflexivity. Qed.

Lemma set_next_Done h p v : live h p -> set_next p v h = Done tt (upd_next p v h).
Proof. unfold set_next. intros [x ->]. reflexivity. Qed.

Lemma set_prev_Done h p v : live h p -> set_prev p v h = Done tt (upd_prev p v h).
Proof. unfold set_prev. intros [x ->]. reflexivity. Qed.

(** Reads after writes. *)
Lemma nxt_upd_next h p v q :
  live h p ->
  nxt (upd_next p v h) q = if decide (q = p) then Some v else nxt h q.
Proof.
  intros [x Hx]. unfold nxt, upd_next. simpl.
  case_decide as E.
  - subst q. rewrite lookup_alter_eq, Hx. reflexivity.
  - rewrite lookup_alter_ne by congruence. reflexivity.
Qed.

Lemma prv_upd_next h p v q : prv (upd_next p v h) q = prv h q.
Proof.
  unfold prv, upd_next. simpl.
  destruct (decide (q = p)) as [->|E].
  - rewrite lookup_alter_eq. destruct (links h !! p); reflexivity.
  - rewrite lookup_alter_ne by congruence. reflexivity.
Qed.

Lemma prv_upd_prev h p v q :
  live h p ->
  prv (upd_prev p v h) q = if decide (q = p) then Some v else prv h q.
Proof.
  intros [x Hx]. unfold prv, upd_prev. simpl.
  case_decide as E.
  - subst q. rewrite lookup_alter_eq, Hx. reflexivity.
  - rewrite lookup_alter_ne by congruence. reflexivity.
Qed.

Lemma nxt_upd_prev h p v q : nxt (upd_prev p v h) q = nxt h q.
Proof.
  unfold nxt, upd_prev. simpl.
  destruct (decide (q = p)) as [->|E].
  - rewrite lookup_alter_eq. destruct (links h !! p); reflexivity.
  - rewrite lookup_alter_ne by congruence. reflexivity.
Qed.

Lemma live_upd_next h p v q : live (upd_next p v h) q <-> live h q.
Proof. rewrite !live_prv, prv_upd_next. reflexivity. Qed.

Lemma live_upd_prev h p v q : live (upd_prev p v h) q <-> live h q.
Proof. rewrite !live_nxt, nxt_upd_prev. reflexivity. Qed.

Lemma same_blocks_refl h : same_blocks h h.
Proof. split; reflexivity. Qed.

Lemma same_blocks_trans h1 h2 h3 :
  same_blocks h1 h2 -> same_blocks h2 h3 -> same_blocks h1 h3.
Proof. intros [A B] [C D]. split; congruence. Qed.

Lemma same_blocks_upd_next h p v : same_blocks h (upd_next p v h).
Proof. split; [|reflexivity]. unfold upd_next; simpl. apply dom_alter_L. Qed.

Lemma same_blocks_upd_prev h p v : same_blocks h (upd_prev p v h).
Proof. split; [|reflexivity]. unfold upd_prev; simpl. apply dom_alter_L. Qed.

Lemma same_blocks_live h h' p : same_blocks h h' -> live h' p <-> live h p.
Proof.
  intros [D _]. unfold live. rewrite <- !elem_of_dom, D. reflexivity.
Qed.

Lemma same_blocks_txt h h' p : same_blocks h h' -> txt h' p = txt h p.
Proof. intros [_ V]. unfold txt. rewrite V. reflexivity. Qed.

(** ** Segments and cycles *)

Section Segments.
Variable f : Z -> option Z.

Lemma lseg_hd p l q : lseg f p l q -> p = hd q l.
Proof. destruct l; simpl; [tauto|]. intros [-> _]. reflexivity. Qed.

Lemma lseg_app p l1 l2 q :
  lseg f p (l1 ++ l2) q <-> exists m, lseg f p l1 m /\ lseg f m l2 q.
Proof.
  revert p. induction l1 as [|x l1 IH]; intros p; simpl.
  - split.
    + intros H. exists p. auto.
    + intros (m & -> & H). exact H.
  - split.
    + intros (-> & n & Hn & H). apply IH in H as (m & H1 & H2).
      exists m. split; [|exact H2]. split; [reflexivity|]. eauto.
    + intros (m & (-> & n & Hn & H1) & H2). split; [reflexivity|].
      exists n. split; [exact Hn|]. apply IH. eauto.
Qed.

Lemma lseg_snoc p l x q :
  lseg f p (l ++ [x]) q <-> lseg f p l x /\ f x = Some q.
Proof.
  rewrite lseg_app. simpl. split.
  - intros (m & H & -> & n & Hn & ->). auto.
  - intros (H & Hx). exists x. split; [exact H|]. split; [reflexivity|]. eauto.
Qed.

Lemma lseg_ext (g : Z -> option Z) p l q :
  (forall x, x ∈ l -> g x = f x) -> lseg f p l q -> lseg g p l q.
Proof.
  revert p. induction l as [|x l IH]; intros p Hfg; simpl; [tauto|].
  intros (-> & n & Hn & H). split; [reflexivity|]. exists n. split.
  - rewrite Hfg; [exact Hn|]. left.
  - apply IH; [|exact H]. intros y Hy. apply Hfg. right. exact Hy.
Qed.

Lemma cycle_cons a r :
  cycle f (a :: r) <-> exists n, f a = Some n /\ lseg f n r a.
Proof. unfold cycle. simpl. split; [intros (_ & H); exact H | auto]. Qed.

Lemma cycle_rot1 a r : cycle f (a :: r) <-> cycle f (r ++ [a]).
Proof.
  rewrite cycle_cons. unfold cycle. split.
  - intros (n & Hn & H). pose proof (lseg_hd _ _ _ H) as E.
    assert (hd 0 (r ++ [a]) = n) as ->.
    { subst n. destruct r; reflexivity. }
    apply lseg_snoc. auto.
  - intros H. set (n := hd 0 (r ++ [a])) in *.
    apply lseg_snoc in H as [H Ha]. eauto.
Qed.

Lemma cycle_rot c1 c2 : cycle f (c1 ++ c2) <-> cycle f (c2 ++ c1).
Proof.
  revert c2. induction c1 as [|a c1 IH]; intros c2.
  - rewrite app_nil_r. reflexivity.
  - simpl. rewrite cycle_rot1. rewrite <- app_assoc. rewrite IH.
    rewrite <- app_assoc. reflexivity.
Qed.
End Segments.

Section CycleEdits.
Variables f g : Z -> option Z.

(** Splicing [x] in after [y]. *)
Lemma cycle_insert c1 y c2 x :
  cycle f (c1 ++ y :: c2) ->
  g y = Some x -> g x = f y ->
  (forall a, a ∈ c1 ++ c2 -> g a = f a) ->
  cycle g (c1 ++ y :: x :: c2).
Proof.
  intros Hc Hy Hx Hfr.
  apply (cycle_rot g c1 (y :: x :: c2)). simpl.
  apply (cycle_rot f c1 (y :: c2)) in Hc. simpl in Hc.
  apply cycle_cons in Hc as (n & Hn & H).
  apply cycle_cons. exists x. split; [exact Hy|].
  simpl. split; [reflexivity|]. exists n. split; [congruence|].
  eapply lseg_ext; [|exact H].
  intros a Ha. apply Hfr. set_solver.
Qed.

(** Taking [x] out: its predecessor now leads to its successor. *)
Lemma cycle_delete x r :
  cycle f (x :: r) -> r <> [] -> NoDup r ->
  g (hd 0 (rev r)) = Some (hd 0 r) ->
  (forall a, a ∈ r -> a <> hd 0 (rev r) -> g a = f a) ->
  cycle g r.
Proof.
  intros Hc Hne Hnd Hg Hfr.
  destruct (exists_last Hne) as (r0 & p & ->).
  rewrite rev_unit in Hg, Hfr. simpl in Hg, Hfr.
  apply cycle_cons in Hc as (n & Hn & H).
  apply lseg_snoc in H as [H Hp].
  pose proof (lseg_hd _ _ _ _ H) as E.
  assert (hd 0 (r0 ++ [p]) = n) as En.
  { subst n. destruct r0; reflexivity. }
  rewrite En in Hg. unfold cycle. rewrite En.
  apply lseg_snoc. split; [|exact Hg].
  eapply lseg_ext; [|exact H].
  intros a Ha. apply Hfr; [set_solver|].
  intros ->. apply NoDup_app in Hnd as (_ & Hd & _).
  apply (Hd p Ha). left.
Qed.
End CycleEdits.

Lemma elem_of_rev (a : Z) (l : list Z) : a ∈ rev l <-> a ∈ l.
Proof. rewrite !list_elem_of_In. symmetry. apply in_rev. Qed.

Lemma NoDup_rev_Z (l : list Z) : NoDup l -> NoDup (rev l).
Proof.
  apply NoDup_Permutation_proper. symmetry. apply Permutation_rev.
Qed.

Lemma cycle_ext f g c :
  (forall a, a ∈ c -> g a = f a) -> cycle f c -> cycle g c.
Proof. unfold cycle. intros H. apply lseg_ext. exact H. Qed.

(** ** Rings *)

Lemma ring_rot h c1 c2 : ring h (c1 ++ c2) <-> ring h (c2 ++ c1).
Proof.
  unfold ring. rewrite !rev_app_distr.
  rewrite (cycle_rot (nxt h) c1 c2), (cycle_rot (prv h) (rev c2) (rev c1)).
  assert (NoDup (c1 ++ c2) <-> NoDup (c2 ++ c1)) as ->.
  { split; apply NoDup_Permutation_proper, Permutation_app_comm. }
  assert (0 ∈ c1 ++ c2 <-> 0 ∈ c2 ++ c1) as ->; [set_solver|reflexivity].
Qed.

Lemma ring_frame h h' c :
  (forall a, a ∈ c -> links h' !! a = links h !! a) -> ring h c -> ring h' c.
Proof.
  intros Hfr (Hnd & H0 & Hn & Hp). split; [exact Hnd|]. split; [exact H0|].
  split.
  - eapply cycle_ext; [|exact Hn]. intros a Ha. unfold nxt. rewrite Hfr; auto.
  - eapply cycle_ext; [|exact Hp]. intros a Ha. unfold prv.
    rewrite Hfr; [reflexivity|]. rewrite elem_of_rev in Ha. exact Ha.
Qed.

Lemma ring_nxt h c1 a c2 :
  ring h (c1 ++ a :: c2) -> nxt h a = Some (hd a (c2 ++ c1)).
Proof.
  intros H. apply ring_rot in H. simpl in H.
  destruct H as (_ & _ & Hn & _).
  apply cycle_cons in Hn as (n & Hn & H). rewrite Hn. f_equal.
  apply lseg_hd in H. exact H.
Qed.

Lemma ring_prv h c1 a c2 :
  ring h (c1 ++ a :: c2) -> prv h a = Some (hd a (rev c1 ++ rev c2)).
Proof.
  intros H. apply ring_rot in H. simpl in H.
  destruct H as (_ & _ & _ & Hp). simpl in Hp.
  apply cycle_rot1 in Hp.
  apply cycle_cons in Hp as (n & Hn & H). rewrite Hn. f_equal.
  apply lseg_hd in H. rewrite rev_app_distr in H. exact H.
Qed.

(** The heap determines the order of a queue. *)
Lemma lseg_unique f q l : forall p l',
  lseg f p l q -> lseg f p l' q -> q ∉ l -> q ∉ l' -> l = l'.
Proof.
  induction l as [|x t IH]; intros p [|x' t'] H H' Hq Hq'; simpl in H, H'.
  - reflexivity.
  - destruct H' as [-> _]. subst. exfalso. apply Hq'. left.
  - destruct H as [-> _]. subst. exfalso. apply Hq. left.
  - destruct H as (-> & n & Hn & H). destruct H' as (<- & n' & Hn' & H').
    assert (n' = n) as -> by congruence. f_equal.
    apply (IH n t' H H').
    + intros Hx. apply Hq. right. exact Hx.
    + intros Hx. apply Hq'. right. exact Hx.
Qed.

Lemma queue_unique h head l l' : queue h head l -> queue h head l' -> l = l'.
Proof.
  intros (Hnd & _ & C & _) (Hnd' & _ & C' & _).
  apply cycle_cons in C as (n & Hn & C).
  apply cycle_cons in C' as (n' & Hn' & C').
  assert (n' = n) as -> by congruence.
  apply NoDup_cons in Hnd as [Hh _]. apply NoDup_cons in Hnd' as [Hh' _].
  exact (lseg_unique _ _ _ _ _ C C' Hh Hh').
Qed.

Lemma ring_live h c a : ring h c -> a ∈ c -> live h a.
Proof.
  intros H Ha. apply list_elem_of_split in Ha as (c1 & c2 & ->).
  apply ring_nxt in H. eapply nxt_live. exact H.
Qed.

Lemma ring_nonnull h c a : ring h c -> a ∈ c -> a <> 0.
Proof. intros (_ & H0 & _) Ha ->. auto. Qed.

(** ** The link-layer primitives on rings *)

Ltac live_tac :=
  repeat first [ rewrite live_upd_next | rewrite live_upd_prev ];
  first [ assumption
        | eapply nxt_live; eassumption
        | eapply prv_live; eassumption
        | eapply ring_live; [eassumption | set_solver] ].

Ltac run1 :=
  first
    [ erewrite bind_Done;
      [| first [ apply get_next_Done; eassumption
               | apply get_prev_Done; eassumption
               | apply get_value_Done; eassumption
               | apply set_next_Done; live_tac
               | apply set_prev_Done; live_tac ] ]
    | erewrite set_next_Done by live_tac
    | erewrite set_prev_Done by live_tac
    | erewrite get_next_Done by eassumption
    | erewrite get_prev_Done by eassumption ].

Lemma list_del_run h x n p :
  nxt h x = Some n -> prv h x = Some p -> live h n -> live h p ->
  list_del x h = Done tt (upd_next p n (upd_prev n p h)).
Proof.
  intros Hn Hp Ln Lp. unfold list_del. repeat run1. reflexivity.
Qed.

Lemma INIT_LIST_HEAD_run h x :
  live h x -> INIT_LIST_HEAD x h = Done tt (upd_prev x x (upd_next x x h)).
Proof. intros L. unfold INIT_LIST_HEAD. repeat run1. reflexivity. Qed.

Lemma list_add_run h node head nx :
  nxt h head = Some nx -> live h nx -> live h node ->
  list_add node head h =
  Done tt (upd_next head node (upd_prev node head
            (upd_next node nx (upd_prev nx node h)))).
Proof. intros Hn Ln Lx. unfold list_add. repeat run1. reflexivity. Qed.

Lemma list_add_tail_run h node head pv :
  prv h head = Some pv -> live h pv -> live h node ->
  list_add_tail node head h =
  Done tt (upd_prev head node (upd_prev node pv
            (upd_next node head (upd_next pv node h)))).
Proof. intros Hn Ln Lx. unfold list_add_tail. repeat run1. reflexivity. Qed.

Lemma links_upd_next_ne h p v a :
  a <> p -> links (upd_next p v h) !! a = links h !! a.
Proof. intros H. unfold upd_next; simpl. apply lookup_alter_ne. congruence. Qed.

Lemma links_upd_prev_ne h p v a :
  a <> p -> links (upd_prev p v h) !! a = links h !! a.
Proof. intros H. unfold upd_prev; simpl. apply lookup_alter_ne. congruence. Qed.

Lemma hd_nonempty (d1 d2 : Z) (l : list Z) : l <> [] -> hd d1 l = hd d2 l.
Proof. destruct l; [congruence|reflexivity]. Qed.

Lemma hd_elem (d : Z) (l : list Z) : l <> [] -> hd d l ∈ l.
Proof. destruct l; [congruence|]. intros _. left. Qed.

Lemma rev_nonempty (l : list Z) : l <> [] -> rev l <> [].
Proof.
  intros H E. apply H. rewrite <- (rev_involutive l), E. reflexivity.
Qed.

Lemma list_del_spec h c1 x c2 :
  ring h (c1 ++ x :: c2) -> c1 ++ c2 <> [] ->
  exists h', list_del x h = Done tt h' /\ ring h' (c1 ++ c2) /\
             same_blocks h h' /\
             (forall a, a ∉ c1 ++ c2 -> links h' !! a = links h !! a).
Proof.
  intros R Hne.
  pose proof (ring_nxt _ _ _ _ R) as Hn.
  pose proof (ring_prv _ _ _ _ R) as Hp.
  rewrite <- rev_app_distr in Hp.
  set (r := c2 ++ c1) in *.
  assert (r <> []) as Hr.
  { subst r. intros E. apply app_eq_nil in E as [-> ->]. auto. }
  rewrite (hd_nonempty x 0) in Hn by exact Hr.
  rewrite (hd_nonempty x 0) in Hp by (apply rev_nonempty; exact Hr).
  set (n := hd 0 r) in *. set (p := hd 0 (rev r)) in *.
  assert (n ∈ r) as Hnr by (apply hd_elem; exact Hr).
  assert (p ∈ r) as Hpr.
  { apply elem_of_rev. apply hd_elem, rev_nonempty, Hr. }
  apply ring_rot in R. simpl in R. fold r in R.
  assert (live h n) as Ln by (eapply ring_live; [exact R|set_solver]).
  assert (live h p) as Lp by (eapply ring_live; [exact R|set_solver]).
  exists (upd_next p n (upd_prev n p h)).
  split; [apply list_del_run; assumption|].
  destruct R as (Hnd & H0 & Cn & Cp).
  apply NoDup_cons in Hnd as [Hx Hnd].
  split; [|split].
  - apply ring_rot. fold r. split; [exact Hnd|]. split; [set_solver|]. split.
    + eapply (cycle_delete (nxt h)); [exact Cn|exact Hr|exact Hnd| |].
      * fold p n. rewrite nxt_upd_next by live_tac.
        rewrite decide_True by reflexivity. reflexivity.
      * fold p. intros a Ha Hap. rewrite nxt_upd_next by live_tac.
        rewrite decide_False by exact Hap. apply nxt_upd_prev.
    + simpl in Cp. apply cycle_rot1 in Cp.
      eapply (cycle_delete (prv h)); [exact Cp|apply rev_nonempty, Hr| | |].
      * apply NoDup_rev_Z. exact Hnd.
      * rewrite rev_involutive. fold p n. rewrite prv_upd_next.
        rewrite prv_upd_prev by live_tac.
        rewrite decide_True by reflexivity. reflexivity.
      * rewrite rev_involutive. fold n. intros a Ha Han.
        rewrite prv_upd_next, prv_upd_prev by live_tac.
        rewrite decide_False by exact Han. reflexivity.
  - eapply same_blocks_trans; [apply same_blocks_upd_prev|apply same_blocks_upd_next].
  - intros a Ha. assert (a ∉ r) as Har by (subst r; set_solver).
    rewrite links_upd_next_ne, links_upd_prev_ne; [reflexivity| |];
      intros ->; auto.
Qed.

Lemma list_add_spec h c1 y c2 x :
  ring h (c1 ++ y :: c2) -> x ∉ c1 ++ y :: c2 -> x <> 0 -> live h x ->
  exists h', list_add x y h = Done tt h' /\ ring h' (c1 ++ y :: x :: c2) /\
             same_blocks h h' /\
             (forall a, a ∉ x :: c1 ++ y :: c2 -> links h' !! a = links h !! a).
Proof.
  intros R Hx Hx0 Lx.
  pose proof (ring_nxt _ _ _ _ R) as Hn.
  set (r := c2 ++ c1) in *. set (n := hd y r) in *.
  assert (n ∈ y :: r) as Hnr.
  { subst n. destruct r; simpl; set_solver. }
  apply ring_rot in R. simpl in R. fold r in R.
  assert (x ∉ y :: r) as Hxr by (subst r; set_solver).
  assert (live h n) as Ln by (eapply ring_live; [exact R|exact Hnr]).
  assert (live h y) as Ly by (eapply ring_live; [exact R|set_solver]).
  assert (x <> y) as Hxy by set_solver.
  assert (x <> n) as Hxn by set_solver.
  set (h' := upd_next y x (upd_prev x y (upd_next x n (upd_prev n x h)))).
  assert (forall a, nxt h' a =
            if decide (a = y) then Some x
            else if decide (a = x) then Some n else nxt h a) as Nx.
  { intros a. subst h'. rewrite nxt_upd_next by live_tac.
    case_decide; [reflexivity|]. rewrite nxt_upd_prev.
    rewrite nxt_upd_next by live_tac. case_decide; [reflexivity|].
    apply nxt_upd_prev. }
  assert (forall a, prv h' a =
            if decide (a = x) then Some y
            else if decide (a = n) then Some x else prv h a) as Px.
  { intros a. subst h'. rewrite prv_upd_next.
    rewrite prv_upd_prev by live_tac. case_decide; [reflexivity|].
    rewrite prv_upd_next. apply prv_upd_prev. live_tac. }
  exists h'. split; [apply list_add_run; assumption|].
  split; [|split].
  - apply (ring_rot h' c1 (y :: x :: c2)). simpl. fold r.
    pose proof R as (Hnd & H0 & Cn & Cp).
    pose proof Hnd as Hnd'. apply NoDup_cons in Hnd' as [Hy Hndr].
    split; [|split; [|split]].
    + apply NoDup_cons. split; [set_solver|].
      apply NoDup_cons. split; [set_solver|exact Hndr].
    + set_solver.
    + apply (cycle_insert (nxt h) (nxt h') [] y r x); simpl.
      * exact Cn.
      * rewrite Nx, decide_True by reflexivity. reflexivity.
      * rewrite Nx, decide_False, decide_True by auto. auto.
      * intros a Ha. rewrite Nx, !decide_False; [reflexivity| |];
          intros ->; set_solver.
    + destruct r as [|n' r'].
      * simpl in *. subst n. unfold cycle. simpl.
        split; [reflexivity|]. exists y. split.
        { rewrite Px, decide_True by reflexivity. reflexivity. }
        split; [reflexivity|]. exists x. split; [|reflexivity].
        rewrite Px, decide_False, decide_True by auto. reflexivity.
      * simpl in n. subst n.
        assert (prv h n' = Some y) as Pn.
        { pose proof (ring_prv h [y] n' r' R) as E. simpl in E. exact E. }
        simpl. simpl in Cp. rewrite <- !app_assoc in *. simpl in *.
        apply (cycle_insert (prv h) (prv h') (rev r') n' [y] x).
        { exact Cp. }
        { rewrite Px, decide_False, decide_True by auto. reflexivity. }
        { rewrite Px, decide_True by reflexivity. auto. }
        { intros a Ha. rewrite Px, !decide_False; [reflexivity| |].
          - intros ->. apply NoDup_cons in Hndr as [Hn' _].
            apply elem_of_app in Ha as [Ha|Ha].
            + rewrite elem_of_rev in Ha. auto.
            + apply list_elem_of_singleton in Ha. subst. set_solver.
          - intros ->. apply Hxr. apply elem_of_app in Ha as [Ha|Ha].
            + rewrite elem_of_rev in Ha. set_solver.
            + set_solver. }
  - subst h'. repeat first
      [ eapply same_blocks_trans; [|apply same_blocks_upd_next]
      | eapply same_blocks_trans; [|apply same_blocks_upd_prev] ].
    apply same_blocks_refl.
  - intros a Ha. assert (a ∉ x :: y :: r) as Har by (subst r; set_solver).
    subst h'.
    rewrite links_upd_next_ne, links_upd_prev_ne, links_upd_next_ne,
      links_upd_prev_ne; [reflexivity| | | |]; intros ->; set_solver.
Qed.

Lemma list_add_tail_spec h c1 y c2 x :
  ring h (c1 ++ y :: c2) -> x ∉ c1 ++ y :: c2 -> x <> 0 -> live h x ->
  exists h', list_add_tail x y h = Done tt h' /\
             ring h' (c1 ++ x :: y :: c2) /\
             same_blocks h h' /\
             (forall a, a ∉ x :: c1 ++ y :: c2 -> links h' !! a = links h !! a).
Proof.
  intros R Hx Hx0 Lx.
  pose proof (ring_prv _ _ _ _ R) as Hp.
  rewrite <- rev_app_distr in Hp.
  set (r := c2 ++ c1) in *. set (p := hd y (rev r)) in *.
  assert (p ∈ y :: r) as Hpr.
  { subst p. destruct (rev r) as [|p' s] eqn:E; simpl; [set_solver|].
    right. apply elem_of_rev. rewrite E. left. }
  apply ring_rot in R. simpl in R. fold r in R.
  assert (x ∉ y :: r) as Hxr by (subst r; set_solver).
  assert (live h p) as Lp by (eapply ring_live; [exact R|exact Hpr]).
  assert (live h y) as Ly by (eapply ring_live; [exact R|set_solver]).
  assert (x <> y) as Hxy by set_solver.
  assert (x <> p) as Hxp by set_solver.
  set (h' := upd_prev y x (upd_prev x p (upd_next x y (upd_next p x h)))).
  assert (forall a, prv h' a =
            if decide (a = y) then Some x
            else if decide (a = x) then Some p else prv h a) as Px.
  { intros a. subst h'. rewrite prv_upd_prev by live_tac.
    case_decide; [reflexivity|].
    rewrite prv_upd_prev by live_tac. case_decide; [reflexivity|].
    rewrite !prv_upd_next. reflexivity. }
  assert (forall a, nxt h' a =
            if decide (a = x) then Some y
            else if decide (a = p) then Some x else nxt h a) as Nx.
  { intros a. subst h'. rewrite !nxt_upd_prev.
    rewrite nxt_upd_next by live_tac. case_decide; [reflexivity|].
    apply nxt_upd_next. live_tac. }
  exists h'. split; [apply list_add_tail_run; assumption|].
  split; [|split].
  - apply (ring_rot h' c1 (x :: y :: c2)). simpl. fold r.
    pose proof R as (Hnd & H0 & Cn & Cp).
    pose proof Hnd as Hnd'. apply NoDup_cons in Hnd' as [Hy Hndr].
    split; [|split; [|split]].
    + apply NoDup_cons. split; [set_solver|exact Hnd].
    + set_solver.
    + destruct (decide (r = [])) as [->|Hr].
      * simpl in *. subst p. unfold cycle. simpl.
        split; [reflexivity|]. exists y. split.
        { rewrite Nx, decide_True by reflexivity. reflexivity. }
        split; [reflexivity|]. exists x. split; [|reflexivity].
        rewrite Nx, decide_False, decide_True by auto. reflexivity.
      * destruct (exists_last Hr) as (r' & p' & Er).
        assert (p = p') as <-.
        { subst p. rewrite Er, rev_unit. reflexivity. }
        rewrite Er in *.
        assert (nxt h p = Some y) as Np.
        { pose proof (ring_nxt h (y :: r') p [] R) as E. simpl in E. exact E. }
        apply cycle_rot1. simpl. rewrite <- app_assoc. simpl.
        apply (cycle_insert (nxt h) (nxt h') (y :: r') p [] x).
        { exact Cn. }
        { rewrite Nx, decide_False, decide_True by auto. reflexivity. }
        { rewrite Nx, decide_True by reflexivity. auto. }
        { intros a Ha. rewrite app_nil_r in Ha.
          rewrite Nx, !decide_False; [reflexivity| |].
          - intros ->. rewrite app_comm_cons in Hnd.
            apply NoDup_app in Hnd as (_ & Hd & _). apply (Hd p Ha). left.
          - intros ->. apply Hxr. set_solver. }
    + simpl. rewrite <- app_assoc. simpl.
      apply (cycle_insert (prv h) (prv h') (rev r) y [] x).
      * exact Cp.
      * rewrite Px, decide_True by reflexivity. reflexivity.
      * rewrite Px, decide_False, decide_True by auto. auto.
      * intros a Ha. rewrite app_nil_r in Ha. rewrite elem_of_rev in Ha.
        rewrite Px, !decide_False; [reflexivity| |]; intros ->; set_solver.
  - subst h'. repeat first
      [ eapply same_blocks_trans; [|apply same_blocks_upd_next]
      | eapply same_blocks_trans; [|apply same_blocks_upd_prev] ].
    apply same_blocks_refl.
  - intros a Ha. assert (a ∉ x :: y :: r) as Har by (subst r; set_solver).
    subst h'.
    rewrite links_upd_prev_ne, links_upd_prev_ne, links_upd_next_ne,
      links_upd_next_ne; [reflexivity| | | |]; intros ->; set_solver.
Qed.

Lemma INIT_LIST_HEAD_spec h x :
  live h x ->
  exists h', INIT_LIST_HEAD x h = Done tt h' /\
             nxt h' x = Some x /\ prv h' x = Some x /\
             same_blocks h h' /\
             (forall a, a <> x -> links h' !! a = links h !! a).
Proof.
  intros L. exists (upd_prev x x (upd_next x x h)).
  split; [apply INIT_LIST_HEAD_run; exact L|].
  split; [|split; [|split]].
  - rewrite nxt_upd_prev, nxt_upd_next, decide_True by auto. reflexivity.
  - rewrite prv_upd_prev by live_tac. rewrite decide_True by reflexivity.
    reflexivity.
  - eapply same_blocks_trans; [apply same_blocks_upd_next|apply same_blocks_upd_prev].
  - intros a Ha. rewrite links_upd_prev_ne, links_upd_next_ne by exact Ha.
    reflexivity.
Qed.

Lemma list_del_init_spec h c1 x c2 :
  ring h (c1 ++ x :: c2) -> c1 ++ c2 <> [] ->
  exists h', list_del_init x h = Done tt h' /\ ring h' (c1 ++ c2) /\
             nxt h' x = Some x /\ prv h' x = Some x /\
             same_blocks h h' /\
             (forall a, a ∉ x :: c1 ++ c2 -> links h' !! a = links h !! a).
Proof.
  intros R Hne.
  assert (x ∉ c1 ++ c2) as Hx.
  { destruct R as (Hnd & _). apply NoDup_app in Hnd as (_ & Hd & Hnd).
    apply NoDup_cons in Hnd as [Hx2 _]. intros Hx.
    apply elem_of_app in Hx as [Hx|Hx]; [|auto]. apply (Hd x Hx). left. }
  assert (live h x) as Lx by (eapply ring_live; [exact R|set_solver]).
  destruct (list_del_spec _ _ _ _ R Hne) as (h1 & E1 & R1 & S1 & F1).
  assert (live h1 x) as Lx1 by (apply (same_blocks_live _ _ _ S1); exact Lx).
  destruct (INIT_LIST_HEAD_spec h1 x Lx1) as (h2 & E2 & N2 & P2 & S2 & F2).
  exists h2. unfold list_del_init. rewrite (bind_Done _ _ _ _ _ E1).
  split; [exact E2|]. split; [|split; [exact N2|split; [exact P2|split]]].
  - eapply ring_frame; [|exact R1]. intros a Ha. apply F2. intros ->. auto.
  - eapply same_blocks_trans; eassumption.
  - intros a Ha. rewrite F2 by set_solver. apply F1. set_solver.
Qed.

Lemma list_move_spec h c1 x c2 d1 y d2 :
  ring h (c1 ++ x :: c2) -> c1 ++ c2 = d1 ++ y :: d2 ->
  exists h', list_move x y h = Done tt h' /\ ring h' (d1 ++ y :: x :: d2) /\
             same_blocks h h'.
Proof.
  intros R E.
  assert (c1 ++ c2 <> []) as Hne by (rewrite E; destruct d1; discriminate).
  assert (x ∉ c1 ++ c2) as Hx.
  { destruct R as (Hnd & _). apply NoDup_app in Hnd as (_ & Hd & Hnd).
    apply NoDup_cons in Hnd as [Hx2 _]. intros Hx.
    apply elem_of_app in Hx as [Hx|Hx]; [|auto]. apply (Hd x Hx). left. }
  assert (live h x) as Lx by (eapply ring_live; [exact R|set_solver]).
  assert (x <> 0) as Hx0 by (eapply ring_nonnull; [exact R|set_solver]).
  destruct (list_del_spec _ _ _ _ R Hne) as (h1 & E1 & R1 & S1 & F1).
  rewrite E in R1, Hx.
  assert (live h1 x) as Lx1 by (apply (same_blocks_live _ _ _ S1); exact Lx).
  destruct (list_add_spec _ _ _ _ _ R1 Hx Hx0 Lx1) as (h2 & E2 & R2 & S2 & F2).
  exists h2. unfold list_move. rewrite (bind_Done _ _ _ _ _ E1).
  split; [exact E2|]. split; [exact R2|].
  eapply same_blocks_trans; eassumption.
Qed.

(** ** q_reverse *)

Lemma eqb_ne (a b : Z) : a <> b -> (a =? b) = false.
Proof. apply Z.eqb_neq. Qed.

Lemma queue_head_notin h head l : queue h head l -> head ∉ l.
Proof. intros (Hnd & _). apply NoDup_cons in Hnd. tauto. Qed.

Lemma queue_head_nonnull h head l : queue h head l -> head <> 0.
Proof. intros R. eapply ring_nonnull; [exact R|left]. Qed.

Lemma q_reverse_loop_spec fuel : forall todo acc h head node safe,
  ring h (head :: acc ++ todo) -> (length todo <= fuel)%nat ->
  node = hd head todo -> (todo <> [] -> safe = hd head (tl todo)) ->
  exists h', q_reverse_loop fuel head node safe h = Done tt h' /\
             ring h' (head :: rev todo ++ acc) /\ same_blocks h h'.
Proof.
  induction fuel as [|fuel IH]; intros todo acc h head node safe R Hlen Hnode Hsafe.
  - destruct todo; [|simpl in Hlen; lia]. simpl in *. subst node.
    rewrite Z.eqb_refl. exists h. rewrite app_nil_r in R.
    split; [reflexivity|]. split; [exact R|apply same_blocks_refl].
  - destruct todo as [|x t].
    + simpl in *. subst node. rewrite Z.eqb_refl. exists h.
      rewrite app_nil_r in R.
      split; [reflexivity|]. split; [exact R|apply same_blocks_refl].
    + simpl in Hnode, Hsafe, Hlen. subst node.
      specialize (Hsafe ltac:(discriminate)).
      assert (x <> head) as Hxh.
      { pose proof (queue_head_notin _ _ _ R) as Hh. set_solver. }
      simpl. rewrite (eqb_ne _ _ Hxh).
      destruct (list_move_spec h (head :: acc) x t [] head (acc ++ t) R eq_refl)
        as (h1 & E1 & R1 & S1).
      simpl in R1.
      rewrite (bind_Done _ _ _ _ _ E1).
      assert (exists s', nxt h1 safe = Some s' /\
                         (t <> [] -> s' = hd head (tl t))) as (s' & Hs' & Hs'2).
      { destruct t as [|y t'].
        - simpl in Hsafe. subst safe.
          pose proof (ring_nxt h1 [] head _ R1) as E. eexists. split; [exact E|].
          congruence.
        - simpl in Hsafe. subst safe.
          pose proof (ring_nxt h1 (head :: x :: acc) y t' R1) as E.
          eexists. split; [exact E|]. intros _. destruct t'; reflexivity. }
      rewrite (bind_Done _ _ _ _ _ (get_next_Done _ _ _ Hs')).
      destruct (IH t (x :: acc) h1 head safe s') as (h2 & E2 & R2 & S2).
      * change (head :: (x :: acc) ++ t) with (head :: x :: acc ++ t). exact R1.
      * lia.
      * exact Hsafe.
      * exact Hs'2.
      * exists h2. split; [exact E2|]. split.
        { rewrite <- app_assoc. exact R2. }
        { eapply same_blocks_trans; eassumption. }
Qed.

Lemma list_empty_spec h head l :
  queue h head l ->
  list_empty head h = Done (match l with [] => true | _ => false end) h.
Proof.
  intros R. pose proof (ring_nxt h [] head l R) as E. rewrite app_nil_r in E.
  unfold list_empty. rewrite (bind_Done _ _ _ _ _ (get_next_Done _ _ _ E)).
  unfold ret. f_equal. destruct l as [|x l]; simpl.
  - apply Z.eqb_refl.
  - apply eqb_ne. pose proof (queue_head_notin _ _ _ R). set_solver.
Qed.

Lemma q_reverse_spec fuel h head l :
  queue h head l -> (length l <= fuel)%nat ->
  exists h', q_reverse fuel head h = Done tt h' /\ queue h' head (rev l) /\
             same_blocks h h'.
Proof.
  intros R Hlen. unfold q_reverse.
  rewrite (eqb_ne head NULL) by (eapply queue_head_nonnull; exact R).
  rewrite (bind_Done _ _ _ _ _ (list_empty_spec _ _ _ R)).
  destruct l as [|x t].
  - exists h. split; [reflexivity|]. split; [exact R|apply same_blocks_refl].
  - pose proof (ring_nxt h [] head (x :: t) R) as E. simpl in E.
    rewrite (bind_Done _ _ _ _ _ (get_next_Done _ _ _ E)).
    pose proof (ring_nxt h [head] x t R) as E2.
    rewrite (bind_Done _ _ _ _ _ (get_next_Done _ _ _ E2)).
    destruct (q_reverse_loop_spec fuel (x :: t) [] h head x (hd x (t ++ [head])))
      as (h' & E' & R' & S'); auto.
    + intros _. simpl. destruct t; reflexivity.
    + exists h'. split; [exact E'|]. rewrite app_nil_r in R'. auto.
Qed.

(** ** Allocation *)

Lemma max_key_ge {V} (m : gmap Z V) k : is_Some (m !! k) -> k <= max_key m.
Proof.
  unfold max_key. revert k.
  apply (map_fold_weak_ind
           (fun r (m : gmap Z V) => forall k, is_Some (m !! k) -> k <= r)).
  - intros k [x Hx]. rewrite lookup_empty in Hx. discriminate.
  - intros i x m' r Hi IH k Hk.
    destruct (decide (k = i)) as [->|Hne]; [lia|].
    rewrite lookup_insert_ne in Hk by congruence.
    specialize (IH k Hk). lia.
Qed.

Lemma max_key_nonneg {V} (m : gmap Z V) : 0 <= max_key m.
Proof.
  unfold max_key.
  apply (map_fold_weak_ind (fun r (_ : gmap Z V) => 0 <= r)); intros; lia.
Qed.

Lemma fresh_addr_nonnull h : fresh_addr h <> 0.
Proof.
  unfold fresh_addr. pose proof (max_key_nonneg (links h)). lia.
Qed.

Lemma fresh_addr_links h : links h !! fresh_addr h = None.
Proof.
  apply eq_None_not_Some. intros H. apply max_key_ge in H.
  unfold fresh_addr in H. lia.
Qed.

Lemma fresh_addr_values h : values h !! fresh_addr h = None.
Proof.
  apply eq_None_not_Some. intros H. apply max_key_ge in H.
  unfold fresh_addr in H. lia.
Qed.

(** ** q_new *)

Lemma q_new_spec h :
  exists h', q_new true h = Done (fresh_addr h) h' /\
             queue h' (fresh_addr h) [] /\
             values h' = values h /\
             (forall a, a <> fresh_addr h -> links h' !! a = links h !! a).
Proof.
  set (p := fresh_addr h).
  set (h1 := Heap (<[p := ListHead NULL NULL]> (links h)) (values h)).
  assert (live h1 p) as L1.
  { unfold live, h1. simpl. rewrite lookup_insert_eq. eauto. }
  destruct (INIT_LIST_HEAD_spec h1 p L1) as (h2 & E2 & N2 & P2 & S2 & F2).
  exists h2. split; [|split; [|split]].
  - unfold q_new, malloc_list_head, bind. fold p. fold h1.
    rewrite (eqb_ne p NULL) by apply fresh_addr_nonnull.
    rewrite E2. reflexivity.
  - unfold queue, ring, cycle. simpl. split; [|split; [|split]].
    + apply NoDup_singleton.
    + intros H. apply list_elem_of_singleton in H.
      symmetry in H. revert H. apply fresh_addr_nonnull.
    + split; [reflexivity|]. eauto.
    + split; [reflexivity|]. eauto.
  - destruct S2 as [_ ->]. reflexivity.
  - intros a Ha. rewrite F2 by exact Ha. unfold h1. simpl.
    apply lookup_insert_ne. congruence.
Qed.

(** ** q_insert_head and q_insert_tail *)

Lemma insert_prefix_run h v :
  (set_value (fresh_addr h) v) (alloc_element h) =
  Done tt (Heap (<[fresh_addr h := ListHead NULL NULL]> (links h))
                (<[fresh_addr h := v]> (values h))).
Proof.
  unfold set_value, alloc_element. simpl. rewrite lookup_insert_eq.
  rewrite insert_insert_eq. reflexivity.
Qed.

Lemma release_fresh h v :
  q_release_element (fresh_addr h)
    (Heap (<[fresh_addr h := ListHead NULL NULL]> (links h))
          (<[fresh_addr h := v]> (values h))) = Done tt h.
Proof.
  unfold q_release_element. simpl. rewrite !lookup_insert_eq.
  rewrite !delete_insert_id
    by (apply fresh_addr_links || apply fresh_addr_values).
  destruct h; reflexivity.
Qed.

Section Insert.
Variables (h : heap) (head : Z) (l : list Z) (s : string).
Hypothesis Q : queue h head l.

Let p := fresh_addr h.
Let h2 := Heap (<[p := ListHead NULL NULL]> (links h))
               (<[p := Some s]> (values h)).

Lemma insert_fresh_notin : p ∉ head :: l.
Proof.
  intros H. pose proof (ring_live _ _ _ Q H) as [x Hx].
  unfold p in Hx. rewrite fresh_addr_links in Hx. discriminate.
Qed.

Lemma insert_ready : ring h2 (head :: l) /\ live h2 p.
Proof.
  split.
  - eapply ring_frame; [|exact Q]. intros a Ha. unfold h2. simpl.
    apply lookup_insert_ne. intros <-. apply insert_fresh_notin, Ha.
  - unfold live, h2. simpl. rewrite lookup_insert_eq. eauto.
Qed.



End Insert.

(** ** q_remove_head and q_remove_tail *)

Lemma truncated_length s k : length (truncated s k) = k.
Proof.
  unfold truncated. rewrite length_take, length_app, length_replicate. lia.
Qed.

Lemma copy_out_in_bounds (b : buffer) (s : string) (bufsize : Z) :
  1 <= bufsize -> bufsize <= Z.of_nat (length b) -> bufsize < SIZE_MOD ->
  copy_out (Some b) s bufsize =
  Some (Some (truncated s (Z.to_nat (bufsize - 1)) ++ zero ::
              drop (Z.to_nat bufsize) b)).
Proof.
  intros H1 H2 H3. unfold copy_out, size_sub.
  rewrite Z.mod_small by lia.
  unfold strncpy. rewrite (proj2 (Z.leb_le _ _)) by lia.
  fold (truncated s (Z.to_nat (bufsize - 1))).
  set (k := Z.to_nat (bufsize - 1)).
  unfold store_char.
  assert (length (truncated s k ++ drop k b) = length b) as Hlen.
  { rewrite length_app, truncated_length, length_drop. lia. }
  rewrite Hlen.
  rewrite (proj2 (Z.leb_le _ _)), (proj2 (Z.ltb_lt _ _)) by lia. simpl.
  do 2 f_equal. fold k.
  destruct (drop k b) as [|c rest] eqn:E.
  { exfalso. apply (f_equal length) in E. rewrite length_drop in E.
    simpl in E. lia. }
  replace (Z.to_nat bufsize) with (S k) by lia.
  rewrite insert_app_r_alt by (rewrite truncated_length; lia).
  rewrite truncated_length, Nat.sub_diag. simpl. f_equal. f_equal.
  change rest with (drop 1 (c :: rest)). rewrite <- E, drop_drop.
  f_equal. lia.
Qed.

Lemma copy_out_size_zero (b : buffer) (s : string) :
  Z.of_nat (length b) < SIZE_MOD - 1 -> copy_out (Some b) s 0 = None.
Proof.
  intros H. unfold copy_out, size_sub, strncpy.
  change ((0 - 1) mod SIZE_MOD) with (SIZE_MOD - 1).
  rewrite (proj2 (Z.leb_gt _ _)) by lia. reflexivity.
Qed.

Lemma remove_spec h c1 x c2 sp bufsize :
  ring h (c1 ++ x :: c2) -> c1 ++ c2 <> [] ->
  exists h', list_del_init x h = Done tt h' /\ ring h' (c1 ++ c2) /\
    nxt h' x = Some x /\ prv h' x = Some x /\ same_blocks h h' /\
    (list_del_init x ;;
     sp' <- copy_to_buffer x sp bufsize ;;
     ret (x, sp')) h =
    match sp with
    | None => Done (x, None) h'
    | Some b =>
        match txt h x with
        | None => Undefined
        | Some s => match copy_out sp s bufsize with
                    | Some sp' => Done (x, sp') h'
                    | None => Undefined
                    end
        end
    end.
Proof.
  intros R Hne.
  destruct (list_del_init_spec _ _ _ _ R Hne) as (h' & E & R' & N & P & S & _).
  exists h'. repeat (split; [assumption|]).
  rewrite (bind_Done _ _ _ _ _ E).
  destruct sp as [b|]; [|reflexivity].
  unfold copy_to_buffer, bind at 1, bind at 1, get_value.
  rewrite (same_blocks_txt _ _ _ S).
  destruct (txt h x) as [s|]; [|reflexivity].
  destruct (copy_out (Some b) s bufsize); reflexivity.
Qed.

Lemma q_remove_head_spec h head x l sp bufsize :
  queue h head (x :: l) ->
  exists h', queue h' head l /\
    nxt h' x = Some x /\ prv h' x = Some x /\ same_blocks h h' /\
    q_remove_head head sp bufsize h =
    match sp with
    | None => Done (x, None) h'
    | Some b =>
        match txt h x with
        | None => Undefined
        | Some s => match copy_out sp s bufsize with
                    | Some sp' => Done (x, sp') h'
                    | None => Undefined
                    end
        end
    end.
Proof.
  intros Q.
  destruct (remove_spec h [head] x l sp bufsize Q ltac:(discriminate))
    as (h' & _ & R' & N & P & S & E).
  exists h'. repeat (split; [assumption|]).
  unfold q_remove_head.
  rewrite (eqb_ne head NULL) by (eapply queue_head_nonnull; exact Q).
  rewrite (bind_Done _ _ _ _ _ (list_empty_spec _ _ _ Q)).
  pose proof (ring_nxt h [] head (x :: l) Q) as Hn. simpl in Hn.
  rewrite (bind_Done _ _ _ _ _ (get_next_Done _ _ _ Hn)).
  exact E.
Qed.

Lemma q_remove_tail_spec h head x l sp bufsize :
  queue h head (l ++ [x]) ->
  exists h', queue h' head l /\
    nxt h' x = Some x /\ prv h' x = Some x /\ same_blocks h h' /\
    q_remove_tail head sp bufsize h =
    match sp with
    | None => Done (x, None) h'
    | Some b =>
        match txt h x with
        | None => Undefined
        | Some s => match copy_out sp s bufsize with
                    | Some sp' => Done (x, sp') h'
                    | None => Undefined
                    end
        end
    end.
Proof.
  intros Q. unfold queue in Q.
  assert (ring h ((head :: l) ++ x :: [])) as R by exact Q.
  destruct (remove_spec h (head :: l) x [] sp bufsize R ltac:(discriminate))
    as (h' & _ & R' & N & P & S & E).
  rewrite app_nil_r in R'.
  exists h'. repeat (split; [assumption|]).
  unfold q_remove_tail.
  rewrite (eqb_ne head NULL) by (eapply queue_head_nonnull; exact Q).
  rewrite (bind_Done _ _ _ _ _ (list_empty_spec _ _ _ Q)).
  assert (match l ++ [x] with [] => true | _ => false end = false) as ->
    by (destruct l; reflexivity).
  pose proof (ring_prv h [] head (l ++ [x]) Q) as Hp. simpl in Hp.
  rewrite rev_unit in Hp. simpl in Hp.
  rewrite (bind_Done _ _ _ _ _ (get_prev_Done _ _ _ Hp)).
  exact E.
Qed.

Lemma q_remove_empty h head sp bufsize :
  queue h head [] ->
  q_remove_head head sp bufsize h = Done (NULL, sp) h /\
  q_remove_tail head sp bufsize h = Done (NULL, sp) h.
Proof.
  intros Q. unfold q_remove_head, q_remove_tail.
  rewrite (eqb_ne head NULL) by (eapply queue_head_nonnull; exact Q).
  rewrite !(bind_Done _ _ _ _ _ (list_empty_spec _ _ _ Q)). auto.
Qed.

(** A remove with any buffer that is null or large enough: the heap it
    leaves is the one [list_del_init] leaves, and the buffer is what
    [copy_out] makes of it. *)
Lemma remove_run h c1 x c2 sp bufsize s :
  ring h (c1 ++ x :: c2) -> c1 ++ c2 <> [] ->
  txt h x = Some s -> buffer_ok sp bufsize ->
  exists h' sp',
    (list_del_init x ;;
     sp' <- copy_to_buffer x sp bufsize ;;
     ret (x, sp')) h = Done (x, sp') h' /\
    copy_out sp s bufsize = Some sp' /\
    list_del_init x h = Done tt h' /\
    ring h' (c1 ++ c2) /\ nxt h' x = Some x /\ prv h' x = Some x /\
    same_blocks h h' /\
    (forall a, a ∉ x :: c1 ++ c2 -> links h' !! a = links h !! a).
Proof.
  intros R Hne Hs B.
  destruct (list_del_init_spec _ _ _ _ R Hne) as (h' & E & R' & N & P & S & F).
  destruct (remove_spec h c1 x c2 sp bufsize R Hne)
    as (h'' & E'' & _ & _ & _ & _ & Run).
  rewrite E in E''. inversion E''. subst h''. clear E''.
  rewrite Hs in Run.
  assert (exists sp', copy_out sp s bufsize = Some sp') as [sp' Hc].
  { destruct sp as [b|]; [|exists None; reflexivity].
    destruct B as (B1 & B2 & B3).
    rewrite copy_out_in_bounds by assumption. eauto. }
  exists h', sp'. split.
  { rewrite Run. destruct sp as [b|].
    - rewrite Hc. reflexivity.
    - simpl in Hc. inversion Hc. reflexivity. }
  repeat (split; [assumption|]). exact F.
Qed.

Lemma q_remove_head_run h head x l sp bufsize s :
  queue h head (x :: l) -> txt h x = Some s -> buffer_ok sp bufsize ->
  exists h' sp',
    q_remove_head head sp bufsize h = Done (x, sp') h' /\
    copy_out sp s bufsize = Some sp' /\
    list_del_init x h = Done tt h' /\
    queue h' head l /\ nxt h' x = Some x /\ prv h' x = Some x /\
    same_blocks h h' /\
    (forall a, a ∉ x :: head :: l -> links h' !! a = links h !! a).
Proof.
  intros Q Hs B.
  destruct (remove_run h [head] x l sp bufsize s Q ltac:(discriminate) Hs B)
    as (h' & sp' & E & K).
  exists h', sp'. split; [|exact K].
  unfold q_remove_head.
  rewrite (eqb_ne head NULL) by (eapply queue_head_nonnull; exact Q).
  rewrite (bind_Done _ _ _ _ _ (list_empty_spec _ _ _ Q)).
  pose proof (ring_nxt h [] head (x :: l) Q) as Hn. simpl in Hn.
  rewrite (bind_Done _ _ _ _ _ (get_next_Done _ _ _ Hn)). exact E.
Qed.

Lemma q_remove_tail_run h head x l sp bufsize s :
  queue h head (l ++ [x]) -> txt h x = Some s -> buffer_ok sp bufsize ->
  exists h' sp',
    q_remove_tail head sp bufsize h = Done (x, sp') h' /\
    copy_out sp s bufsize = Some sp' /\
    list_del_init x h = Done tt h' /\
    queue h' head l /\ nxt h' x = Some x /\ prv h' x = Some x /\
    same_blocks h h' /\
    (forall a, a ∉ x :: head :: l -> links h' !! a = links h !! a).
Proof.
  intros Q Hs B.
  assert (ring h ((head :: l) ++ x :: [])) as R by exact Q.
  destruct (remove_run h (head :: l) x [] sp bufsize s R ltac:(discriminate) Hs B)
    as (h' & sp' & E & K).
  rewrite app_nil_r in K.
  exists h', sp'. split; [|exact K].
  unfold q_remove_tail.
  rewrite (eqb_ne head NULL) by (eapply queue_head_nonnull; exact Q).
  rewrite (bind_Done _ _ _ _ _ (list_empty_spec _ _ _ Q)).
  assert (match l ++ [x] with [] => true | _ => false end = false) as ->
    by (destruct l; reflexivity).
  pose proof (ring_prv h [] head (l ++ [x]) Q) as Hp. simpl in Hp.
  rewrite rev_unit in Hp. simpl in Hp.
  rewrite (bind_Done _ _ _ _ _ (get_prev_Done _ _ _ Hp)). exact E.
Qed.

(** ** Traversal: q_size and the sequence of texts *)

Lemma ring_step h head acc x t :
  ring h (head :: acc ++ x :: t) -> x <> head /\ nxt h x = Some (hd head t).
Proof.
  intros R. split.
  - pose proof (queue_head_notin _ _ _ R) as Hh. set_solver.
  - pose proof (ring_nxt h (head :: acc) x t R) as E. rewrite E.
    f_equal. destruct t; reflexivity.
Qed.

Lemma q_size_loop_spec fuel : forall todo acc h head li len,
  ring h (head :: acc ++ todo) -> (length todo <= fuel)%nat ->
  len + Z.of_nat (length todo) <= INT_MAX ->
  li = hd head todo ->
  q_size_loop fuel head li len h = Done (len + Z.of_nat (length todo)) h.
Proof.
  induction fuel as [|fuel IH]; intros todo acc h head li len R Hlen Hmax ->.
  - destruct todo; [|simpl in Hlen; lia]. simpl.
    rewrite Z.eqb_refl, Z.add_0_r. reflexivity.
  - destruct todo as [|x t].
    + simpl. rewrite Z.eqb_refl, Z.add_0_r. reflexivity.
    + destruct (ring_step _ _ _ _ _ R) as [Hx Hn].
      change (length (x :: t)) with (S (length t)) in *.
      cbn [q_size_loop hd]. rewrite (eqb_ne _ _ Hx).
      rewrite (eqb_ne len INT_MAX) by lia.
      rewrite (bind_Done _ _ _ _ _ (get_next_Done _ _ _ Hn)).
      rewrite (IH t (acc ++ [x])).
      * f_equal. lia.
      * rewrite <- app_assoc. exact R.
      * lia.
      * lia.
      * reflexivity.
Qed.

Lemma q_size_spec fuel h head l :
  queue h head l -> (length l <= fuel)%nat ->
  Z.of_nat (length l) <= INT_MAX ->
  q_size fuel head h = Done (Z.of_nat (length l)) h.
Proof.
  intros Q Hlen Hmax. unfold q_size.
  rewrite (eqb_ne head NULL) by (eapply queue_head_nonnull; exact Q).
  pose proof (ring_nxt h [] head l Q) as E. rewrite app_nil_r in E.
  rewrite (bind_Done _ _ _ _ _ (get_next_Done _ _ _ E)).
  rewrite (q_size_loop_spec fuel l [] h head); auto.
Qed.

(** ** q_release_element *)

Lemma q_release_element_spec h c x :
  ring h c -> x ∉ c -> live h x -> is_Some (values h !! x) ->
  exists h', q_release_element x h = Done tt h' /\ ring h' c /\
             links h' = delete x (links h) /\
             values h' = delete x (values h).
Proof.
  intros R Hx [n Hn] [v Hv].
  exists (Heap (delete x (links h)) (delete x (values h))).
  split; [|split; [|split; reflexivity]].
  - unfold q_release_element. rewrite Hn, Hv. reflexivity.
  - eapply ring_frame; [|exact R]. intros a Ha. simpl.
    apply lookup_delete_ne. intros ->. auto.
Qed.

Lemma txt_delete h h' x a :
  values h' = delete x (values h) -> a <> x -> txt h' a = txt h a.
Proof.
  intros E Ha. unfold txt. rewrite E, lookup_delete_ne by congruence.
  reflexivity.
Qed.

Lemma txt_values h a s : txt h a = Some s -> is_Some (values h !! a).
Proof.
  unfold txt. destruct (values h !! a) as [v|]; [eauto|discriminate].
Qed.

(** ** q_delete_mid *)

Lemma half_SS (n : nat) : (S (S n) / 2 = S (n / 2))%nat.
Proof.
  change (S (S n)) with (2 + n)%nat.
  replace (2 + n)%nat with (1 * 2 + n)%nat by lia.
  rewrite Nat.div_add_l by lia. reflexivity.
Qed.

Lemma q_delete_mid_loop_spec fuel : forall lf ls p1 p2 h head l fast slow,
  queue h head l -> l = p1 ++ lf -> l = p2 ++ ls ->
  (length lf <= length ls)%nat -> (length lf <= fuel)%nat ->
  fast = hd head lf -> slow = hd head ls ->
  q_delete_mid_loop fuel head fast slow h =
  Done (hd head (drop (length lf / 2) ls)) h.
Proof.
  induction fuel as [|fuel IH];
    intros lf ls p1 p2 h head l fast slow Q E1 E2 Hls Hlen -> ->.
  - destruct lf; [|simpl in Hlen; lia]. simpl. rewrite Z.eqb_refl. reflexivity.
  - destruct lf as [|a [|b lf']].
    + simpl. rewrite Z.eqb_refl. reflexivity.
    + subst l. unfold queue in Q.
      destruct (ring_step _ _ _ _ _ Q) as [Ha _].
      pose proof (ring_prv h [] head (p1 ++ [a]) Q) as Hp.
      simpl in Hp. rewrite rev_unit in Hp. simpl in Hp.
      simpl. rewrite (eqb_ne _ _ Ha).
      rewrite (bind_Done _ _ _ _ _ (get_prev_Done _ _ _ Hp)).
      rewrite Z.eqb_refl. reflexivity.
    + destruct ls as [|s ls']; [simpl in Hls; lia|].
      pose proof Q as Q1. unfold queue in Q1. rewrite E1 in Q1.
      destruct (ring_step _ _ _ _ _ Q1) as [Ha Na]. simpl in Na.
      assert (ring h (head :: (p1 ++ [a]) ++ b :: lf')) as Q2.
      { rewrite <- app_assoc. exact Q1. }
      destruct (ring_step _ _ _ _ _ Q2) as [Hb Nb].
      pose proof Q as Q3. unfold queue in Q3. rewrite E2 in Q3.
      destruct (ring_step _ _ _ _ _ Q3) as [Hs Ns].
      pose proof (ring_prv h [] head l Q) as Hp. simpl in Hp.
      assert (hd head (rev l) <> a) as Hta.
      { rewrite E1. rewrite rev_app_distr. simpl. rewrite <- !app_assoc. simpl.
        destruct Q1 as (Hnd & _). apply NoDup_cons in Hnd as [_ Hnd].
        apply NoDup_app in Hnd as (_ & _ & Hnd).
        apply NoDup_cons in Hnd as [Hnd _].
        intros E. apply Hnd.
        destruct (rev lf') as [|z r] eqn:Er; simpl in E.
        - subst. left.
        - right. apply elem_of_rev. rewrite Er, <- E. left. }
      change (length (a :: b :: lf') / 2)%nat
        with (S (S (length lf')) / 2)%nat.
      rewrite half_SS.
      simpl q_delete_mid_loop. rewrite (eqb_ne _ _ Ha).
      rewrite (bind_Done _ _ _ _ _ (get_prev_Done _ _ _ Hp)).
      rewrite (eqb_ne (hd head (a :: b :: lf')) _) by (simpl; congruence).
      simpl hd.
      rewrite (bind_Done _ _ _ _ _ (get_next_Done _ _ _ Na)).
      rewrite (bind_Done _ _ _ _ _ (get_next_Done _ _ _ Nb)).
      rewrite (bind_Done _ _ _ _ _ (get_next_Done _ _ _ Ns)).
      rewrite (IH lf' ls' (p1 ++ [a; b]) (p2 ++ [s]) h head l); auto.
      * rewrite <- app_assoc. exact E1.
      * rewrite <- app_assoc. exact E2.
      * simpl in Hls. lia.
      * simpl in Hlen. lia.
Qed.

Lemma q_delete_mid_spec fuel h head l1 x l2 :
  queue h head (l1 ++ x :: l2) ->
  length l1 = (length (l1 ++ x :: l2) / 2)%nat ->
  (length (l1 ++ x :: l2) <= fuel)%nat ->
  is_Some (values h !! x) ->
  exists h1 h',
    nxt h1 x = Some x /\ prv h1 x = Some x /\ same_blocks h h1 /\
    q_release_element x h1 = Done tt h' /\
    q_delete_mid fuel head h = Done true h' /\
    queue h' head (l1 ++ l2) /\
    links h' = delete x (links h1) /\ values h' = delete x (values h) /\
    list_del_init x h = Done tt h1.
Proof.
  intros Q Hmid Hlen Hv. set (l := l1 ++ x :: l2) in *.
  assert (ring h ((head :: l1) ++ x :: l2)) as R by exact Q.
  destruct (list_del_init_spec _ _ _ _ R ltac:(discriminate))
    as (h1 & E1 & R1 & N1 & P1 & S1 & _).
  assert (x ∉ (head :: l1) ++ l2) as Hx.
  { destruct R as (Hnd & _). apply NoDup_app in Hnd as (_ & Hd & Hnd).
    apply NoDup_cons in Hnd as [Hx2 _]. intros Hx.
    apply elem_of_app in Hx as [Hx|Hx]; [|auto]. apply (Hd x Hx). left. }
  assert (live h1 x) as L1 by (eapply nxt_live; exact N1).
  assert (is_Some (values h1 !! x)) as Hv1.
  { destruct S1 as [_ ->]. exact Hv. }
  destruct (q_release_element_spec h1 _ x R1 Hx L1 Hv1)
    as (h' & E' & R' & EL & EV).
  exists h1, h'. repeat (split; [assumption|]).
  split; [|split; [exact R'|split; [exact EL|]]].
  - unfold q_delete_mid.
    rewrite (eqb_ne head NULL) by (eapply queue_head_nonnull; exact Q).
    rewrite (bind_Done _ _ _ _ _ (list_empty_spec _ _ _ Q)).
    assert (match l with [] => true | _ => false end = false) as ->
      by (subst l; destruct l1; reflexivity).
    pose proof (ring_nxt h [] head l Q) as E. rewrite app_nil_r in E.
    rewrite !(bind_Done _ _ _ _ _ (get_next_Done _ _ _ E)).
    rewrite (bind_Done _ _ _ _ _
      (q_delete_mid_loop_spec fuel l l [] [] h head l _ _ Q eq_refl eq_refl
         (le_n _) Hlen eq_refl eq_refl)).
    rewrite <- Hmid. unfold l. rewrite drop_app_length. simpl.
    rewrite (bind_Done _ _ _ _ _ E1). rewrite (bind_Done _ _ _ _ _ E').
    reflexivity.
  - split; [|exact E1]. rewrite EV. destruct S1 as [_ ->]. reflexivity.
Qed.

(** ** q_swap *)

Lemma q_swap_loop_spec fuel : forall todo acc h head node,
  ring h (head :: acc ++ todo) -> (length todo <= fuel)%nat ->
  node = hd head todo ->
  exists h', q_swap_loop fuel head node h = Done tt h' /\
             ring h' (head :: acc ++ swap_pairs todo) /\ same_blocks h h'.
Proof.
  induction fuel as [|fuel IH]; intros todo acc h head node R Hlen ->.
  - destruct todo; [|simpl in Hlen; lia]. simpl. rewrite Z.eqb_refl.
    exists h. split; [reflexivity|]. split; [exact R|apply same_blocks_refl].
  - destruct todo as [|a [|b t]].
    + simpl. rewrite Z.eqb_refl.
      exists h. split; [reflexivity|]. split; [exact R|apply same_blocks_refl].
    + destruct (ring_step _ _ _ _ _ R) as [Ha Na]. simpl in Na.
      simpl. rewrite (eqb_ne _ _ Ha).
      rewrite (bind_Done _ _ _ _ _ (get_next_Done _ _ _ Na)).
      rewrite Z.eqb_refl.
      exists h. split; [reflexivity|]. split; [exact R|apply same_blocks_refl].
    + destruct (ring_step _ _ _ _ _ R) as [Ha Na]. simpl in Na.
      assert (ring h (head :: (acc ++ [a]) ++ b :: t)) as R'.
      { rewrite <- app_assoc. exact R. }
      destruct (ring_step _ _ _ _ _ R') as [Hb _].
      simpl q_swap_loop. rewrite (eqb_ne _ _ Ha).
      rewrite (bind_Done _ _ _ _ _ (get_next_Done _ _ _ Na)).
      rewrite (eqb_ne _ _ Hb).
      assert (ring h ((head :: acc) ++ a :: b :: t)) as R0 by exact R.
      destruct (list_del_init_spec _ _ _ _ R0 ltac:(discriminate))
        as (h1 & E1 & R1 & N1 & P1 & S1 & _).
      rewrite (bind_Done _ _ _ _ _ E1).
      assert (a ∉ (head :: acc) ++ b :: t) as Hx.
      { destruct R0 as (Hnd & _). apply NoDup_app in Hnd as (_ & Hd & Hnd).
        apply NoDup_cons in Hnd as [Hx2 _]. intros Hx.
        apply elem_of_app in Hx as [Hx|Hx]; [|auto]. apply (Hd a Hx). left. }
      assert (a <> 0) as Ha0 by (eapply ring_nonnull; [exact R0|set_solver]).
      assert (live h1 a) as L1 by (eapply nxt_live; exact N1).
      destruct (list_add_spec _ _ _ _ _ R1 Hx Ha0 L1)
        as (h2 & E2 & R2 & S2 & _).
      rewrite (bind_Done _ _ _ _ _ E2).
      assert (ring h2 (head :: (acc ++ [b]) ++ a :: t)) as R2'.
      { rewrite <- app_assoc. exact R2. }
      destruct (ring_step _ _ _ _ _ R2') as [_ Na2].
      rewrite (bind_Done _ _ _ _ _ (get_next_Done _ _ _ Na2)).
      destruct (IH t (acc ++ [b; a]) h2 head (hd head t)) as (h3 & E3 & R3 & S3).
      * rewrite <- app_assoc. exact R2.
      * simpl in Hlen. lia.
      * reflexivity.
      * exists h3. split; [exact E3|]. split.
        { rewrite <- app_assoc in R3. exact R3. }
        { eapply same_blocks_trans; [|exact S3].
          eapply same_blocks_trans; eassumption. }
Qed.

Lemma q_swap_spec fuel h head l :
  queue h head l -> (length l <= fuel)%nat ->
  exists h', q_swap fuel head h = Done tt h' /\
             queue h' head (swap_pairs l) /\ same_blocks h h'.
Proof.
  intros Q Hlen. unfold q_swap.
  rewrite (eqb_ne head NULL) by (eapply queue_head_nonnull; exact Q).
  pose proof (ring_nxt h [] head l Q) as E. rewrite app_nil_r in E.
  rewrite (bind_Done _ _ _ _ _ (get_next_Done _ _ _ E)).
  apply (q_swap_loop_spec fuel l [] h head); auto.
Qed.

(** ** Sorting: the list-level view *)

Lemma strcmp_antisym s1 : forall s2, strcmp s2 s1 = - strcmp s1 s2.
Proof.
  induction s1 as [|c1 r1 IH]; intros [|c2 r2]; simpl; try lia.
  rewrite (Z.eqb_sym (byte_of c2) (byte_of c1)).
  destruct (byte_of c1 =? byte_of c2); [apply IH|lia].
Qed.

Section Merge.
Variable key : Z -> string.

Lemma merge_lists_nil_l lb : merge_lists key [] lb = lb.
Proof. destruct lb; reflexivity. Qed.

Lemma merge_lists_nil_r la : merge_lists key la [] = la.
Proof. destruct la; reflexivity. Qed.

Lemma merge_lists_cons a la b lb :
  merge_lists key (a :: la) (b :: lb) =
  if lt_key key a b then a :: merge_lists key la (b :: lb)
  else b :: merge_lists key (a :: la) lb.
Proof. reflexivity. Qed.

Lemma merge_lists_perm la : forall lb, Permutation (la ++ lb) (merge_lists key la lb).
Proof.
  induction la as [|a la IHa]; intros lb;
    [rewrite merge_lists_nil_l; reflexivity|].
  induction lb as [|b lb IHb].
  - rewrite merge_lists_nil_r, app_nil_r. reflexivity.
  - rewrite merge_lists_cons. destruct (lt_key key a b).
    + simpl. constructor. apply IHa.
    + rewrite <- IHb. symmetry.
      apply (Permutation_middle (a :: la) lb b).
Qed.

Lemma sorted_by_cons a l : sorted_by key (a :: l) <-> le_head key a l /\ sorted_by key l.
Proof. destruct l; simpl; tauto. Qed.

Lemma merge_lists_le_head x la lb :
  le_head key x la -> le_head key x lb -> le_head key x (merge_lists key la lb).
Proof.
  destruct la as [|a la]; [rewrite merge_lists_nil_l; auto|].
  destruct lb as [|b lb]; [auto|].
  rewrite merge_lists_cons. destruct (lt_key key a b); auto.
Qed.

Lemma merge_lists_sorted la :
  forall lb, sorted_by key la -> sorted_by key lb -> sorted_by key (merge_lists key la lb).
Proof.
  induction la as [|a la IHa]; intros lb Ha;
    [rewrite merge_lists_nil_l; auto|].
  induction lb as [|b lb IHb]; intros Hb.
  - rewrite merge_lists_nil_r. exact Ha.
  - rewrite merge_lists_cons. unfold lt_key.
    apply sorted_by_cons in Ha as [Ha1 Ha2].
    apply sorted_by_cons in Hb as [Hb1 Hb2].
    destruct (strcmp (key a) (key b) <? 0) eqn:E.
    + apply Z.ltb_lt in E. apply sorted_by_cons. split.
      * apply merge_lists_le_head; [exact Ha1|simpl; lia].
      * apply IHa; [exact Ha2|]. apply sorted_by_cons. auto.
    + apply Z.ltb_ge in E. apply sorted_by_cons. split.
      * apply merge_lists_le_head; [|exact Hb1]. simpl.
        rewrite (strcmp_antisym (key a) (key b)). lia.
      * apply IHb. exact Hb2.
Qed.

(** On a tie the head of the second list comes out first. *)
Lemma merge_lists_tie a la b lb :
  strcmp (key a) (key b) = 0 ->
  merge_lists key (a :: la) (b :: lb) = b :: merge_lists key (a :: la) lb.
Proof.
  intros E. rewrite merge_lists_cons. unfold lt_key. rewrite E. reflexivity.
Qed.
End Merge.

(** ** mergeTwoLists on chains *)

Lemma lseg_cons_inv f p a l q :
  lseg f p (a :: l) q -> p = a /\ f a = Some (hd q l) /\ lseg f (hd q l) l q.
Proof.
  simpl. intros (-> & n & Hn & H). pose proof (lseg_hd _ _ _ _ H) as ->.
  auto.
Qed.

Lemma lseg_cons_intro (f : Z -> option Z) a l q :
  f a = Some (hd q l) -> lseg f (hd q l) l q -> lseg f a (a :: l) q.
Proof. simpl. eauto. Qed.

Lemma lseg_null_hd f p l :
  lseg f p l 0 -> (0 ∉ l) -> (p =? NULL) = match l with [] => true | _ => false end.
Proof.
  intros H H0. destruct l as [|a l]; simpl in H.
  - subst. reflexivity.
  - destruct H as [-> _]. apply eqb_ne. intros ->. apply H0. left.
Qed.

Lemma store_spec ptr v local h l :
  slot_free ptr h l ->
  exists h' r, store ptr v local h = Done r h' /\
    slot_holds ptr h' local r v /\
    load ptr r h' = Done v h' /\
    (forall a, off_slot ptr a -> nxt h' a = nxt h a) /\
    (forall a, prv h' a = prv h a) /\ same_blocks h h'.
Proof.
  destruct ptr as [|t]; simpl.
  - intros _. exists h, v. unfold ret.
    repeat split; auto.
  - intros [L Ht]. exists (upd_next t v h), local.
    assert (nxt (upd_next t v h) t = Some v) as E.
    { rewrite nxt_upd_next, decide_True by auto. reflexivity. }
    rewrite (bind_Done _ _ _ _ _ (set_next_Done _ _ _ L)).
    split; [reflexivity|]. split; [auto|].
    split; [apply get_next_Done, E|].
    split; [|split].
    + intros a Ha. rewrite nxt_upd_next, decide_False by auto. reflexivity.
    + intros a. apply prv_upd_next.
    + apply same_blocks_upd_next.
Qed.

Section MergeChains.
Variable key : Z -> string.

Lemma mergeTwoLists_loop_spec fuel :
  forall la lb h left right head ptr,
  lseg (nxt h) left la 0 -> lseg (nxt h) right lb 0 ->
  NoDup (la ++ lb) -> (0 ∉ la ++ lb) ->
  (forall a, a ∈ la ++ lb -> txt h a = Some (key a)) ->
  (length la + length lb <= fuel)%nat ->
  slot_free ptr h (la ++ lb) ->
  exists h' r,
    mergeTwoLists_loop fuel left right head ptr h = Done r h' /\
    slot_holds ptr h' head r (hd 0 (merge_lists key la lb)) /\
    lseg (nxt h') (hd 0 (merge_lists key la lb)) (merge_lists key la lb) 0 /\
    (forall a, a ∉ la ++ lb -> off_slot ptr a -> nxt h' a = nxt h a) /\
    (forall a, prv h' a = prv h a) /\ same_blocks h h'.
Proof.
  induction fuel as [|fuel IH];
    intros la lb h left right head ptr Hl Hr Hnd H0 Htxt Hlen Hfree.
  - destruct la; [|simpl in Hlen; lia]. destruct lb; [|simpl in Hlen; lia].
    simpl in Hl, Hr. subst left right. simpl.
    destruct (store_spec ptr 0 head h [] Hfree) as (h' & r & E & Hh & _ & F & P & S).
    exists h', r. change (Z.lor 0 0) with 0.
    rewrite (bind_Done _ _ _ _ _ E). split; [reflexivity|].
    split; [exact Hh|]. split; [reflexivity|]. auto.
  - assert ((left =? NULL) = match la with [] => true | _ => false end) as El.
    { apply (lseg_null_hd _ _ _ Hl). set_solver. }
    assert ((right =? NULL) = match lb with [] => true | _ => false end) as Er.
    { apply (lseg_null_hd _ _ _ Hr). set_solver. }
    destruct la as [|a la'].
    { simpl in Hl. subst left. simpl mergeTwoLists_loop.
      rewrite merge_lists_nil_l.
      pose proof (lseg_hd _ _ _ _ Hr) as Eh. rewrite Z.lor_0_l.
      destruct (store_spec ptr right head h lb Hfree)
        as (h' & r & E & Hh & _ & F & P & S).
      exists h', r. rewrite (bind_Done _ _ _ _ _ E). split; [reflexivity|].
      rewrite <- Eh. split; [exact Hh|]. split; [|auto].
      eapply lseg_ext; [|exact Hr]. intros x Hx. apply F.
      destruct ptr as [|t]; simpl; [exact I|]. intros ->.
      destruct Hfree as [_ Hf]. auto. }
    destruct lb as [|b lb'].
    { simpl in Hr. subst right. apply lseg_cons_inv in Hl as (-> & Hl).
      rewrite merge_lists_nil_r. rewrite app_nil_r in *.
      simpl mergeTwoLists_loop. rewrite El. cbn [orb]. rewrite Z.lor_0_r.
      destruct (store_spec ptr a head h (a :: la') Hfree)
        as (h' & r & E & Hh & _ & F & P & S).
      exists h', r. rewrite (bind_Done _ _ _ _ _ E). split; [reflexivity|].
      split; [exact Hh|]. split; [|auto].
      destruct Hl as [Hl1 Hl2].
      eapply lseg_ext; [|exact (lseg_cons_intro _ _ _ _ Hl1 Hl2)].
      intros x Hx. apply F.
      destruct ptr as [|t]; simpl; [exact I|]. intros ->.
      destruct Hfree as [_ Hf]. auto. }
    apply lseg_cons_inv in Hl as (-> & Hna & Hl).
    apply lseg_cons_inv in Hr as (-> & Hnb & Hr).
    simpl mergeTwoLists_loop. rewrite El, Er. cbn [orb].
    rewrite (bind_Done _ _ _ _ _ (get_value_Done _ _ _ (Htxt a ltac:(set_solver)))).
    rewrite (bind_Done _ _ _ _ _ (get_value_Done _ _ _ (Htxt b ltac:(set_solver)))).
    rewrite merge_lists_cons. unfold lt_key.
    destruct (strcmp (key a) (key b) <? 0) eqn:Ecmp.
    + destruct (store_spec ptr a head h _ Hfree)
        as (h1 & r1 & E1 & Hh1 & Ld1 & F1 & P1 & S1).
      rewrite (bind_Done _ _ _ _ _ E1), (bind_Done _ _ _ _ _ Ld1).
      assert (off_slot ptr a) as Hoa.
      { destruct ptr as [|t]; simpl; [exact I|]. intros ->.
        destruct Hfree as [_ Hf]. apply Hf. left. }
      assert (nxt h1 a = Some (hd 0 la')) as Hna1 by (rewrite F1; auto).
      rewrite (bind_Done _ _ _ _ _ (get_next_Done _ _ _ Hna1)).
      apply NoDup_cons in Hnd as [Ha Hnd].
      destruct (IH la' (b :: lb') h1 (hd 0 la') b r1 (NextOf a))
        as (h2 & r2 & E2 & Hh2 & C2 & F2 & P2 & S2).
      * eapply lseg_ext; [|exact Hl]. intros x Hx. apply F1.
        destruct ptr as [|t]; simpl; [exact I|]. intros ->.
        destruct Hfree as [_ Hf]. apply Hf. set_solver.
      * eapply lseg_ext; [|exact (lseg_cons_intro _ _ _ _ Hnb Hr)].
        intros x Hx. apply F1.
        destruct ptr as [|t]; simpl; [exact I|]. intros ->.
        destruct Hfree as [_ Hf]. apply Hf. set_solver.
      * exact Hnd.
      * set_solver.
      * intros x Hx. rewrite (same_blocks_txt _ _ _ S1). apply Htxt. set_solver.
      * simpl in Hlen |- *. lia.
      * simpl. split; [eapply nxt_live; exact Hna1|exact Ha].
      * simpl in Hh2. destruct Hh2 as [-> Hh2].
        exists h2, r1. split; [exact E2|]. split; [|split; [|split; [|split]]].
        { destruct ptr as [|t]; simpl in *; [exact Hh1|].
          destruct Hh1 as [-> Hh1]. split; [reflexivity|].
          destruct Hfree as [_ Hf].
          rewrite F2; [exact Hh1| |]; [|intros ->; apply Hf; left].
          intros Ht. apply Hf. set_solver. }
        { simpl hd. apply lseg_cons_intro; [|exact C2].
          rewrite Hh2. reflexivity. }
        { intros x Hx Hox. rewrite F2; [apply F1; exact Hox| |].
          - set_solver.
          - simpl. set_solver. }
        { intros x. rewrite P2. apply P1. }
        { eapply same_blocks_trans; eassumption. }
    + destruct (store_spec ptr b head h _ Hfree)
        as (h1 & r1 & E1 & Hh1 & Ld1 & F1 & P1 & S1).
      rewrite (bind_Done _ _ _ _ _ E1), (bind_Done _ _ _ _ _ Ld1).
      assert (off_slot ptr b) as Hob.
      { destruct ptr as [|t]; simpl; [exact I|]. intros ->.
        destruct Hfree as [_ Hf]. apply Hf. set_solver. }
      assert (nxt h1 b = Some (hd 0 lb')) as Hnb1 by (rewrite F1; auto).
      rewrite (bind_Done _ _ _ _ _ (get_next_Done _ _ _ Hnb1)).
      assert (NoDup ((a :: la') ++ lb') /\ b ∉ (a :: la') ++ lb') as [Hnd' Hb].
      { apply NoDup_app in Hnd as (N1 & N2 & N3).
        apply NoDup_cons in N3 as [N3 N4]. split.
        - apply NoDup_app. split; [exact N1|]. split; [|exact N4].
          intros x Hx Hx'. apply (N2 x Hx). right. exact Hx'.
        - intros Hb. apply elem_of_app in Hb as [Hb|Hb]; [|auto].
          apply (N2 b Hb). left. }
      destruct (IH (a :: la') lb' h1 a (hd 0 lb') r1 (NextOf b))
        as (h2 & r2 & E2 & Hh2 & C2 & F2 & P2 & S2).
      * eapply lseg_ext; [|exact (lseg_cons_intro _ _ _ _ Hna Hl)].
        intros x Hx. apply F1.
        destruct ptr as [|t]; simpl; [exact I|]. intros ->.
        destruct Hfree as [_ Hf]. apply Hf. set_solver.
      * eapply lseg_ext; [|exact Hr]. intros x Hx. apply F1.
        destruct ptr as [|t]; simpl; [exact I|]. intros ->.
        destruct Hfree as [_ Hf]. apply Hf. set_solver.
      * exact Hnd'.
      * set_solver.
      * intros x Hx. rewrite (same_blocks_txt _ _ _ S1). apply Htxt. set_solver.
      * simpl in Hlen |- *. lia.
      * simpl. split; [eapply nxt_live; exact Hnb1|exact Hb].
      * simpl in Hh2. destruct Hh2 as [-> Hh2].
        exists h2, r1. split; [exact E2|]. split; [|split; [|split; [|split]]].
        { destruct ptr as [|t]; simpl in *; [exact Hh1|].
          destruct Hh1 as [-> Hh1]. split; [reflexivity|].
          destruct Hfree as [_ Hf].
          rewrite F2; [exact Hh1| |]; [|intros ->; apply Hf; set_solver].
          intros Ht. apply Hf. set_solver. }
        { simpl hd. apply lseg_cons_intro; [|exact C2].
          rewrite Hh2. reflexivity. }
        { intros x Hx Hox. rewrite F2; [apply F1; exact Hox| |].
          - set_solver.
          - simpl. set_solver. }
        { intros x. rewrite P2. apply P1. }
        { eapply same_blocks_trans; eassumption. }
Qed.
End MergeChains.

(** ** mergesort on chains *)

Lemma plinks_ext h h' l :
  (forall a, prv h' a = prv h a) -> plinks h l -> plinks h' l.
Proof.
  intros E. induction l as [|a [|b t] IH]; simpl; auto.
  intros [H1 H2]. split; [rewrite E; exact H1|apply IH, H2].
Qed.

Lemma plinks_app h l1 : forall l2,
  plinks h (l1 ++ l2) ->
  plinks h l1 /\ plinks h l2 /\
  (forall a b, hd_error (rev l1) = Some a -> hd_error l2 = Some b ->
               prv h b = Some a).
Proof.
  induction l1 as [|a [|b t] IH]; intros l2 H.
  - simpl. repeat split; auto. discriminate.
  - destruct l2 as [|c l2]; simpl in *.
    + repeat split; auto. discriminate.
    + destruct H as [H1 H2]. repeat split; auto.
      intros a' b' [= <-] [= <-]. exact H1.
  - change ((a :: b :: t) ++ l2) with (a :: b :: (t ++ l2)) in H.
    destruct H as [H1 H2].
    destruct (IH l2 H2) as (I1 & I2 & I3).
    split; [split; assumption|]. split; [exact I2|].
    intros a' b' Ha' Hb'. apply I3; [|exact Hb'].
    change (rev (a :: b :: t)) with (rev (b :: t) ++ [a]) in Ha'.
    destruct (rev (b :: t)) as [|z r] eqn:E.
    + apply (f_equal (@length Z)) in E. rewrite length_rev in E. discriminate.
    + exact Ha'.
Qed.

Lemma ring_plinks h head l : forall acc,
  ring h (head :: acc ++ l) -> plinks h l.
Proof.
  induction l as [|a [|b t] IH]; intros acc R; simpl; auto.
  split.
  - assert (ring h ((head :: acc ++ [a]) ++ b :: t)) as R'.
    { simpl. rewrite <- app_assoc. exact R. }
    apply ring_prv in R'. simpl in R'. rewrite rev_unit in R'. exact R'.
  - apply (IH (acc ++ [a])). rewrite <- app_assoc. exact R.
Qed.

Lemma mergesort_split_spec fuel : forall lf ls h fast slow,
  lseg (nxt h) fast lf 0 -> lseg (nxt h) slow ls 0 -> (0 ∉ lf) ->
  (length lf <= length ls)%nat -> (length lf <= fuel)%nat ->
  mergesort_split fuel fast slow h =
  Done (hd 0 (drop (length lf / 2) ls)) h.
Proof.
  induction fuel as [|fuel IH]; intros lf ls h fast slow Hf Hs H0 Hls Hlen.
  - destruct lf; [|simpl in Hlen; lia]. simpl in Hf. subst fast. simpl.
    rewrite (lseg_hd _ _ _ _ Hs). reflexivity.
  - destruct lf as [|a [|b lf']].
    + simpl in Hf. subst fast. simpl. rewrite (lseg_hd _ _ _ _ Hs). reflexivity.
    + apply lseg_cons_inv in Hf as (-> & Hna & _). simpl in Hna.
      simpl. rewrite (eqb_ne a NULL) by (intros ->; apply H0; left).
      rewrite (bind_Done _ _ _ _ _ (get_next_Done _ _ _ Hna)).
      simpl. rewrite (lseg_hd _ _ _ _ Hs). reflexivity.
    + apply lseg_cons_inv in Hf as (-> & Hna & Hf). simpl in Hna.
      apply lseg_cons_inv in Hf as (_ & Hnb & Hf).
      destruct ls as [|s ls']; [simpl in Hls; lia|].
      apply lseg_cons_inv in Hs as (-> & Hns & Hs).
      change (length (a :: b :: lf') / 2)%nat
        with (S (S (length lf')) / 2)%nat.
      rewrite half_SS.
      simpl mergesort_split.
      rewrite (eqb_ne a NULL) by (intros ->; apply H0; left).
      rewrite (bind_Done _ _ _ _ _ (get_next_Done _ _ _ Hna)).
      rewrite (eqb_ne b NULL) by (intros ->; apply H0; right; left).
      rewrite (bind_Done _ _ _ _ _ (get_next_Done _ _ _ Hnb)).
      rewrite (bind_Done _ _ _ _ _ (get_next_Done _ _ _ Hns)).
      rewrite (IH lf' ls' h); auto.
      * set_solver.
      * simpl in Hls. lia.
      * simpl in Hlen. lia.
Qed.

Section MergeSort.
Variable key : Z -> string.

Lemma mergesort_spec fuel : forall l h head,
  lseg (nxt h) head l 0 -> NoDup l -> (0 ∉ l) ->
  (forall a, a ∈ l -> txt h a = Some (key a)) ->
  plinks h l -> (length l < fuel)%nat ->
  exists h' m,
    mergesort fuel head h = Done (hd 0 m) h' /\
    Permutation l m /\ sorted_by key m /\
    lseg (nxt h') (hd 0 m) m 0 /\
    (forall a, a ∉ l -> nxt h' a = nxt h a) /\
    (forall a, prv h' a = prv h a) /\ same_blocks h h'.
Proof.
  induction fuel as [|fuel IH]; intros l h head Hc Hnd H0 Htxt Hpl Hlen; [lia|].
  assert (head = hd 0 l) as Hhd by (apply (lseg_hd _ _ _ _ Hc)).
  destruct l as [|a [|b t]].
  - simpl in Hc. subst head. exists h, []. simpl.
    split; [reflexivity|]. split; [reflexivity|].
    repeat split; auto.
  - apply lseg_cons_inv in Hc as (-> & Hna & _). simpl in Hna.
    exists h, [a]. simpl.
    rewrite (eqb_ne a NULL) by (intros ->; apply H0; left).
    rewrite (bind_Done _ _ _ _ _ (get_next_Done _ _ _ Hna)). simpl.
    split; [reflexivity|]. split; [reflexivity|].
    split; [exact I|]. split; [eauto|]. split; [auto|].
    split; [auto|apply same_blocks_refl].
  - set (l := a :: b :: t) in *.
    set (k := (length l / 2)%nat).
    assert (1 <= k < length l)%nat as Hk.
    { unfold k, l. simpl length. rewrite half_SS.
      pose proof (Nat.Div0.div_le_upper_bound (length t) 2 (length t)). lia. }
    pose proof (take_drop k l) as Esplit.
    remember (take k l) as l1 eqn:Dl1. remember (drop k l) as l2 eqn:Dl2.
    assert (length l1 = k) as Hl1 by (subst l1; rewrite length_take; lia).
    assert (length l2 = (length l - k)%nat) as Hl2
      by (subst l2; apply length_drop).
    destruct l2 as [|s l2'];
      [exfalso; change (length (@nil Z)) with O in Hl2; lia|].
    destruct (rev l1) as [|q r1] eqn:Erev.
    { apply (f_equal (@length Z)) in Erev. rewrite length_rev in Erev.
      simpl in Erev. lia. }
    assert (l1 = rev r1 ++ [q]) as El1.
    { rewrite <- (rev_involutive l1), Erev. reflexivity. }
    pose proof Hc as Hc'. rewrite <- Esplit in Hc'.
    apply lseg_app in Hc' as (mid & Hc1 & Hc2).
    pose proof (lseg_hd _ _ _ _ Hc2) as Emid. simpl in Emid. subst mid.
    rewrite <- Esplit in Hnd, Hpl.
    pose proof Hnd as Hnd'. apply NoDup_app in Hnd' as (Hnd1 & Hdisj & Hnd2).
    destruct (plinks_app _ _ _ Hpl) as (Hpl1 & Hpl2 & Hpm).
    assert (prv h s = Some q) as Hps.
    { apply Hpm; [rewrite Erev|]; reflexivity. }
    assert (live h q) as Lq.
    { rewrite El1 in Hc1. apply lseg_snoc in Hc1 as [_ Hq].
      eapply nxt_live. exact Hq. }
    assert (q ∈ l1) as Hq1 by (rewrite El1; set_solver).
    (* the code *)
    assert ((head =? NULL) = false) as Eh0.
    { apply eqb_ne. subst head. simpl. intros ->. apply H0. left. }
    apply lseg_cons_inv in Hc as (_ & Hna & Hc). simpl in Hna.
    assert ((b =? NULL) = false) as Eb0.
    { apply eqb_ne. intros ->. apply H0. right. left. }
    simpl in Hhd. subst head.
    simpl mergesort. rewrite Eh0.
    rewrite (bind_Done _ _ _ _ _ (get_next_Done _ _ _ Hna)). rewrite Eb0.
    assert (lseg (nxt h) a l 0) as Hcl.
    { apply (lseg_cons_intro _ a (b :: t) 0 Hna Hc). }
    rewrite (bind_Done _ _ _ _ _
      (mergesort_split_spec fuel l l h a a Hcl Hcl H0 (le_n _) ltac:(lia))).
    fold k. rewrite <- Dl2. simpl hd.
    rewrite (bind_Done _ _ _ _ _ (get_prev_Done _ _ _ Hps)).
    rewrite (bind_Done _ _ _ _ _ (set_next_Done _ _ NULL Lq)).
    set (h1 := upd_next q NULL h).
    assert (forall x, x <> q -> nxt h1 x = nxt h x) as F1.
    { intros x Hx. unfold h1. rewrite nxt_upd_next, decide_False by auto.
      reflexivity. }
    assert (lseg (nxt h1) a l1 0) as C1.
    { rewrite El1 in Hc1 |- *. apply lseg_snoc in Hc1 as [Hc1 Hq].
      apply lseg_snoc. split.
      - eapply lseg_ext; [|exact Hc1]. intros x Hx. apply F1. intros ->.
        rewrite El1 in Hnd1. apply NoDup_app in Hnd1 as (_ & Hd & _).
        apply (Hd q Hx). left.
      - unfold h1. rewrite nxt_upd_next, decide_True by auto. reflexivity. }
    assert (lseg (nxt h1) s (s :: l2') 0) as C2.
    { eapply lseg_ext; [|exact Hc2]. intros x Hx. apply F1. intros ->.
      apply (Hdisj q Hq1 Hx). }
    assert (forall x, txt h1 x = txt h x) as T1 by reflexivity.
    assert (forall x, prv h1 x = prv h x) as P1
      by (intros x; apply prv_upd_next).
    destruct (IH l1 h1 a C1 Hnd1) as (h2 & m1 & E2 & Pm1 & Sm1 & Cm1 & F2 & P2 & S2).
    { rewrite <- Esplit in H0. set_solver. }
    { intros x Hx. rewrite T1. apply Htxt. rewrite <- Esplit. set_solver. }
    { eapply plinks_ext; [exact P1|exact Hpl1]. }
    { lia. }
    rewrite (bind_Done _ _ _ _ _ E2).
    destruct (IH (s :: l2') h2 s) as (h3 & m2 & E3 & Pm2 & Sm2 & Cm2 & F3 & P3 & S3).
    { eapply lseg_ext; [|exact C2]. intros x Hx. apply F2. intros Hx1.
      apply (Hdisj x Hx1 Hx). }
    { exact Hnd2. }
    { rewrite <- Esplit in H0. set_solver. }
    { intros x Hx. rewrite (same_blocks_txt _ _ _ S2), T1. apply Htxt.
      rewrite <- Esplit. set_solver. }
    { eapply plinks_ext; [|exact Hpl2]. intros x. rewrite P2. apply P1. }
    { rewrite Hl2. lia. }
    rewrite (bind_Done _ _ _ _ _ E3).
    assert (forall x, x ∈ m1 <-> x ∈ l1) as M1 by (intros x; rewrite Pm1; reflexivity).
    assert (forall x, x ∈ m2 <-> x ∈ s :: l2') as M2
      by (intros x; rewrite Pm2; reflexivity).
    destruct (mergeTwoLists_loop_spec key fuel m1 m2 h3 (hd 0 m1) (hd 0 m2)
                NULL LocalHead) as (h4 & r & E4 & Hh4 & C4 & F4 & P4 & S4).
    { eapply lseg_ext; [|exact Cm1]. intros x Hx. apply F3. intros Hx2.
      apply M1 in Hx. apply (Hdisj x Hx Hx2). }
    { exact Cm2. }
    { rewrite <- Pm1, <- Pm2. exact Hnd. }
    { rewrite <- Pm1, <- Pm2, Esplit. exact H0. }
    { intros x Hx. rewrite (same_blocks_txt _ _ _ S3), (same_blocks_txt _ _ _ S2), T1.
      apply Htxt. rewrite <- Esplit. rewrite <- Pm1, <- Pm2 in Hx. exact Hx. }
    { rewrite <- Pm1, <- Pm2, Hl1, Hl2. lia. }
    { exact I. }
    simpl in Hh4. subst r.
    exists h4, (merge_lists key m1 m2). split; [exact E4|].
    split; [|split; [|split; [exact C4|split; [|split]]]].
    + rewrite <- Esplit, Pm1, Pm2. apply merge_lists_perm.
    + apply merge_lists_sorted; assumption.
    + intros x Hx. rewrite <- Esplit in Hx.
      rewrite F4; [|rewrite <- Pm1, <- Pm2; exact Hx|exact I].
      rewrite F3 by set_solver. rewrite F2 by set_solver.
      apply F1. intros ->. apply Hx. set_solver.
    + intros x. rewrite P4, P3, P2. apply P1.
    + eapply same_blocks_trans; [|exact S4].
      eapply same_blocks_trans; [|exact S3].
      eapply same_blocks_trans; [|exact S2]. apply same_blocks_upd_next.
Qed.
End MergeSort.

(** ** q_sort *)

Lemma slot_at_load ptr h head cur :
  slot_at ptr h head cur -> load ptr head h = Done cur h.
Proof.
  destruct ptr as [|t]; simpl.
  - intros ->. reflexivity.
  - intros [H _]. apply get_next_Done, H.
Qed.

Lemma slot_at_ext ptr h h' head cur :
  (forall a, nxt h' a = nxt h a) -> slot_at ptr h head cur ->
  slot_at ptr h' head cur.
Proof. intros E. destruct ptr; simpl; [auto|]. rewrite E. auto. Qed.

Lemma hd_rev_cons (d x : Z) (l : list Z) : hd d (rev (x :: l)) = hd x (rev l).
Proof. simpl. destruct (rev l); reflexivity. Qed.

Lemma q_sort_relink_spec fuel : forall rest cur ptr h head,
  slot_at ptr h head cur ->
  nxt h cur = Some (hd 0 rest) -> lseg (nxt h) (hd 0 rest) rest 0 ->
  NoDup (cur :: rest) -> (0 ∉ rest) -> (length rest <= fuel)%nat ->
  exists h' ptr',
    q_sort_relink fuel head ptr h = Done ptr' h' /\
    slot_at ptr' h' head (hd cur (rev rest)) /\
    (forall a, nxt h' a = nxt h a) /\
    lseg (prv h') (hd cur (rev rest)) (rev rest) cur /\
    (forall a, a ∉ rest -> prv h' a = prv h a) /\ same_blocks h h'.
Proof.
  induction fuel as [|fuel IH]; intros rest cur ptr h head Hs Hn Hc Hnd H0 Hlen.
  - destruct rest; [|simpl in Hlen; lia]. simpl in *.
    exists h, ptr. rewrite (bind_Done _ _ _ _ _ (slot_at_load _ _ _ _ Hs)).
    rewrite (bind_Done _ _ _ _ _ (get_next_Done _ _ _ Hn)). simpl.
    split; [reflexivity|]. repeat split; auto.
  - destruct rest as [|n rest'].
    + simpl in *.
      exists h, ptr. rewrite (bind_Done _ _ _ _ _ (slot_at_load _ _ _ _ Hs)).
      rewrite (bind_Done _ _ _ _ _ (get_next_Done _ _ _ Hn)). simpl.
      split; [reflexivity|]. repeat split; auto.
    + simpl in Hn. apply lseg_cons_inv in Hc as (_ & Hnn & Hc).
      assert (n <> 0) as Hn0 by (intros ->; apply H0; left).
      assert (live h n) as Ln by (eapply nxt_live; exact Hnn).
      assert (cur <> n) as Hcn.
      { apply NoDup_cons in Hnd as [Hnd _]. intros ->. apply Hnd. left. }
      simpl q_sort_relink.
      rewrite (bind_Done _ _ _ _ _ (slot_at_load _ _ _ _ Hs)).
      rewrite (bind_Done _ _ _ _ _ (get_next_Done _ _ _ Hn)).
      rewrite (eqb_ne n NULL Hn0).
      rewrite (bind_Done _ _ _ _ _ (set_prev_Done _ _ cur Ln)).
      set (h1 := upd_prev n cur h).
      assert (forall a, nxt h1 a = nxt h a) as N1 by (intros a; apply nxt_upd_prev).
      rewrite (bind_Done _ _ _ _ _
                 (slot_at_load _ _ _ _ (slot_at_ext _ _ _ _ _ N1 Hs))).
      apply NoDup_cons in Hnd as [Hcr Hnd].
      destruct (IH rest' n (NextOf cur) h1 head) as (h' & ptr' & E & Hs' & N' & C' & F' & S').
      * simpl. rewrite N1. auto.
      * rewrite N1. exact Hnn.
      * eapply lseg_ext; [|exact Hc]. intros a _. apply N1.
      * exact Hnd.
      * set_solver.
      * simpl in Hlen. lia.
      * exists h', ptr'. split; [exact E|].
        rewrite hd_rev_cons. split; [exact Hs'|].
        split; [intros a; rewrite N'; apply N1|].
        split; [|split].
        { simpl rev. apply lseg_snoc. split; [exact C'|].
          apply NoDup_cons in Hnd as [Hn' _].
          rewrite F' by exact Hn'. unfold h1.
          rewrite prv_upd_prev, decide_True by auto. reflexivity. }
        { intros a Ha. rewrite F' by set_solver. unfold h1.
          rewrite prv_upd_prev, decide_False by set_solver. reflexivity. }
        { eapply same_blocks_trans; [apply same_blocks_upd_prev|exact S']. }
Qed.

Lemma q_sort_empty fuel h head : queue h head [] -> q_sort fuel head h = Done tt h.
Proof.
  intros Q. unfold q_sort.
  rewrite (eqb_ne head NULL) by (eapply queue_head_nonnull; exact Q).
  rewrite (bind_Done _ _ _ _ _ (list_empty_spec _ _ _ Q)). reflexivity.
Qed.

Lemma list_is_singular_spec h head l :
  queue h head l ->
  list_is_singular head h =
  Done (match l with [_] => true | _ => false end) h.
Proof.
  intros Q. unfold list_is_singular.
  rewrite (bind_Done _ _ _ _ _ (list_empty_spec _ _ _ Q)).
  destruct l as [|x t]; [reflexivity|].
  pose proof (ring_prv h [] head (x :: t) Q) as Hp.
  pose proof (ring_nxt h [] head (x :: t) Q) as Hn.
  rewrite app_nil_r in Hn. simpl hd in Hn.
  change (rev [] ++ rev (x :: t)) with (rev (x :: t)) in Hp.
  rewrite hd_rev_cons in Hp.
  rewrite (bind_Done _ _ _ _ _ (get_prev_Done _ _ _ Hp)).
  rewrite (bind_Done _ _ _ _ _ (get_next_Done _ _ _ Hn)).
  unfold ret. f_equal. destruct t as [|y t]; [apply Z.eqb_refl|].
  apply eqb_ne. destruct Q as (Hnd & _).
  apply NoDup_cons in Hnd as [_ Hnd]. apply NoDup_cons in Hnd as [Hx _].
  intros E. apply Hx. rewrite <- E.
  apply (proj1 (elem_of_rev _ (y :: t))).
  apply hd_elem. apply rev_nonempty. discriminate.
Qed.

Lemma q_sort_single fuel h head x :
  queue h head [x] -> q_sort fuel head h = Done tt h.
Proof.
  intros Q. unfold q_sort.
  rewrite (eqb_ne head NULL) by (eapply queue_head_nonnull; exact Q).
  rewrite (bind_Done _ _ _ _ _ (list_empty_spec _ _ _ Q)).
  rewrite (bind_Done _ _ _ _ _ (list_is_singular_spec _ _ _ Q)). reflexivity.
Qed.

Lemma rev_cons_split (l : list Z) (d : Z) :
  l <> [] -> exists r, rev l = hd d (rev l) :: r /\ l = rev r ++ [hd d (rev l)].
Proof.
  intros H. destruct (rev l) as [|z r] eqn:E.
  - exfalso. apply (rev_nonempty _ H). exact E.
  - exists r. split; [reflexivity|]. simpl.
    rewrite <- (rev_involutive l), E. reflexivity.
Qed.

Section Sort.
Variable key : Z -> string.

Lemma q_sort_spec fuel h head l :
  queue h head l -> (forall a, a ∈ l -> txt h a = Some (key a)) ->
  (length l < fuel)%nat ->
  exists h' m, q_sort fuel head h = Done tt h' /\ queue h' head m /\
               Permutation l m /\ sorted_by key m /\ same_blocks h h'.
Proof.
  intros Q Htxt Hlen.
  destruct l as [|x [|y t]].
  - exists h, []. rewrite (q_sort_empty _ _ _ Q).
    split; [reflexivity|]. split; [exact Q|]. split; [reflexivity|].
    split; [exact I|apply same_blocks_refl].
  - exists h, [x]. rewrite (q_sort_single _ _ _ _ Q).
    split; [reflexivity|]. split; [exact Q|]. split; [reflexivity|].
    split; [exact I|apply same_blocks_refl].
  - set (l := x :: y :: t) in *.
    assert (l <> []) as Hl by discriminate.
    pose proof (queue_head_nonnull _ _ _ Q) as Hh0.
    pose proof (queue_head_notin _ _ _ Q) as Hhl.
    pose proof Q as (Hnd & H0 & Cn & Cp).
    apply NoDup_cons in Hnd as [_ Hndl].
    assert (0 ∉ l) as H0l by set_solver.
    pose proof (ring_prv h [] head l Q) as Hp.
    change (rev [] ++ rev l) with (rev l) in Hp.
    destruct (rev_cons_split l head Hl) as (r & Er & El).
    set (tl_ := hd head (rev l)) in *.
    assert (tl_ ∈ l) as Htl by (rewrite El; set_solver).
    assert (tl_ <> head) as Hth by (intros E; apply Hhl; rewrite <- E; exact Htl).
    assert (live h tl_) as Ltl by (eapply ring_live; [exact Q|set_solver]).
    pose proof (ring_nxt h [] head l Q) as Hn.
    rewrite app_nil_r in Hn. change (hd head l) with x in Hn.
    set (h1 := upd_next tl_ NULL h).
    assert (forall a, a <> tl_ -> nxt h1 a = nxt h a) as N1.
    { intros a Ha. unfold h1. rewrite nxt_upd_next, decide_False by auto.
      reflexivity. }
    assert (forall a, prv h1 a = prv h a) as P1 by (intros a; apply prv_upd_next).
    assert (lseg (nxt h1) x l 0) as C1.
    { apply cycle_cons in Cn as (n & Hn' & Cn).
      assert (n = x) as -> by congruence.
      rewrite El in Cn |- *. apply lseg_snoc in Cn as [Cn Ht].
      apply lseg_snoc. split.
      - eapply lseg_ext; [|exact Cn]. intros a Ha. apply N1. intros ->.
        rewrite El in Hndl. apply NoDup_app in Hndl as (_ & Hd & _).
        apply (Hd tl_ Ha). left.
      - unfold h1. rewrite nxt_upd_next, decide_True by auto. reflexivity. }
    destruct (mergesort_spec key fuel l h1 x C1 Hndl H0l)
      as (h2 & m & E2 & Pm & Sm & Cm & F2 & P2 & S2).
    { exact Htxt. }
    { eapply plinks_ext; [exact P1|]. apply (ring_plinks h head l []). exact Q. }
    { exact Hlen. }
    assert (forall a, a ∈ m <-> a ∈ l) as Mm by (intros a; rewrite Pm; reflexivity).
    assert (m <> []) as Hm.
    { intros ->. apply Permutation_nil_r in Pm. auto. }
    assert (same_blocks h h2) as S02.
    { eapply same_blocks_trans; [apply same_blocks_upd_next|exact S2]. }
    assert (live h2 head) as Lh2.
    { apply (same_blocks_live _ _ _ S02). eapply ring_live; [exact Q|left]. }
    set (h3 := upd_next head (hd 0 m) h2).
    assert (forall a, nxt h3 a =
              if decide (a = head) then Some (hd 0 m) else nxt h2 a) as N3.
    { intros a. unfold h3. apply nxt_upd_next. exact Lh2. }
    assert (head ∉ m) as Hhm by (rewrite Mm; exact Hhl).
    destruct (q_sort_relink_spec fuel m head LocalHead h3 head)
      as (h4 & ptr & E4 & Hs4 & N4 & C4 & F4 & S4).
    { reflexivity. }
    { rewrite N3, decide_True by auto. reflexivity. }
    { eapply lseg_ext; [|exact Cm]. intros a Ha.
      rewrite N3, decide_False; [reflexivity|]. intros ->. auto. }
    { apply NoDup_cons. split; [exact Hhm|]. rewrite <- Pm. exact Hndl. }
    { rewrite Mm. exact H0l. }
    { rewrite <- Pm. lia. }
    destruct (rev_cons_split m head Hm) as (r' & Er' & Em).
    set (last := hd head (rev m)) in *.
    assert (last ∈ m) as Hlast by (rewrite Em; set_solver).
    assert (last <> head) as Hlh by (intros E; apply Hhm; rewrite <- E; exact Hlast).
    assert (same_blocks h h4) as S04.
    { eapply same_blocks_trans; [exact S02|].
      eapply same_blocks_trans; [apply same_blocks_upd_next|exact S4]. }
    assert (live h4 last) as Ll4.
    { apply (same_blocks_live _ _ _ S04).
      eapply ring_live; [exact Q|]. right. apply Mm. exact Hlast. }
    set (h5 := upd_next last head h4).
    assert (forall a, nxt h5 a =
              if decide (a = last) then Some head else nxt h4 a) as N5.
    { intros a. unfold h5. apply nxt_upd_next. exact Ll4. }
    assert (slot_at ptr h5 head last) as Hs5.
    { destruct ptr as [|t']; simpl in *; [exact Hs4|].
      destruct Hs4 as [Hs4 Ht']. split; [|exact Ht'].
      rewrite N5, decide_False by exact Ht'. exact Hs4. }
    assert (live h5 head) as Lh5.
    { unfold h5. apply live_upd_next. apply (same_blocks_live _ _ _ S04).
      eapply ring_live; [exact Q|left]. }
    set (h6 := upd_prev head last h5).
    exists h6, m. split; [|split; [|split; [exact Pm|split; [exact Sm|]]]].
    + unfold q_sort. rewrite (eqb_ne head NULL Hh0).
      rewrite (bind_Done _ _ _ _ _ (list_empty_spec _ _ _ Q)).
      rewrite (bind_Done _ _ _ _ _ (list_is_singular_spec _ _ _ Q)).
      rewrite (bind_Done _ _ _ _ _ (get_prev_Done _ _ _ Hp)).
      rewrite (bind_Done _ _ _ _ _ (set_next_Done _ _ NULL Ltl)).
      fold h1.
      rewrite (bind_Done _ _ _ _ _ (get_next_Done h1 head x
                 ltac:(rewrite N1 by auto; exact Hn))).
      rewrite (bind_Done _ _ _ _ _ E2).
      rewrite (bind_Done _ _ _ _ _ (set_next_Done _ _ (hd 0 m) Lh2)).
      fold h3. rewrite (bind_Done _ _ _ _ _ E4).
      rewrite (bind_Done _ _ _ _ _ (slot_at_load _ _ _ _ Hs4)).
      rewrite (bind_Done _ _ _ _ _ (set_next_Done _ _ head Ll4)).
      fold h5. rewrite (bind_Done _ _ _ _ _ (slot_at_load _ _ _ _ Hs5)).
      rewrite (set_prev_Done _ _ last Lh5). reflexivity.
    + assert (forall a, nxt h6 a = nxt h5 a) as N6
        by (intros a; apply nxt_upd_prev).
      assert (forall a, prv h6 a =
                if decide (a = head) then Some last else prv h4 a) as P6.
      { intros a. unfold h6. rewrite prv_upd_prev by exact Lh5.
        case_decide; [reflexivity|]. unfold h5. apply prv_upd_next. }
      assert (NoDup m) as Hndm by (rewrite <- Pm; exact Hndl).
      split; [|split; [|split]].
      * apply NoDup_cons. split; [exact Hhm|exact Hndm].
      * intros H. apply elem_of_cons in H as [H|H]; [auto|].
        apply H0l. apply Mm. exact H.
      * apply cycle_cons. exists (hd 0 m). split.
        { rewrite N6, N5, decide_False by auto.
          rewrite N4, N3, decide_True by auto. reflexivity. }
        { rewrite Em in Cm, Hndm |- *.
          apply lseg_snoc in Cm as [Cm Hl0].
          apply lseg_snoc. split.
          - eapply lseg_ext; [|exact Cm]. intros a Ha.
            assert (a <> last) as Hal.
            { intros ->. apply NoDup_app in Hndm as (_ & Hd & _).
              apply (Hd last Ha). left. }
            assert (a <> head) as Hah.
            { intros ->. apply Hhm. rewrite Em. set_solver. }
            rewrite N6, N5, decide_False by exact Hal.
            rewrite N4, N3, decide_False by exact Hah. reflexivity.
          - rewrite N6, N5, decide_True by auto. reflexivity. }
      * simpl rev. apply cycle_rot1. apply cycle_cons. exists last. split.
        { rewrite P6, decide_True by auto. reflexivity. }
        { eapply lseg_ext; [|exact C4]. intros a Ha.
          rewrite P6, decide_False; [reflexivity|].
          intros ->. apply Hhm. apply elem_of_rev. exact Ha. }
    + eapply same_blocks_trans; [exact S04|].
      eapply same_blocks_trans; [apply same_blocks_upd_next|].
      apply same_blocks_upd_prev.
Qed.
End Sort.

(** ** q_delete_dup *)

Section DeleteDup.
Variable key : Z -> string.

Lemma drop_dups_subset l a : a ∈ drop_dups key l -> a ∈ l.
Proof.
  induction l as [|x [|y t] IH]; simpl; [auto|auto|].
  destruct (strcmp (key x) (key y) =? 0); intros H.
  - right. apply IH. exact H.
  - apply elem_of_cons in H as [->|H]; [left|right; apply IH; exact H].
Qed.

Lemma same_blocks_dead h h' x :
  same_blocks h h' -> links h !! x = None -> links h' !! x = None.
Proof.
  intros [D _] H. apply not_elem_of_dom. rewrite D.
  apply not_elem_of_dom. exact H.
Qed.

Lemma q_delete_dup_step h head acc a b t :
  ring h (head :: acc ++ a :: b :: t) ->
  txt h a = Some (key a) -> txt h b = Some (key b) ->
  exists h2,
    (vs <- get_value a ;;
     vf <- get_value b ;;
     if strcmp vs vf =? 0
     then list_del_init a ;; q_release_element a
     else ret tt) h = Done tt h2 /\
    if strcmp (key a) (key b) =? 0
    then ring h2 (head :: acc ++ b :: t) /\
         links h2 !! a = None /\ values h2 = delete a (values h) /\
         (forall x, links h !! x = None -> links h2 !! x = None)
    else h2 = h.
Proof.
  intros R Ta Tb.
  rewrite (bind_Done _ _ _ _ _ (get_value_Done _ _ _ Ta)).
  rewrite (bind_Done _ _ _ _ _ (get_value_Done _ _ _ Tb)).
  destruct (strcmp (key a) (key b) =? 0); [|exists h; auto].
  assert (ring h ((head :: acc) ++ a :: b :: t)) as R0 by exact R.
  destruct (list_del_init_spec _ _ _ _ R0 ltac:(discriminate))
    as (h1 & E1 & R1 & N1 & P1 & S1 & _).
  assert (a ∉ (head :: acc) ++ b :: t) as Hx.
  { destruct R0 as (Hnd & _). apply NoDup_app in Hnd as (_ & Hd & Hnd).
    apply NoDup_cons in Hnd as [Hx2 _]. intros Hx.
    apply elem_of_app in Hx as [Hx|Hx]; [|auto]. apply (Hd a Hx). left. }
  assert (live h1 a) as L1 by (eapply nxt_live; exact N1).
  assert (is_Some (values h1 !! a)) as Hv1.
  { destruct S1 as [_ ->]. eapply txt_values. exact Ta. }
  destruct (q_release_element_spec h1 _ a R1 Hx L1 Hv1)
    as (h2 & E2 & R2 & EL & EV).
  exists h2. rewrite (bind_Done _ _ _ _ _ E1). split; [exact E2|].
  split; [exact R2|]. split; [|split].
  - rewrite EL. apply lookup_delete_eq.
  - rewrite EV. destruct S1 as [_ ->]. reflexivity.
  - intros x Hd. rewrite EL. apply lookup_delete_None. right.
    eapply same_blocks_dead; eassumption.
Qed.

Lemma q_delete_dup_loop_spec fuel : forall todo acc h head slow fast,
  ring h (head :: acc ++ todo) ->
  (forall a, a ∈ todo -> txt h a = Some (key a)) ->
  (length todo <= fuel)%nat ->
  slow = hd head todo -> (todo <> [] -> fast = hd head (tl todo)) ->
  exists h', q_delete_dup_loop fuel head slow fast h = Done tt h' /\
    ring h' (head :: acc ++ drop_dups key todo) /\
    (forall a, a ∈ head :: acc ++ drop_dups key todo ->
               values h' !! a = values h !! a) /\
    (forall a, a ∈ todo -> a ∉ drop_dups key todo ->
               links h' !! a = None /\ values h' !! a = None) /\
    (forall a, links h !! a = None -> links h' !! a = None) /\
    (forall a, values h !! a = None -> values h' !! a = None).
Proof.
  induction fuel as [|fuel IH];
    intros todo acc h head slow fast R Htxt Hlen -> Hfast.
  - destruct todo; [|simpl in Hlen; lia]. simpl. rewrite Z.eqb_refl.
    exists h. split; [reflexivity|]. split; [exact R|].
    split; [auto|]. split; [|auto]. intros a Ha. inversion Ha.
  - destruct todo as [|a t].
    { simpl. rewrite Z.eqb_refl.
      exists h. split; [reflexivity|]. split; [exact R|].
      split; [auto|]. split; [|auto]. intros a Ha. inversion Ha. }
    specialize (Hfast ltac:(discriminate)). simpl in Hfast. subst fast.
    destruct (ring_step _ _ _ _ _ R) as [Ha Na].
    simpl q_delete_dup_loop. rewrite (eqb_ne _ _ Ha).
    rewrite (bind_Done _ _ _ _ _ (get_next_Done _ _ _ Na)).
    destruct t as [|b t'].
    + simpl hd. rewrite Z.eqb_refl.
      pose proof (ring_nxt h [] head _ R) as Nh.
      unfold bind at 1. unfold ret at 1.
      rewrite (bind_Done _ _ _ _ _ (get_next_Done _ _ _ Nh)).
      destruct fuel; simpl; rewrite Z.eqb_refl;
        (exists h; split; [reflexivity|]; split; [exact R|];
         split; [auto|]; split; [|auto];
         intros x Hx Hx'; exfalso; apply Hx'; exact Hx).
    + assert (ring h (head :: (acc ++ [a]) ++ b :: t')) as R'.
      { rewrite <- app_assoc. exact R. }
      destruct (ring_step _ _ _ _ _ R') as [Hb Nb].
      simpl hd. rewrite (eqb_ne _ _ Hb).
      destruct (q_delete_dup_step h head acc a b t' R
                  (Htxt a ltac:(set_solver)) (Htxt b ltac:(set_solver)))
        as (h2 & E2 & Hstep).
      rewrite (bind_Done _ _ _ _ _ E2).
      assert (a ∉ head :: acc ++ b :: t') as Hax.
      { destruct R as (Hnd & _). rewrite app_comm_cons in Hnd.
        apply NoDup_app in Hnd as (_ & Hd & Hnd).
        apply NoDup_cons in Hnd as [Hx2 _]. intros Hx.
        rewrite app_comm_cons in Hx.
        apply elem_of_app in Hx as [Hx|Hx]; [|auto]. apply (Hd a Hx). left. }
      change (drop_dups key (a :: b :: t')) with
        (if strcmp (key a) (key b) =? 0 then drop_dups key (b :: t')
         else a :: drop_dups key (b :: t')).
      destruct (strcmp (key a) (key b) =? 0).
      * destruct Hstep as (R2 & L2 & V2 & A2).
        assert (ring h2 (head :: (acc ++ [b]) ++ t')) as R2'.
        { rewrite <- app_assoc. exact R2. }
        pose proof (ring_nxt h2 (head :: acc) b t' R2) as Nb2.
        assert (nxt h2 b = Some (hd head t')) as Nb2'.
        { rewrite Nb2. destruct t'; reflexivity. }
        rewrite (bind_Done _ _ _ _ _ (get_next_Done _ _ _ Nb2')).
        destruct (IH (b :: t') acc h2 head b (hd head t') R2)
          as (h3 & E3 & R3 & V3 & D3 & AL3 & AV3); auto.
        { intros x Hx. rewrite (txt_delete h h2 a x V2).
          - apply Htxt. right. exact Hx.
          - intros ->. apply Hax. set_solver. }
        { simpl in Hlen |- *. lia. }
        exists h3. split; [exact E3|]. split; [exact R3|]. split.
        { intros x Hx. rewrite V3 by exact Hx. rewrite V2.
          apply lookup_delete_ne. intros <-. apply Hax.
          apply elem_of_cons in Hx as [->|Hx]; [left|right].
          apply elem_of_app in Hx as [Hx|Hx]; [set_solver|].
          apply drop_dups_subset in Hx. set_solver. }
        split; [|split].
        { intros x Hx Hx'. apply elem_of_cons in Hx as [->|Hx].
          - split; [apply AL3, L2|]. apply AV3. rewrite V2.
            apply lookup_delete_eq.
          - apply D3; assumption. }
        { intros x Hx. apply AL3, A2, Hx. }
        { intros x Hx. apply AV3. rewrite V2. apply lookup_delete_None.
          right. exact Hx. }
      * subst h2.
        rewrite (bind_Done _ _ _ _ _ (get_next_Done _ _ _ Nb)).
        destruct (IH (b :: t') (acc ++ [a]) h head b (hd head t') R')
          as (h3 & E3 & R3 & V3 & D3 & AL3 & AV3); auto.
        { intros x Hx. apply Htxt. right. exact Hx. }
        { simpl in Hlen |- *. lia. }
        rewrite <- app_assoc in R3, V3.
        exists h3. split; [exact E3|]. split; [exact R3|]. split.
        { exact V3. }
        split; [|split; assumption].
        { intros x Hx Hx'. apply elem_of_cons in Hx as [->|Hx].
          - exfalso. apply Hx'. left.
          - apply D3; [exact Hx|]. intros H. apply Hx'. right. exact H. }
Qed.
End DeleteDup.

Section DeleteDupTop.
Variable key : Z -> string.

Lemma q_delete_dup_spec fuel h head l :
  queue h head l -> (forall a, a ∈ l -> txt h a = Some (key a)) ->
  (length l < fuel)%nat ->
  exists h' m, q_delete_dup fuel head h = Done true h' /\
               Permutation l m /\ sorted_by key m /\
               queue h' head (drop_dups key m) /\
               (forall a, a ∈ drop_dups key m -> txt h' a = Some (key a)).
Proof.
  intros Q Htxt Hlen.
  destruct (q_sort_spec key fuel h head l Q Htxt Hlen)
    as (h1 & m & E1 & Q1 & Pm & Sm & S1).
  assert (forall a, a ∈ m -> txt h1 a = Some (key a)) as Htxt1.
  { intros a Ha. rewrite (same_blocks_txt _ _ _ S1). apply Htxt.
    rewrite Pm. exact Ha. }
  pose proof (ring_nxt h1 [] head m Q1) as Nh. rewrite app_nil_r in Nh.
  assert (exists f, nxt h1 (hd head m) = Some f /\
                    (m <> [] -> f = hd head (tl m))) as (f & Nf & Hf).
  { destruct m as [|x t]; simpl.
    - exists head. split; [exact Nh|congruence].
    - pose proof (ring_nxt h1 [head] x t Q1) as Nx.
      eexists. split; [exact Nx|]. intros _. destruct t; reflexivity. }
  destruct (q_delete_dup_loop_spec key fuel m [] h1 head (hd head m) f Q1 Htxt1)
    as (h2 & E2 & R2 & V2 & _); auto.
  { rewrite <- Pm. lia. }
  exists h2, m. unfold q_delete_dup.
  rewrite (eqb_ne head NULL) by (eapply queue_head_nonnull; exact Q).
  rewrite (bind_Done _ _ _ _ _ E1).
  rewrite (bind_Done _ _ _ _ _ (get_next_Done _ _ _ Nh)).
  rewrite (bind_Done _ _ _ _ _ (get_next_Done _ _ _ Nf)).
  rewrite (bind_Done _ _ _ _ _ E2).
  split; [reflexivity|]. split; [exact Pm|]. split; [exact Sm|].
  split; [exact R2|].
  intros a Ha. unfold txt. rewrite V2 by (right; exact Ha).
  apply Htxt1. eapply drop_dups_subset. exact Ha.
Qed.
End DeleteDupTop.

Lemma q_texts_loop_spec key fuel : forall todo acc h head li,
  ring h (head :: acc ++ todo) ->
  (forall a, a ∈ todo -> txt h a = Some (key a)) ->
  (length todo <= fuel)%nat -> li = hd head todo ->
  q_texts_loop fuel head li h = Done (map key todo) h.
Proof.
  induction fuel as [|fuel IH]; intros todo acc h head li R Htxt Hlen ->.
  - destruct todo; [|simpl in Hlen; lia]. simpl.
    rewrite Z.eqb_refl. reflexivity.
  - destruct todo as [|x t]; simpl.
    + rewrite Z.eqb_refl. reflexivity.
    + destruct (ring_step _ _ _ _ _ R) as [Hx Hn].
      rewrite (eqb_ne _ _ Hx).
      rewrite (bind_Done _ _ _ _ _ (get_value_Done _ _ _ (Htxt x ltac:(left)))).
      rewrite (bind_Done _ _ _ _ _ (get_next_Done _ _ _ Hn)).
      rewrite (bind_Done _ _ _ _ _ (IH t (acc ++ [x]) h head _
                 ltac:(rewrite <- app_assoc; exact R)
                 ltac:(intros a Ha; apply Htxt; right; exact Ha)
                 ltac:(simpl in Hlen; lia) eq_refl)).
      reflexivity.
Qed.

Lemma q_texts_spec key fuel h head l :
  queue h head l -> (forall a, a ∈ l -> txt h a = Some (key a)) ->
  (length l <= fuel)%nat ->
  q_texts fuel head h = Done (map key l) h.
Proof.
  intros Q Htxt Hlen. unfold q_texts.
  pose proof (ring_nxt h [] head l Q) as E. rewrite app_nil_r in E.
  rewrite (bind_Done _ _ _ _ _ (get_next_Done _ _ _ E)).
  apply (q_texts_loop_spec key fuel l [] h head); auto.
Qed.

Lemma texts_ok_key h l :
  texts_ok h l -> forall a, a ∈ l -> txt h a = Some (key_of h a).
Proof.
  intros H a Ha. unfold texts_ok in H. rewrite Forall_forall in H.
  destruct (H a Ha) as [s Hs]. unfold key_of. rewrite Hs. reflexivity.
Qed.

Lemma sorted_by_lookup key l : forall i a b,
  sorted_by key l -> l !! i = Some a -> l !! S i = Some b ->
  strcmp (key a) (key b) <= 0.
Proof.
  induction l as [|x [|y t] IH]; intros i a b Hs Ha Hb.
  - discriminate.
  - destruct i; discriminate.
  - destruct Hs as [H1 H2]. destruct i as [|i].
    + simpl in Ha, Hb. congruence.
    + apply (IH i a b H2); assumption.
Qed.



(** ** q_free *)

Lemma nxt_delete h x a :
  a <> x ->
  nxt (Heap (delete x (links h)) (delete x (values h))) a = nxt h a.
Proof.
  intros H. unfold nxt. simpl. rewrite lookup_delete_ne by congruence.
  reflexivity.
Qed.

Lemma q_free_loop_spec fuel : forall todo h head cur safe,
  lseg (nxt h) cur todo head -> NoDup (head :: todo) ->
  (forall a, a ∈ todo -> is_Some (values h !! a)) -> live h head ->
  (todo <> [] -> safe = hd head (tl todo)) -> (length todo <= fuel)%nat ->
  exists h', q_free_loop fuel head cur safe h = Done tt h' /\
    (forall a, a ∈ todo -> links h' !! a = None /\ values h' !! a = None) /\
    (forall a, a ∉ todo ->
               links h' !! a = links h !! a /\ values h' !! a = values h !! a).
Proof.
  induction fuel as [|fuel IH]; intros todo h head cur safe C Hnd Hv Lh Hs Hlen.
  - destruct todo; [|simpl in Hlen; lia]. simpl in C. subst cur. simpl.
    rewrite Z.eqb_refl. exists h. split; [reflexivity|].
    split; [intros a Ha; inversion Ha|auto].
  - destruct todo as [|x t].
    + simpl in C. subst cur. simpl. rewrite Z.eqb_refl.
      exists h. split; [reflexivity|].
      split; [intros a Ha; inversion Ha|auto].
    + apply lseg_cons_inv in C as (-> & Nx & C).
      specialize (Hs ltac:(discriminate)). simpl in Hs. subst safe.
      apply NoDup_cons in Hnd as [Hh Hnd].
      apply NoDup_cons in Hnd as [Hx Hndt].
      assert (x <> head) as Hxh by (intros ->; apply Hh; left).
      simpl q_free_loop. rewrite (eqb_ne _ _ Hxh).
      set (h1 := Heap (delete x (links h)) (delete x (values h))).
      assert (q_release_element x h = Done tt h1) as E1.
      { unfold q_release_element.
        destruct (nxt_live _ _ _ Nx) as [n ->].
        destruct (Hv x ltac:(left)) as [v ->]. reflexivity. }
      rewrite (bind_Done _ _ _ _ _ E1).
      assert (exists v, nxt h1 (hd head t) = Some v /\
                        (t <> [] -> v = hd head (tl t))) as (v & Nv & Hv').
      { destruct t as [|y t'].
        - simpl. destruct (proj1 (live_nxt h head) Lh) as [v Hv0].
          exists v. split; [|congruence]. unfold h1.
          rewrite nxt_delete by auto. exact Hv0.
        - simpl. apply lseg_cons_inv in C as (_ & Ny & _).
          exists (hd head t'). split; [|auto]. unfold h1.
          rewrite nxt_delete; [exact Ny|]. intros ->. apply Hx. left. }
      rewrite (bind_Done _ _ _ _ _ (get_next_Done _ _ _ Nv)).
      destruct (IH t h1 head (hd head t) v) as (h' & E' & D' & K').
      * eapply lseg_ext; [|exact C]. intros a Ha. unfold h1.
        apply nxt_delete. intros ->. auto.
      * apply NoDup_cons. split; [|exact Hndt]. intros H. apply Hh. right. exact H.
      * intros a Ha. unfold h1. simpl. rewrite lookup_delete_ne.
        { apply Hv. right. exact Ha. }
        { intros ->. auto. }
      * unfold live, h1. simpl. rewrite lookup_delete_ne by auto. exact Lh.
      * exact Hv'.
      * simpl in Hlen. lia.
      * exists h'. split; [exact E'|]. split.
        { intros a Ha. apply elem_of_cons in Ha as [->|Ha]; [|apply D', Ha].
          destruct (K' x Hx) as [K1 K2]. rewrite K1, K2. unfold h1. simpl.
          rewrite !lookup_delete_eq. auto. }
        { intros a Ha. assert (a <> x) by (intros ->; apply Ha; left).
          destruct (K' a ltac:(intros H'; apply Ha; right; exact H')) as [K1 K2].
          rewrite K1, K2. unfold h1. simpl.
          rewrite !lookup_delete_ne by auto. auto. }
Qed.


Example q_free_example :
  (head <- q_of_list ["a"; "b"]%string ;; q_free 2 head) empty_heap
  = Done tt empty_heap.
Proof. vm_compute. reflexivity. Qed.

(** ** The example heap *)

Ltac solve_lseg :=
  repeat first [ split; [reflexivity|] | eexists; split; [reflexivity|] ];
  try reflexivity.

Ltac solve_ring :=
  unfold queue, ring, cycle;
  split; [compute_done|];
  split; [compute_done|];
  split; simpl; solve_lseg.

Ltac solve_texts :=
  unfold texts_ok; repeat (constructor; [eexists; reflexivity|]);
  try apply Forall_nil_2.

Example demo_contents :
  q_texts 3 1 demo_heap = Done ["b"; "a"; "b"]%string demo_heap.
Proof. vm_compute. reflexivity. Qed.

(** * The properties of the specification *)

(** C1. After [q_sort] the queue holds the same elements, and every two
    adjacent elements [a], [b], in traversal order from the sentinel, satisfy
    [strcmp(a.text, b.text) <= 0]; nothing is allocated or freed.  On a null
    queue, an empty queue or a queue of one element [q_sort] returns
    without changing anything. *)
Theorem q_sort_ascending (fuel : nat) (h : heap) (head : Z) (l : list Z) :
  queue h head l -> texts_ok h l -> (length l < fuel)%nat ->
  (exists h' m,
     q_sort fuel head h = Done tt h' /\ queue h' head m /\ Permutation l m /\
     same_blocks h h' /\
     forall i a b, m !! i = Some a -> m !! S i = Some b ->
       exists sa sb, txt h' a = Some sa /\ txt h' b = Some sb /\
                     strcmp sa sb <= 0) /\
  q_sort fuel NULL h = Done tt h /\
  ((length l <= 1)%nat -> q_sort fuel head h = Done tt h).
Proof.
  intros Q T Hlen. split; [|split].
  - destruct (q_sort_spec (key_of h) fuel h head l Q (texts_ok_key h l T) Hlen)
      as (h' & m & E & Q' & Pm & Sm & S).
    exists h', m. repeat (split; [assumption|]).
    intros i a b Ha Hb.
    assert (forall x, x ∈ m -> txt h' x = Some (key_of h x)) as Tm.
    { intros x Hx. rewrite (same_blocks_txt _ _ _ S).
      apply (texts_ok_key h l T). rewrite Pm. exact Hx. }
    exists (key_of h a), (key_of h b).
    split; [apply Tm; eapply list_elem_of_lookup_2; exact Ha|].
    split; [apply Tm; eapply list_elem_of_lookup_2; exact Hb|].
    eapply sorted_by_lookup; eassumption.
  - reflexivity.
  - intros H1. destruct l as [|x [|y t]].
    + apply q_sort_empty. exact Q.
    + eapply q_sort_single. exact Q.
    + simpl in H1. lia.
Qed.

Lemma q_sort_ascending_witness :
  exists h' m,
    q_sort 4 1 demo_heap = Done tt h' /\ queue h' 1 m /\
    Permutation [2; 3; 4] m /\ same_blocks demo_heap h' /\
    forall i a b, m !! i = Some a -> m !! S i = Some b ->
      exists sa sb, txt h' a = Some sa /\ txt h' b = Some sb /\
                    strcmp sa sb <= 0.
Proof.
  refine (proj1 (q_sort_ascending 4 demo_heap 1 [2; 3; 4] _ _ _)).
  - solve_ring.
  - solve_texts.
  - simpl. lia.
Defined.

Example q_sort_example :
  texts_after ["d"; "b"; "x"; "a"; "x"; "e"; "b"]%string (q_sort 8)
  = Some (tt, ["a"; "b"; "b"; "d"; "e"; "x"; "x"]%string).
Proof. vm_compute. reflexivity. Qed.

(** C2. Evaluation of [q_delete_dup] on the queue a, a, b, c, c: the result
    is a, b, c.  One copy of every repeated string stays in the queue; the
    documented contract (only b is left) is not met. *)
Theorem q_delete_dup_keeps_one_copy :
  texts_after ["a"; "a"; "b"; "c"; "c"]%string (q_delete_dup 6)
  = Some (true, ["a"; "b"; "c"]%string).
Proof. vm_compute. reflexivity. Qed.


(** C3, as stated, fails: on the queue a, b, c, d, e, f the call does not
    leave a, b, d, e, f. *)
Lemma q_delete_mid_six_counterexample :
  texts_after ["a"; "b"; "c"; "d"; "e"; "f"]%string (q_delete_mid 6)
  <> Some (true, ["a"; "b"; "d"; "e"; "f"]%string).
Proof. vm_compute. discriminate. Qed.


(** C3, amended. On a non-empty queue of [n] elements [q_delete_mid] unlinks
    and releases the element at 0-based index [n / 2] and returns true; on
    the queue a, b, c, d, e, f that is "d" (index 3) and a, b, c, e, f are
    left.  On a null or empty queue it returns false and changes nothing. *)
Theorem q_delete_mid_floor_half
  (fuel : nat) (h : heap) (head : Z) (l1 : list Z) (x : Z) (l2 : list Z) :
  queue h head (l1 ++ x :: l2) ->
  length l1 = (length (l1 ++ x :: l2) / 2)%nat ->
  (length (l1 ++ x :: l2) <= fuel)%nat ->
  texts_ok h (l1 ++ x :: l2) ->
  (exists h', q_delete_mid fuel head h = Done true h' /\
              queue h' head (l1 ++ l2) /\
              links h' !! x = None /\ values h' !! x = None /\
              (forall a, a ∈ l1 ++ l2 -> txt h' a = txt h a)) /\
  texts_after ["a"; "b"; "c"; "d"; "e"; "f"]%string (q_delete_mid 6)
  = Some (true, ["a"; "b"; "c"; "e"; "f"]%string) /\
  q_delete_mid fuel NULL h = Done false h /\
  (forall h0 head0, queue h0 head0 [] ->
                    q_delete_mid fuel head0 h0 = Done false h0).
Proof.
  intros Q Hmid Hlen T. split; [|split; [|split]].
  - assert (is_Some (values h !! x)) as Hv.
    { unfold texts_ok in T. rewrite Forall_forall in T.
      destruct (T x ltac:(set_solver)) as [s Hs]. eapply txt_values. exact Hs. }
    destruct (q_delete_mid_spec fuel h head l1 x l2 Q Hmid Hlen Hv)
      as (h1 & h' & _ & _ & _ & _ & E & Q' & EL & EV & _).
    exists h'. split; [exact E|]. split; [exact Q'|].
    split; [rewrite EL; apply lookup_delete_eq|].
    split; [rewrite EV; apply lookup_delete_eq|].
    intros a Ha. apply (txt_delete h h' x a EV). intros ->.
    destruct Q as (Hnd & _). apply NoDup_cons in Hnd as [_ Hnd].
    apply NoDup_app in Hnd as (_ & Hd & Hnd).
    apply NoDup_cons in Hnd as [Hx2 _].
    apply elem_of_app in Ha as [Ha|Ha]; [|auto]. apply (Hd x Ha). left.
  - vm_compute. reflexivity.
  - reflexivity.
  - intros h0 head0 Q0. unfold q_delete_mid.
    rewrite (eqb_ne head0 NULL) by (eapply queue_head_nonnull; exact Q0).
    rewrite (bind_Done _ _ _ _ _ (list_empty_spec _ _ _ Q0)). reflexivity.
Qed.

Lemma q_delete_mid_floor_half_witness :
  exists h', q_delete_mid 3 1 demo_heap = Done true h' /\
             queue h' 1 ([2] ++ [4]) /\
             links h' !! 3 = None /\ values h' !! 3 = None /\
             (forall a, a ∈ [2] ++ [4] -> txt h' a = txt demo_heap a).
Proof.
  refine (proj1 (q_delete_mid_floor_half 3 demo_heap 1 [2] 3 [4] _ _ _ _)).
  - solve_ring.
  - reflexivity.
  - simpl. lia.
  - solve_texts.
Defined.

Section RingInvariant.
Variables (fuel : nat) (h : heap) (head : Z) (l : list Z).
Hypothesis Q : queue h head l.
Hypothesis T : texts_ok h l.
Hypothesis F : (length l < fuel)%nat.












End RingInvariant.




Lemma truncated_lookup s k i :
  (i < k)%nat ->
  truncated s k !! i = Some (nth i (list_ascii_of_string s) zero).
Proof.
  intros Hi. unfold truncated. set (cs := list_ascii_of_string s).
  rewrite lookup_take_lt by exact Hi.
  destruct (decide (i < length cs)%nat) as [H|H].
  - rewrite lookup_app_l by exact H.
    destruct (cs !! i) as [c|] eqn:E.
    + f_equal. symmetry. apply nth_lookup_Some with (d := zero) in E.
      exact E.
    + apply lookup_ge_None in E. lia.
  - rewrite lookup_app_r by lia.
    rewrite lookup_replicate_2 by lia.
    rewrite nth_overflow by lia. reflexivity.
Qed.

(** C5, as stated, fails for [bufsize = 0]: [bufsize - 1] wraps around to
    [SIZE_MAX], and both the copy and the terminator go past the end of the
    buffer, whatever its capacity. *)
Lemma q_remove_bufsize_zero_counterexample :
  q_remove_head 1 (Some []) 0 demo_heap = Undefined /\
  q_remove_tail 1 (Some []) 0 demo_heap = Undefined /\
  q_remove_head 1 (Some [zero; zero; zero; zero]) 0 demo_heap = Undefined.
Proof. repeat split; vm_compute; reflexivity. Qed.

(** C5, amended to [bufsize >= 1]. On a non-empty queue, with a non-null
    buffer that has room for [bufsize >= 1] bytes, [q_remove_head] and
    [q_remove_tail] return the unlinked element and write exactly the bytes
    [0 .. bufsize - 1] of the buffer: the first [bufsize - 1] bytes of the
    element's string (zero-filled when the string is shorter) and a
    terminating zero at index [bufsize - 1].  The buffer keeps its length and
    every byte from index [bufsize] on. *)
Theorem q_remove_copy_in_bounds
  (h : heap) (head x : Z) (l : list Z) (s : string) (b : buffer) (bufsize : Z) :
  txt h x = Some s ->
  1 <= bufsize -> bufsize <= Z.of_nat (length b) -> bufsize < SIZE_MOD ->
  let k := Z.to_nat (bufsize - 1) in
  let b' := truncated s k ++ zero :: drop (S k) b in
  (queue h head (x :: l) ->
   exists h', q_remove_head head (Some b) bufsize h = Done (x, Some b') h') /\
  (queue h head (l ++ [x]) ->
   exists h', q_remove_tail head (Some b) bufsize h = Done (x, Some b') h') /\
  length b' = length b /\
  (forall i, (i < k)%nat ->
             b' !! i = Some (nth i (list_ascii_of_string s) zero)) /\
  b' !! k = Some zero /\
  drop (S k) b' = drop (S k) b.
Proof.
  intros Hs H1 H2 H3 k b'.
  assert (copy_out (Some b) s bufsize = Some (Some b')) as Hc.
  { rewrite copy_out_in_bounds by assumption. unfold b', k.
    replace (S (Z.to_nat (bufsize - 1))) with (Z.to_nat bufsize) by lia.
    reflexivity. }
  assert (length (truncated s k) = k) as Hk by apply truncated_length.
  split; [|split; [|split; [|split; [|split]]]].
  - intros Q. destruct (q_remove_head_spec h head x l (Some b) bufsize Q)
      as (h' & _ & _ & _ & _ & E).
    rewrite Hs, Hc in E. eauto.
  - intros Q. destruct (q_remove_tail_spec h head x l (Some b) bufsize Q)
      as (h' & _ & _ & _ & _ & E).
    rewrite Hs, Hc in E. eauto.
  - unfold b'. rewrite length_app. simpl. rewrite Hk, length_drop.
    unfold k. lia.
  - intros i Hi. unfold b'. rewrite lookup_app_l by lia.
    apply truncated_lookup. exact Hi.
  - unfold b'. rewrite lookup_app_r by lia. rewrite Hk, Nat.sub_diag.
    reflexivity.
  - unfold b'. rewrite drop_app_ge by lia. rewrite Hk.
    replace (S k - k)%nat with 1%nat by lia. reflexivity.
Qed.

Lemma q_remove_copy_in_bounds_witness :
  exists h', q_remove_head 1 (Some [zero; zero; zero]) 2 demo_heap
             = Done (2, Some ["b"%char; zero; zero]) h'.
Proof.
  refine (proj1 (q_remove_copy_in_bounds demo_heap 1 2 [3; 4] "b"%string
                   [zero; zero; zero] 2 _ _ _ _) _).
  - reflexivity.
  - lia.
  - simpl. lia.
  - reflexivity.
  - solve_ring.
Defined.

Example q_remove_head_truncates :
  texts_after ["abcdefg"; "x"]%string
    (fun head => r <- q_remove_head head (Some (replicate 5 "!"%char)) 5 ;;
                 ret (snd r))
  = Some (Some ["a"; "b"; "c"; "d"; zero]%char, ["x"%string]).
Proof. vm_compute. reflexivity. Qed.

(** C6. When the heads [a] and [b] of the two chains given to
    [mergeTwoLists] carry equal strings, the merged chain starts with [b],
    the head of the second chain, and [a] comes later.  Hence [q_sort] is not
    stable: it turns the queue of the equal strings at addresses 2, 3 into
    the queue 3, 2. *)
Theorem mergeTwoLists_tie_takes_right
  (fuel : nat) (h : heap) (a : Z) (la : list Z) (b : Z) (lb : list Z) :
  lseg (nxt h) a (a :: la) 0 -> lseg (nxt h) b (b :: lb) 0 ->
  NoDup ((a :: la) ++ b :: lb) -> (0 ∉ (a :: la) ++ b :: lb) ->
  texts_ok h ((a :: la) ++ b :: lb) ->
  (length (a :: la) + length (b :: lb) <= fuel)%nat ->
  strcmp (key_of h a) (key_of h b) = 0 ->
  (exists h' rest,
     mergeTwoLists fuel a b h = Done b h' /\
     lseg (nxt h') b (b :: rest) 0 /\
     rest = merge_lists (key_of h) (a :: la) lb /\
     a ∈ rest /\ Permutation ((a :: la) ++ lb) rest) /\
  (exists h', q_sort 3 1 tie_heap = Done tt h' /\ queue h' 1 [3; 2]).
Proof.
  intros Ca Cb Hnd H0 T Hlen Htie. split.
  - destruct (mergeTwoLists_loop_spec (key_of h) fuel (a :: la) (b :: lb) h a b
                NULL LocalHead Ca Cb Hnd H0 (texts_ok_key h _ T) Hlen I)
      as (h' & r & E & Hh & C & _).
    rewrite (merge_lists_tie _ a la b lb Htie) in Hh, C.
    simpl in Hh. subst r.
    exists h', (merge_lists (key_of h) (a :: la) lb).
    split; [exact E|]. split; [exact C|]. split; [reflexivity|].
    pose proof (merge_lists_perm (key_of h) (a :: la) lb) as P.
    split; [|exact P]. rewrite <- P. left.
  - eexists. split; [vm_compute; reflexivity|]. solve_ring.
Qed.

Lemma mergeTwoLists_tie_takes_right_witness :
  exists h' rest,
    mergeTwoLists 2 2 3 (upd_next 3 0 (upd_next 2 0 tie_heap)) = Done 3 h' /\
    lseg (nxt h') 3 (3 :: rest) 0 /\
    rest = merge_lists (key_of (upd_next 3 0 (upd_next 2 0 tie_heap))) [2] [] /\
    2 ∈ rest /\ Permutation ([2] ++ []) rest.
Proof.
  refine (proj1 (mergeTwoLists_tie_takes_right 2 (upd_next 3 0 (upd_next 2 0 tie_heap))
                   2 [] 3 [] _ _ _ _ _ _ _)).
  - simpl. solve_lseg.
  - simpl. solve_lseg.
  - compute_done.
  - compute_done.
  - solve_texts.
  - simpl. lia.
  - reflexivity.
Defined.

(** C7. [q_reverse] turns the queue [l] into [rev l] without allocating or
    freeing any element; applied twice it restores the order [l]. *)
Theorem q_reverse_involution (fuel : nat) (h : heap) (head : Z) (l : list Z) :
  queue h head l -> (length l <= fuel)%nat ->
  exists h1 h2,
    q_reverse fuel head h = Done tt h1 /\ queue h1 head (rev l) /\
    same_blocks h h1 /\
    q_reverse fuel head h1 = Done tt h2 /\ queue h2 head l /\
    same_blocks h h2.
Proof.
  intros Q Hlen.
  destruct (q_reverse_spec fuel h head l Q Hlen) as (h1 & E1 & Q1 & S1).
  destruct (q_reverse_spec fuel h1 head (rev l) Q1) as (h2 & E2 & Q2 & S2).
  { rewrite length_rev. exact Hlen. }
  rewrite rev_involutive in Q2.
  exists h1, h2. repeat (split; [assumption|]).
  eapply same_blocks_trans; eassumption.
Qed.

Lemma q_reverse_involution_witness :
  exists h1 h2,
    q_reverse 3 1 demo_heap = Done tt h1 /\ queue h1 1 (rev [2; 3; 4]) /\
    same_blocks demo_heap h1 /\
    q_reverse 3 1 h1 = Done tt h2 /\ queue h2 1 [2; 3; 4] /\
    same_blocks demo_heap h2.
Proof.
  refine (q_reverse_involution 3 demo_heap 1 [2; 3; 4] _ _).
  - solve_ring.
  - simpl. lia.
Defined.

Example q_reverse_example :
  texts_after ["a"; "b"; "c"; "d"; "e"]%string (q_reverse 5)
  = Some (tt, ["e"; "d"; "c"; "b"; "a"]%string).
Proof. vm_compute. reflexivity. Qed.

Example q_swap_example :
  texts_after ["a"; "b"; "c"; "d"; "e"]%string (q_swap 5)
  = Some (tt, ["b"; "a"; "d"; "c"; "e"]%string).
Proof. vm_compute. reflexivity. Qed.

(** C8. [q_insert_head] and [q_insert_tail] return false, and leave the heap
    exactly as it was, when the queue is null, when the allocation of the
    element fails, and when the duplication of the string fails.  In the
    last case the element that was allocated is released again: the call of
    [q_release_element] on the heap that holds it gives back the heap from
    before the call, in which its address is not live. *)
Theorem q_insert_failure
  (h : heap) (head : Z) (ok_e ok_s : bool) (text : option string) (s : string) :
  head <> NULL ->
  q_insert_head ok_e ok_s NULL text h = Done false h /\
  q_insert_tail ok_e ok_s NULL text h = Done false h /\
  q_insert_head false ok_s head text h = Done false h /\
  q_insert_tail false ok_s head text h = Done false h /\
  q_insert_head true false head (Some s) h = Done false h /\
  q_insert_tail true false head (Some s) h = Done false h /\
  (set_value (fresh_addr h) None ;; q_release_element (fresh_addr h))
    (alloc_element h) = Done tt h /\
  links h !! fresh_addr h = None /\ values h !! fresh_addr h = None.
Proof.
  intros Hh.
  split; [reflexivity|]. split; [reflexivity|].
  split; [unfold q_insert_head; rewrite (eqb_ne head NULL Hh); reflexivity|].
  split; [unfold q_insert_tail; rewrite (eqb_ne head NULL Hh); reflexivity|].
  assert ((set_value (fresh_addr h) None ;; q_release_element (fresh_addr h))
            (alloc_element h) = Done tt h) as E.
  { unfold bind. rewrite insert_prefix_run. apply release_fresh. }
  split; [|split; [|split; [exact E|split]]].
  - unfold q_insert_head. rewrite (eqb_ne head NULL Hh).
    unfold bind at 1. unfold malloc_element.
    rewrite (eqb_ne _ NULL (fresh_addr_nonnull h)).
    unfold strdup. unfold bind at 1. unfold ret at 1.
    unfold bind at 1. fold (alloc_element h).
    rewrite insert_prefix_run. unfold bind at 1.
    rewrite release_fresh. reflexivity.
  - unfold q_insert_tail. rewrite (eqb_ne head NULL Hh).
    unfold bind at 1. unfold malloc_element.
    rewrite (eqb_ne _ NULL (fresh_addr_nonnull h)).
    unfold strdup. unfold bind at 1. unfold ret at 1.
    unfold bind at 1. fold (alloc_element h).
    rewrite insert_prefix_run. unfold bind at 1.
    rewrite release_fresh. reflexivity.
  - apply fresh_addr_links.
  - apply fresh_addr_values.
Qed.

Lemma q_insert_failure_witness :
  q_insert_head true false 1 (Some "z"%string) demo_heap = Done false demo_heap.
Proof.
  refine (proj1 (proj2 (proj2 (proj2 (proj2
           (q_insert_failure demo_heap 1 true false None "z"%string _)))))).
  unfold NULL. lia.
Defined.




(** C10. Neither insert operation checks its string argument: with a
    non-null queue and a successful allocation of the element, a null string
    reaches [strdup], which is undefined behaviour, so no result is
    returned.  A call with a null string returns (false) only when the
    allocation of the element has failed, which happens before the string
    is looked at. *)
Theorem q_insert_null_text (h : heap) (head : Z) (ok_s : bool) :
  head <> NULL ->
  q_insert_head true ok_s head None h = Undefined /\
  q_insert_tail true ok_s head None h = Undefined /\
  (forall ok_e b h', q_insert_head ok_e ok_s head None h = Done b h' ->
                     ok_e = false /\ b = false /\ h' = h) /\
  (forall ok_e b h', q_insert_tail ok_e ok_s head None h = Done b h' ->
                     ok_e = false /\ b = false /\ h' = h).
Proof.
  intros Hh.
  assert (q_insert_head true ok_s head None h = Undefined) as E1.
  { unfold q_insert_head. rewrite (eqb_ne head NULL Hh).
    unfold bind at 1. unfold malloc_element.
    rewrite (eqb_ne _ NULL (fresh_addr_nonnull h)). reflexivity. }
  assert (q_insert_tail true ok_s head None h = Undefined) as E2.
  { unfold q_insert_tail. rewrite (eqb_ne head NULL Hh).
    unfold bind at 1. unfold malloc_element.
    rewrite (eqb_ne _ NULL (fresh_addr_nonnull h)). reflexivity. }
  split; [exact E1|]. split; [exact E2|]. split.
  - intros [|] b h' E; [rewrite E1 in E; discriminate|].
    unfold q_insert_head in E. rewrite (eqb_ne head NULL Hh) in E.
    inversion E. auto.
  - intros [|] b h' E; [rewrite E2 in E; discriminate|].
    unfold q_insert_tail in E. rewrite (eqb_ne head NULL Hh) in E.
    inversion E. auto.
Qed.

Lemma q_insert_null_text_witness :
  q_insert_head true true 1 None demo_heap = Undefined.
Proof.
  refine (proj1 (q_insert_null_text demo_heap 1 true _)).
  unfold NULL. lia.
Defined.

(** * Further properties of queue.c *)

(** ** Frames: what the operations leave alone *)

(** The links of the nodes of a ring are determined by its order. *)
Lemma ring_links_determined h h' c a :
  ring h c -> ring h' c -> a ∈ c -> links h' !! a = links h !! a.
Proof.
  intros R R' Ha. apply list_elem_of_split in Ha as (c1 & c2 & ->).
  pose proof (ring_nxt _ _ _ _ R) as N. pose proof (ring_nxt _ _ _ _ R') as N'.
  pose proof (ring_prv _ _ _ _ R) as P. pose proof (ring_prv _ _ _ _ R') as P'.
  unfold nxt, prv in *.
  destruct (links h !! a) as [[n p]|]; [|discriminate].
  destruct (links h' !! a) as [[n' p']|]; [|discriminate].
  simpl in *. congruence.
Qed.

Section InsertFrame.
Variables (h : heap) (head : Z) (l : list Z) (s : string).
Hypothesis Q : queue h head l.

Lemma q_insert_head_frame :
  exists h', q_insert_head true true head (Some s) h = Done true h' /\
             queue h' head (fresh_addr h :: l) /\
             values h' = <[fresh_addr h := Some s]> (values h) /\
             dom (links h') = {[fresh_addr h]} ∪ dom (links h) /\
             (forall a, a ∉ fresh_addr h :: head :: l ->
                        links h' !! a = links h !! a).
Proof.
  set (p := fresh_addr h).
  set (h2 := Heap (<[p := ListHead NULL NULL]> (links h))
                  (<[p := Some s]> (values h))).
  destruct (insert_ready h head l s Q) as [R2 L2]. fold p in R2, L2. fold h2 in R2, L2.
  destruct (list_add_spec h2 [] head l p R2 (insert_fresh_notin h head l Q)
              (fresh_addr_nonnull h) L2) as (h3 & E3 & R3 & [D3 V3] & F3).
  exists h3. split; [|split; [exact R3|split; [|split]]].
  - unfold q_insert_head.
    rewrite (eqb_ne head NULL) by (eapply queue_head_nonnull; exact Q).
    unfold bind at 1. unfold malloc_element. fold p.
    rewrite (eqb_ne p NULL) by apply fresh_addr_nonnull.
    unfold strdup. unfold bind at 1. unfold ret at 1.
    unfold bind at 1. fold (alloc_element h). unfold p.
    rewrite insert_prefix_run. fold p. fold h2.
    rewrite (bind_Done _ _ _ _ _ E3). reflexivity.
  - rewrite V3. reflexivity.
  - rewrite D3. unfold h2. simpl. apply dom_insert_L.
  - intros a Ha. rewrite F3 by exact Ha. unfold h2. simpl.
    apply lookup_insert_ne. intros <-. apply Ha. left.
Qed.

Lemma q_insert_tail_frame :
  exists h', q_insert_tail true true head (Some s) h = Done true h' /\
             queue h' head (l ++ [fresh_addr h]) /\
             values h' = <[fresh_addr h := Some s]> (values h) /\
             dom (links h') = {[fresh_addr h]} ∪ dom (links h) /\
             (forall a, a ∉ fresh_addr h :: head :: l ->
                        links h' !! a = links h !! a).
Proof.
  set (p := fresh_addr h).
  set (h2 := Heap (<[p := ListHead NULL NULL]> (links h))
                  (<[p := Some s]> (values h))).
  destruct (insert_ready h head l s Q) as [R2 L2]. fold p in R2, L2. fold h2 in R2, L2.
  destruct (list_add_tail_spec h2 [] head l p R2 (insert_fresh_notin h head l Q)
              (fresh_addr_nonnull h) L2) as (h3 & E3 & R3 & [D3 V3] & F3).
  exists h3. split; [|split; [|split; [|split]]].
  - unfold q_insert_tail.
    rewrite (eqb_ne head NULL) by (eapply queue_head_nonnull; exact Q).
    unfold bind at 1. unfold malloc_element. fold p.
    rewrite (eqb_ne p NULL) by apply fresh_addr_nonnull.
    unfold strdup. unfold bind at 1. unfold ret at 1.
    unfold bind at 1. fold (alloc_element h). unfold p.
    rewrite insert_prefix_run. fold p. fold h2.
    rewrite (bind_Done _ _ _ _ _ E3). reflexivity.
  - apply (ring_rot h3 [p] (head :: l)) in R3. exact R3.
  - rewrite V3. reflexivity.
  - rewrite D3. unfold h2. simpl. apply dom_insert_L.
  - intros a Ha. rewrite F3 by exact Ha. unfold h2. simpl.
    apply lookup_insert_ne. intros <-. apply Ha. left.
Qed.
End InsertFrame.

(** ** Size, insertion and removal *)

(** X1. [q_size] returns the number of elements of the queue, as long as
    that number fits the [int] counter, and changes nothing; for a null
    queue it returns 0. *)
Theorem q_size_counts (fuel : nat) (h : heap) (head : Z) (l : list Z) :
  queue h head l -> Z.of_nat (length l) <= INT_MAX -> (length l <= fuel)%nat ->
  q_size fuel head h = Done (Z.of_nat (length l)) h /\
  q_size fuel NULL h = Done 0 h.
Proof.
  intros Q Hmax Hlen. split; [apply q_size_spec; assumption|reflexivity].
Qed.

Lemma q_size_counts_witness :
  q_size 3 1 demo_heap = Done 3 demo_heap /\ q_size 3 NULL demo_heap = Done 0 demo_heap.
Proof.
  refine (q_size_counts 3 demo_heap 1 [2; 3; 4] _ _ _).
  - solve_ring.
  - vm_compute. discriminate.
  - simpl. lia.
Defined.




(** X3. [q_remove_head] unlinks and returns the first element of a non-empty
    queue, [q_remove_tail] the last, whether the buffer is null or holds at
    least [bufsize >= 1] bytes; the buffer comes back as [copy_out] leaves
    it (a null buffer stays null).  The element is not freed: it stays
    allocated with its string, nothing is allocated or freed, the remaining
    elements keep their order, and no node outside the queue is written.
    On an empty queue both return [NULL] and leave the heap and the caller's
    buffer as they are, for any buffer and size. *)
Theorem q_remove_unlinks_boundary (h : heap) (head : Z) (l : list Z) :
  queue h head l -> texts_ok h l ->
  (forall x t sp bufsize, l = x :: t -> buffer_ok sp bufsize ->
     exists sp' h',
       q_remove_head head sp bufsize h = Done (x, sp') h' /\
       copy_out sp (key_of h x) bufsize = Some sp' /\
       queue h' head t /\ same_blocks h h' /\ live h' x /\
       txt h' x = txt h x /\
       (forall a, a ∉ x :: head :: t -> links h' !! a = links h !! a)) /\
  (forall t x sp bufsize, l = t ++ [x] -> buffer_ok sp bufsize ->
     exists sp' h',
       q_remove_tail head sp bufsize h = Done (x, sp') h' /\
       copy_out sp (key_of h x) bufsize = Some sp' /\
       queue h' head t /\ same_blocks h h' /\ live h' x /\
       txt h' x = txt h x /\
       (forall a, a ∉ x :: head :: t -> links h' !! a = links h !! a)) /\
  (l = [] -> forall sp bufsize,
     q_remove_head head sp bufsize h = Done (NULL, sp) h /\
     q_remove_tail head sp bufsize h = Done (NULL, sp) h).
Proof.
  intros Q T. split; [|split].
  - intros x t sp bufsize -> B.
    pose proof (texts_ok_key h _ T x ltac:(left)) as Hs.
    destruct (q_remove_head_run h head x t sp bufsize _ Q Hs B)
      as (h' & sp' & E & C & _ & Q' & N & _ & S & F).
    exists sp', h'. split; [exact E|]. split; [exact C|].
    split; [exact Q'|]. split; [exact S|].
    split; [eapply nxt_live; exact N|].
    split; [apply same_blocks_txt, S|exact F].
  - intros t x sp bufsize -> B.
    pose proof (texts_ok_key h _ T x ltac:(set_solver)) as Hs.
    destruct (q_remove_tail_run h head x t sp bufsize _ Q Hs B)
      as (h' & sp' & E & C & _ & Q' & N & _ & S & F).
    exists sp', h'. split; [exact E|]. split; [exact C|].
    split; [exact Q'|]. split; [exact S|].
    split; [eapply nxt_live; exact N|].
    split; [apply same_blocks_txt, S|exact F].
  - intros -> sp bufsize. apply q_remove_empty. exact Q.
Qed.

Lemma q_remove_unlinks_boundary_witness :
  exists sp' h',
    q_remove_tail 1 (Some (replicate 4 "!"%char)) 3 demo_heap = Done (4, sp') h' /\
    copy_out (Some (replicate 4 "!"%char)) (key_of demo_heap 4) 3 = Some sp' /\
    queue h' 1 [2; 3] /\ same_blocks demo_heap h' /\ live h' 4 /\
    txt h' 4 = txt demo_heap 4 /\
    (forall a, a ∉ 4 :: 1 :: [2; 3] -> links h' !! a = links demo_heap !! a).
Proof.
  refine (proj1 (proj2 (q_remove_unlinks_boundary demo_heap 1 [2; 3; 4] _ _))
            [2; 3] 4 (Some (replicate 4 "!"%char)) 3 eq_refl _).
  - solve_ring.
  - solve_texts.
  - unfold buffer_ok, SIZE_MOD. simpl. lia.
Defined.

Lemma heap_restored h h2 head l p s :
  queue h head l -> queue h2 head l ->
  links h !! p = None -> values h !! p = None -> p ∉ head :: l ->
  is_Some (links h2 !! p) ->
  values h2 = <[p := Some s]> (values h) ->
  (forall a, a ∉ p :: head :: l -> links h2 !! a = links h !! a) ->
  q_release_element p h2 = Done tt h.
Proof.
  intros Q Q2 Lp Vp Hp [n Hn] V F.
  unfold q_release_element. rewrite Hn, V, lookup_insert_eq.
  f_equal. destruct h as [lk vl]. simpl in *. f_equal.
  - apply map_eq. intros a. destruct (decide (a = p)) as [->|Hap].
    + rewrite lookup_delete_eq. symmetry. exact Lp.
    + rewrite lookup_delete_ne by congruence.
      destruct (decide (a ∈ head :: l)) as [Ha|Ha].
      * apply (ring_links_determined _ _ _ _ Q Q2 Ha).
      * apply F. intros H. apply elem_of_cons in H as [H|H]; auto.
  - apply delete_insert_id. exact Vp.
Qed.

(** X4. Round trip.  [q_insert_head] followed by [q_remove_head], with a
    null buffer or one of at least [bufsize >= 1] bytes, returns the element
    that was inserted, with the string that was inserted, copies that string
    to the buffer as [copy_out] does, and leaves the queue in its previous
    order; releasing the element then gives back exactly the heap from
    before the insertion.  The same holds for [q_insert_tail] followed by
    [q_remove_tail]. *)
Theorem q_insert_remove_round_trip
  (h : heap) (head : Z) (l : list Z) (s : string)
  (sp : option buffer) (bufsize : Z) :
  queue h head l -> buffer_ok sp bufsize ->
  let p := fresh_addr h in
  (exists h1 h2 sp',
     q_insert_head true true head (Some s) h = Done true h1 /\
     q_remove_head head sp bufsize h1 = Done (p, sp') h2 /\
     copy_out sp s bufsize = Some sp' /\
     queue h2 head l /\ txt h2 p = Some s /\
     q_release_element p h2 = Done tt h) /\
  (exists h1 h2 sp',
     q_insert_tail true true head (Some s) h = Done true h1 /\
     q_remove_tail head sp bufsize h1 = Done (p, sp') h2 /\
     copy_out sp s bufsize = Some sp' /\
     queue h2 head l /\ txt h2 p = Some s /\
     q_release_element p h2 = Done tt h).
Proof.
  intros Q B p.
  pose proof (insert_fresh_notin h head l Q) as Hp. fold p in Hp.
  split.
  - destruct (q_insert_head_frame h head l s Q) as (h1 & E1 & Q1 & V1 & D1 & F1).
    fold p in Q1, V1, D1, F1.
    assert (txt h1 p = Some s) as T1.
    { unfold txt. rewrite V1, lookup_insert_eq. reflexivity. }
    destruct (q_remove_head_run h1 head p l sp bufsize s Q1 T1 B)
      as (h2 & sp' & E2 & C2 & _ & Q2 & _ & _ & S2 & F2).
    exists h1, h2, sp'. split; [exact E1|]. split; [exact E2|].
    split; [exact C2|]. split; [exact Q2|].
    assert (values h2 = <[p := Some s]> (values h)) as V2.
    { destruct S2 as [_ ->]. exact V1. }
    split.
    + unfold txt. rewrite V2, lookup_insert_eq. reflexivity.
    + apply (heap_restored h h2 head l p s Q Q2); auto.
      * apply fresh_addr_links.
      * apply fresh_addr_values.
      * destruct S2 as [D2 _]. apply elem_of_dom. rewrite D2, D1. set_solver.
      * intros a Ha. rewrite F2 by exact Ha. apply F1. exact Ha.
  - destruct (q_insert_tail_frame h head l s Q) as (h1 & E1 & Q1 & V1 & D1 & F1).
    fold p in Q1, V1, D1, F1.
    assert (txt h1 p = Some s) as T1.
    { unfold txt. rewrite V1, lookup_insert_eq. reflexivity. }
    destruct (q_remove_tail_run h1 head p l sp bufsize s Q1 T1 B)
      as (h2 & sp' & E2 & C2 & _ & Q2 & _ & _ & S2 & F2).
    exists h1, h2, sp'. split; [exact E1|]. split; [exact E2|].
    split; [exact C2|]. split; [exact Q2|].
    assert (values h2 = <[p := Some s]> (values h)) as V2.
    { destruct S2 as [_ ->]. exact V1. }
    split.
    + unfold txt. rewrite V2, lookup_insert_eq. reflexivity.
    + apply (heap_restored h h2 head l p s Q Q2); auto.
      * apply fresh_addr_links.
      * apply fresh_addr_values.
      * destruct S2 as [D2 _]. apply elem_of_dom. rewrite D2, D1. set_solver.
      * intros a Ha. rewrite F2 by exact Ha. apply F1. exact Ha.
Qed.

Lemma q_insert_remove_round_trip_witness :
  exists h1 h2 sp',
    q_insert_head true true 1 (Some "zebra"%string) demo_heap = Done true h1 /\
    q_remove_head 1 (Some (replicate 4 "!"%char)) 3 h1 = Done (5, sp') h2 /\
    copy_out (Some (replicate 4 "!"%char)) "zebra"%string 3 = Some sp' /\
    queue h2 1 [2; 3; 4] /\ txt h2 5 = Some "zebra"%string /\
    q_release_element 5 h2 = Done tt demo_heap.
Proof.
  refine (proj1 (q_insert_remove_round_trip demo_heap 1 [2; 3; 4] "zebra"%string
                   (Some (replicate 4 "!"%char)) 3 _ _)).
  - solve_ring.
  - unfold buffer_ok, SIZE_MOD. simpl. lia.
Defined.

(** ** q_swap *)

Lemma pairs_ind (P : list Z -> Prop) :
  P [] -> (forall a, P [a]) -> (forall a b t, P t -> P (a :: b :: t)) ->
  forall l, P l.
Proof.
  intros H0 H1 H2 l.
  assert (P l /\ forall a, P (a :: l)) as [H _]; [|exact H].
  induction l as [|x t [IH1 IH2]]; split; auto.
Qed.

Lemma swap_pairs_involutive l : swap_pairs (swap_pairs l) = l.
Proof.
  induction l as [|a|a b t IH] using pairs_ind; simpl; [reflexivity..|].
  rewrite IH. reflexivity.
Qed.

Lemma swap_pairs_length l : length (swap_pairs l) = length l.
Proof.
  induction l as [|a|a b t IH] using pairs_ind; simpl; [reflexivity..|].
  rewrite IH. reflexivity.
Qed.

Lemma swap_pairs_lookup l : forall i,
  ((2 * i + 1 < length l)%nat ->
   swap_pairs l !! (2 * i)%nat = l !! (2 * i + 1)%nat /\
   swap_pairs l !! (2 * i + 1)%nat = l !! (2 * i)%nat) /\
  (length l = (2 * i + 1)%nat ->
   swap_pairs l !! (2 * i)%nat = l !! (2 * i)%nat).
Proof.
  induction l as [|a|a b t IH] using pairs_ind; intros i.
  - simpl. split; intros; lia.
  - simpl. split; [intros; lia|]. intros H. assert (i = 0)%nat as -> by lia.
    reflexivity.
  - destruct i as [|i].
    + simpl. split; [auto|]. intros; lia.
    + replace (2 * S i)%nat with (S (S (2 * i))) by lia.
      replace (S (S (2 * i)) + 1)%nat with (S (S (2 * i + 1))) by lia.
      simpl. destruct (IH i) as [IHa IHb]. split.
      * intros H. apply IHa. lia.
      * intros H. apply IHb. lia.
Qed.

(** X5. [q_swap] exchanges the elements at the positions 0 and 1, 2 and 3,
    and so on, and leaves the last element of a queue of odd length where it
    is; it allocates and frees nothing.  A second [q_swap] restores the
    original order. *)
Theorem q_swap_exchanges_pairs (fuel : nat) (h : heap) (head : Z) (l : list Z) :
  queue h head l -> (length l <= fuel)%nat ->
  exists h1 m h2,
    q_swap fuel head h = Done tt h1 /\ queue h1 head m /\ same_blocks h h1 /\
    length m = length l /\
    (forall i, (2 * i + 1 < length l)%nat ->
       m !! (2 * i)%nat = l !! (2 * i + 1)%nat /\
       m !! (2 * i + 1)%nat = l !! (2 * i)%nat) /\
    (forall i, length l = (2 * i + 1)%nat ->
       m !! (2 * i)%nat = l !! (2 * i)%nat) /\
    q_swap fuel head h1 = Done tt h2 /\ queue h2 head l.
Proof.
  intros Q Hlen.
  destruct (q_swap_spec fuel h head l Q Hlen) as (h1 & E1 & Q1 & S1).
  destruct (q_swap_spec fuel h1 head (swap_pairs l) Q1) as (h2 & E2 & Q2 & _).
  { rewrite swap_pairs_length. exact Hlen. }
  rewrite swap_pairs_involutive in Q2.
  exists h1, (swap_pairs l), h2.
  split; [exact E1|]. split; [exact Q1|]. split; [exact S1|].
  split; [apply swap_pairs_length|].
  split; [intros i; apply (swap_pairs_lookup l i)|].
  split; [intros i; apply (swap_pairs_lookup l i)|]. auto.
Qed.

Lemma q_swap_exchanges_pairs_witness :
  exists h1 m h2,
    q_swap 3 1 demo_heap = Done tt h1 /\ queue h1 1 m /\
    same_blocks demo_heap h1 /\
    length m = length [2; 3; 4] /\
    (forall i, (2 * i + 1 < length [2; 3; 4])%nat ->
       m !! (2 * i)%nat = [2; 3; 4] !! (2 * i + 1)%nat /\
       m !! (2 * i + 1)%nat = [2; 3; 4] !! (2 * i)%nat) /\
    (forall i, length [2; 3; 4] = (2 * i + 1)%nat ->
       m !! (2 * i)%nat = [2; 3; 4] !! (2 * i)%nat) /\
    q_swap 3 1 h1 = Done tt h2 /\ queue h2 1 [2; 3; 4].
Proof.
  refine (q_swap_exchanges_pairs 3 demo_heap 1 [2; 3; 4] _ _).
  - solve_ring.
  - simpl. lia.
Defined.

(** ** The order of strings under strcmp *)

Lemma byte_of_nonneg c : 0 <= byte_of c.
Proof. unfold byte_of. lia. Qed.

Lemma byte_of_inj c1 c2 : byte_of c1 = byte_of c2 -> c1 = c2.
Proof.
  unfold byte_of. intros H. apply N2Z.inj in H.
  rewrite <- (ascii_N_embedding c1), <- (ascii_N_embedding c2), H.
  reflexivity.
Qed.

Lemma byte_of_zero c : byte_of c = 0 -> c = zero.
Proof. intros H. apply byte_of_inj. rewrite H. reflexivity. Qed.

Lemma c_string_cons c s : c_string (String c s) <-> c <> zero /\ c_string s.
Proof.
  unfold c_string. simpl. apply (Forall_cons (fun c0 : ascii => c0 <> zero)).
Qed.

Lemma strcmp_eq s1 : forall s2,
  c_string s1 -> c_string s2 -> strcmp s1 s2 = 0 -> s1 = s2.
Proof.
  induction s1 as [|c1 r1 IH]; intros [|c2 r2] H1 H2 E; simpl in E.
  - reflexivity.
  - apply c_string_cons in H2 as [H2 _]. exfalso. apply H2, byte_of_zero. lia.
  - apply c_string_cons in H1 as [H1 _]. exfalso. apply H1, byte_of_zero. lia.
  - apply c_string_cons in H1 as [_ H1]. apply c_string_cons in H2 as [_ H2].
    destruct (byte_of c1 =? byte_of c2) eqn:Ec.
    + apply Z.eqb_eq, byte_of_inj in Ec. subst c2. f_equal. apply IH; assumption.
    + apply Z.eqb_neq in Ec. lia.
Qed.

Lemma strcmp_same s : strcmp s s = 0.
Proof. pose proof (strcmp_antisym s s). lia. Qed.

Lemma strcmp_lt_trans a : forall b c,
  strcmp a b < 0 -> strcmp b c < 0 -> strcmp a c < 0.
Proof.
  induction a as [|x a' IH]; intros [|y b'] [|z c'] H1 H2; simpl in *;
    try (pose proof (byte_of_nonneg y)); try (pose proof (byte_of_nonneg x));
    try (pose proof (byte_of_nonneg z)); try lia.
  - destruct (Z.eqb_spec (byte_of y) (byte_of z)); lia.
  - destruct (Z.eqb_spec (byte_of x) (byte_of y));
      destruct (Z.eqb_spec (byte_of y) (byte_of z));
      destruct (Z.eqb_spec (byte_of x) (byte_of z)); try lia.
    apply (IH b' c'); assumption.
Qed.

Lemma strcmp_le_trans a b c :
  c_string a -> c_string b -> c_string c ->
  strcmp a b <= 0 -> strcmp b c <= 0 -> strcmp a c <= 0.
Proof.
  intros Ha Hb Hc H1 H2.
  destruct (Z.eq_dec (strcmp a b) 0) as [E|E].
  { apply strcmp_eq in E; [subst; exact H2|assumption..]. }
  destruct (Z.eq_dec (strcmp b c) 0) as [E'|E'].
  { apply strcmp_eq in E'; [subst; exact H1|assumption..]. }
  pose proof (strcmp_lt_trans a b c). lia.
Qed.

(** ** q_delete_dup: one element for every distinct string *)

Section DropDups.
Variable key : Z -> string.

Lemma drop_dups_cons2 x y t :
  drop_dups key (x :: y :: t) =
  if strcmp (key x) (key y) =? 0 then drop_dups key (y :: t)
  else x :: drop_dups key (y :: t).
Proof. reflexivity. Qed.

Lemma drop_dups_hd t : forall x,
  Forall (fun a => c_string (key a)) (x :: t) ->
  exists z rest, drop_dups key (x :: t) = z :: rest /\ key z = key x.
Proof.
  induction t as [|y t IH]; intros x Hc.
  - exists x, []. auto.
  - rewrite drop_dups_cons2. apply Forall_cons in Hc as [Hx Hc].
    destruct (Z.eqb_spec (strcmp (key x) (key y)) 0) as [E|E].
    + destruct (IH y Hc) as (z & rest & Ez & Kz). exists z, rest.
      split; [exact Ez|]. rewrite Kz. symmetry.
      apply Forall_cons in Hc as [Hy _]. apply strcmp_eq; assumption.
    + eauto.
Qed.

Lemma drop_dups_keeps m :
  Forall (fun a => c_string (key a)) m ->
  forall a, a ∈ m -> exists b, b ∈ drop_dups key m /\ key b = key a.
Proof.
  induction m as [|x [|y t] IH]; intros Hc a Ha.
  - inversion Ha.
  - exists a. auto.
  - rewrite drop_dups_cons2. pose proof Hc as Hc'.
    apply Forall_cons in Hc' as [Hx Hyt].
    pose proof Hyt as Hyt'. apply Forall_cons in Hyt' as [Hy _].
    destruct (Z.eqb_spec (strcmp (key x) (key y)) 0) as [E|E].
    + apply elem_of_cons in Ha as [->|Ha].
      * destruct (IH Hyt y ltac:(left)) as (b & Hb & Kb).
        exists b. split; [exact Hb|]. rewrite Kb. symmetry.
        apply strcmp_eq; assumption.
      * apply (IH Hyt a Ha).
    + apply elem_of_cons in Ha as [->|Ha].
      * exists x. split; [left|reflexivity].
      * destruct (IH Hyt a Ha) as (b & Hb & Kb). exists b. split; [right|]; auto.
Qed.

Lemma drop_dups_ascending m :
  Forall (fun a => c_string (key a)) m -> sorted_by key m ->
  ascending_by key (drop_dups key m).
Proof.
  induction m as [|x [|y t] IH]; intros Hc Hs; [exact I|exact I|].
  rewrite drop_dups_cons2. apply Forall_cons in Hc as [Hx Hyt].
  destruct Hs as [Hxy Hs].
  destruct (Z.eqb_spec (strcmp (key x) (key y)) 0) as [E|E].
  - apply IH; assumption.
  - specialize (IH Hyt Hs).
    destruct (drop_dups_hd t y Hyt) as (z & rest & Ez & Kz).
    rewrite Ez in IH |- *. split; [|exact IH]. rewrite Kz. lia.
Qed.

Lemma ascending_by_lookup l : forall i a b,
  ascending_by key l -> l !! i = Some a -> l !! S i = Some b ->
  strcmp (key a) (key b) < 0.
Proof.
  induction l as [|x [|y t] IH]; intros i a b Hs Ha Hb.
  - discriminate.
  - destruct i; discriminate.
  - destruct Hs as [H1 H2]. destruct i as [|i].
    + simpl in Ha, Hb. congruence.
    + apply (IH i a b H2); assumption.
Qed.

Lemma ascending_by_below x l :
  ascending_by key (x :: l) ->
  forall b, b ∈ l -> strcmp (key x) (key b) < 0.
Proof.
  revert x. induction l as [|y t IH]; intros x Hs b Hb; [inversion Hb|].
  destruct Hs as [H1 H2]. apply elem_of_cons in Hb as [->|Hb]; [exact H1|].
  eapply strcmp_lt_trans; [exact H1|]. apply (IH y H2 b Hb).
Qed.

Lemma ascending_by_NoDup l : ascending_by key l -> NoDup (map key l).
Proof.
  induction l as [|x t IH]; intros Hs; [apply NoDup_nil_2|].
  simpl. apply NoDup_cons. split.
  - intros Hin. apply list_elem_of_In, in_map_iff in Hin as (b & Kb & Hb).
    apply list_elem_of_In in Hb.
    pose proof (ascending_by_below x t Hs b Hb) as Hlt.
    rewrite Kb, strcmp_same in Hlt. lia.
  - apply IH. destruct t as [|y t']; [exact I|]. destruct Hs as [_ Hs]. exact Hs.
Qed.
End DropDups.

Lemma c_strings_perm h l m : Permutation l m -> c_strings h l -> c_strings h m.
Proof. intros P. unfold c_strings. rewrite P. auto. Qed.

(** X6. [q_delete_dup] leaves one element for every distinct string of the
    queue, in strictly ascending order: every element left is an element of
    the original queue with its string, every string of the original queue
    is the string of an element left, and no two elements left carry the
    same string. *)
Theorem q_delete_dup_leaves_distinct
  (fuel : nat) (h : heap) (head : Z) (l : list Z) :
  queue h head l -> texts_ok h l -> c_strings h l -> (length l < fuel)%nat ->
  exists h' m,
    q_delete_dup fuel head h = Done true h' /\ queue h' head m /\
    (forall a, a ∈ m -> a ∈ l /\ txt h' a = txt h a) /\
    (forall a, a ∈ l -> exists b, b ∈ m /\ key_of h b = key_of h a) /\
    (forall i a b, m !! i = Some a -> m !! S i = Some b ->
                   strcmp (key_of h a) (key_of h b) < 0) /\
    NoDup (map (key_of h) m).
Proof.
  intros Q T C Hlen.
  destruct (q_delete_dup_spec (key_of h) fuel h head l Q (texts_ok_key h l T) Hlen)
    as (h' & m & E & Pm & Sm & Q' & T').
  pose proof (c_strings_perm h l m Pm C) as Cm.
  pose proof (drop_dups_ascending (key_of h) m Cm Sm) as A.
  exists h', (drop_dups (key_of h) m).
  split; [exact E|]. split; [exact Q'|]. split; [|split; [|split]].
  - intros a Ha. assert (a ∈ l) as Hal.
    { rewrite Pm. eapply drop_dups_subset. exact Ha. }
    split; [exact Hal|]. rewrite (T' a Ha). symmetry.
    apply (texts_ok_key h l T a Hal).
  - intros a Ha. apply (drop_dups_keeps (key_of h) m Cm). rewrite <- Pm. exact Ha.
  - intros i a b. apply ascending_by_lookup. exact A.
  - apply ascending_by_NoDup. exact A.
Qed.

Lemma q_delete_dup_leaves_distinct_witness :
  exists h' m,
    q_delete_dup 4 1 demo_heap = Done true h' /\ queue h' 1 m /\
    (forall a, a ∈ m -> a ∈ [2; 3; 4] /\ txt h' a = txt demo_heap a) /\
    (forall a, a ∈ [2; 3; 4] ->
               exists b, b ∈ m /\ key_of demo_heap b = key_of demo_heap a) /\
    (forall i a b, m !! i = Some a -> m !! S i = Some b ->
                   strcmp (key_of demo_heap a) (key_of demo_heap b) < 0) /\
    NoDup (map (key_of demo_heap) m).
Proof.
  refine (q_delete_dup_leaves_distinct 4 demo_heap 1 [2; 3; 4] _ _ _ _).
  - solve_ring.
  - solve_texts.
  - compute_done.
  - simpl. lia.
Defined.

(** ** q_free: exactly the storage of the queue *)

Lemma heap_eq h h' :
  (forall a, links h' !! a = links h !! a) ->
  (forall a, values h' !! a = values h !! a) -> h' = h.
Proof.
  destruct h as [lk vs], h' as [lk' vs']. simpl. intros HL HV.
  f_equal; apply map_eq; assumption.
Qed.

Lemma q_free_run fuel h head l :
  queue h head l -> texts_ok h l -> (length l <= fuel)%nat ->
  exists h', q_free fuel head h = Done tt h' /\
    (forall a, a ∈ head :: l -> links h' !! a = None) /\
    (forall a, a ∈ l -> values h' !! a = None) /\
    (forall a, a ∉ head :: l -> links h' !! a = links h !! a) /\
    (forall a, a ∉ l -> values h' !! a = values h !! a).
Proof.
  intros Q T Hlen.
  pose proof (queue_head_nonnull _ _ _ Q) as Hh.
  pose proof (ring_nxt h [] head l Q) as N. rewrite app_nil_r in N.
  pose proof Q as (Hnd & _ & Cn & _).
  apply cycle_cons in Cn as (n & Hn & C).
  assert (n = hd head l) as -> by congruence.
  assert (exists v, nxt h (hd head l) = Some v /\
                    (l <> [] -> v = hd head (tl l))) as (v & Nv & Hv).
  { destruct l as [|x t]; simpl.
    - exists head. split; [exact N|congruence].
    - destruct (ring_step h head [] x t Q) as [_ Nx]. eauto. }
  assert (live h head) as Lh by (eapply nxt_live; exact N).
  destruct (q_free_loop_spec fuel l h head (hd head l) v C Hnd) as (h1 & E1 & D1 & K1);
    auto.
  { intros a Ha. unfold texts_ok in T. rewrite Forall_forall in T.
    destruct (T a Ha) as [s Hs]. eapply txt_values, Hs. }
  pose proof (queue_head_notin _ _ _ Q) as Hhl.
  destruct (K1 head Hhl) as [KL KV].
  destruct Lh as [nh Lh].
  exists (Heap (delete head (links h1)) (values h1)).
  split; [|split; [|split; [|split]]].
  - unfold q_free. rewrite (eqb_ne head NULL Hh).
    rewrite (bind_Done _ _ _ _ _ (get_next_Done _ _ _ N)).
    rewrite (bind_Done _ _ _ _ _ (get_next_Done _ _ _ Nv)).
    rewrite (bind_Done _ _ _ _ _ E1).
    unfold free_list_head. rewrite KL, Lh. reflexivity.
  - intros a Ha. simpl. apply elem_of_cons in Ha as [->|Ha].
    + apply lookup_delete_eq.
    + rewrite lookup_delete_ne by (intros ->; auto). apply D1, Ha.
  - intros a Ha. simpl. apply D1, Ha.
  - intros a Ha. simpl.
    rewrite lookup_delete_ne by (intros ->; apply Ha; left).
    apply K1. intros H. apply Ha. right. exact H.
  - intros a Ha. simpl. apply K1, Ha.
Qed.

(** X7. [q_free] frees exactly the storage of the queue: afterwards the
    sentinel and every element are gone together with the elements'
    strings, and every other block, live or not, is as it was; a null queue
    is left alone. *)
Theorem q_free_releases_queue_only
  (fuel : nat) (h : heap) (head : Z) (l : list Z) :
  queue h head l -> texts_ok h l -> (length l <= fuel)%nat ->
  (exists h', q_free fuel head h = Done tt h' /\
     dom (links h') = dom (links h) ∖ list_to_set (head :: l) /\
     dom (values h') = dom (values h) ∖ list_to_set l /\
     (forall a, a ∉ head :: l -> links h' !! a = links h !! a) /\
     (forall a, a ∉ l -> values h' !! a = values h !! a)) /\
  q_free fuel NULL h = Done tt h.
Proof.
  intros Q T Hlen. split; [|reflexivity].
  destruct (q_free_run fuel h head l Q T Hlen) as (h' & E & DL & DV & FL & FV).
  exists h'. split; [exact E|]. split; [|split; [|split; assumption]].
  - apply set_eq. intros a. rewrite elem_of_difference, elem_of_list_to_set.
    rewrite !elem_of_dom.
    destruct (decide (a ∈ head :: l)) as [Ha|Ha].
    + rewrite (DL a Ha). split; [intros [? ?]; discriminate|tauto].
    + rewrite (FL a Ha). tauto.
  - apply set_eq. intros a. rewrite elem_of_difference, elem_of_list_to_set.
    rewrite !elem_of_dom.
    destruct (decide (a ∈ l)) as [Ha|Ha].
    + rewrite (DV a Ha). split; [intros [? ?]; discriminate|tauto].
    + rewrite (FV a Ha). tauto.
Qed.

Lemma q_free_releases_queue_only_witness :
  (exists h', q_free 3 1 demo_heap = Done tt h' /\
     dom (links h') = dom (links demo_heap) ∖ list_to_set (1 :: [2; 3; 4]) /\
     dom (values h') = dom (values demo_heap) ∖ list_to_set [2; 3; 4] /\
     (forall a, a ∉ 1 :: [2; 3; 4] -> links h' !! a = links demo_heap !! a) /\
     (forall a, a ∉ [2; 3; 4] -> values h' !! a = values demo_heap !! a)) /\
  q_free 3 NULL demo_heap = Done tt demo_heap.
Proof.
  refine (q_free_releases_queue_only 3 demo_heap 1 [2; 3; 4] _ _ _).
  - solve_ring.
  - solve_texts.
  - simpl. lia.
Defined.

(** ** Building a queue from nothing *)

Lemma q_insert_all_spec strs : forall h head l,
  queue h head l -> texts_ok h l ->
  exists h' l',
    q_insert_all head strs h = Done tt h' /\ queue h' head (l ++ l') /\
    texts_ok h' (l ++ l') /\ map (key_of h') l' = strs /\
    (forall a, a ∈ l -> txt h' a = txt h a) /\
    (forall a, a ∈ l' -> links h !! a = None /\ values h !! a = None) /\
    (forall a, a ∉ l' -> values h' !! a = values h !! a) /\
    (forall a, a ∉ head :: l ++ l' -> links h' !! a = links h !! a).
Proof.
  induction strs as [|s strs IH]; intros h head l Q T.
  - exists h, []. rewrite app_nil_r. simpl.
    split; [reflexivity|]. split; [exact Q|]. split; [exact T|].
    split; [reflexivity|]. split; [reflexivity|].
    split; [intros a Ha; inversion Ha|auto].
  - destruct (q_insert_tail_frame h head l s Q) as (h1 & E1 & Q1 & V1 & D1 & F1).
    set (p := fresh_addr h) in *.
    pose proof (insert_fresh_notin h head l Q) as Hp. fold p in Hp.
    assert (forall a, a <> p -> txt h1 a = txt h a) as Tx.
    { intros a Ha. unfold txt. rewrite V1, lookup_insert_ne by congruence.
      reflexivity. }
    assert (txt h1 p = Some s) as Tp.
    { unfold txt. rewrite V1, lookup_insert_eq. reflexivity. }
    assert (texts_ok h1 (l ++ [p])) as T1.
    { unfold texts_ok in *. apply Forall_app. split.
      - rewrite Forall_forall in T |- *. intros a Ha. rewrite Tx; [apply T, Ha|].
        intros ->. apply Hp. right. exact Ha.
      - apply Forall_cons. split; [|apply Forall_nil_2]. rewrite Tp. eauto. }
    destruct (IH h1 head (l ++ [p]) Q1 T1)
      as (h' & l' & E' & Q' & T' & M' & K' & N' & FV' & FL').
    rewrite <- app_assoc in Q', T', FL'. simpl in Q', T', FL'.
    exists h', (p :: l'). split; [|split; [exact Q'|split; [exact T'|]]].
    { simpl. rewrite (bind_Done _ _ _ _ _ E1). exact E'. }
    split; [|split; [|split; [|split]]].
    + simpl. f_equal; [|exact M']. unfold key_of.
      rewrite K' by (apply elem_of_app; right; left). rewrite Tp. reflexivity.
    + intros a Ha. rewrite K' by (apply elem_of_app; left; exact Ha).
      apply Tx. intros ->. apply Hp. right. exact Ha.
    + intros a Ha. apply elem_of_cons in Ha as [->|Ha].
      * split; [apply fresh_addr_links|apply fresh_addr_values].
      * destruct (N' a Ha) as [NL NV]. split.
        { apply not_elem_of_dom. apply not_elem_of_dom in NL. rewrite D1 in NL.
          set_solver. }
        { rewrite V1 in NV. destruct (decide (a = p)) as [->|Hap].
          - rewrite lookup_insert_eq in NV. discriminate.
          - rewrite lookup_insert_ne in NV by congruence. exact NV. }
    + intros a Ha. rewrite FV' by (intros H; apply Ha; right; exact H).
      rewrite V1. apply lookup_insert_ne. intros <-. apply Ha. left.
    + intros a Ha. rewrite FL' by exact Ha. apply F1.
      intros H. apply Ha. rewrite app_comm_cons.
      apply elem_of_cons in H as [->|H].
      * apply elem_of_app. right. left.
      * apply elem_of_app. left. exact H.
Qed.

Lemma q_of_list_spec strs h :
  exists h' l,
    q_of_list strs h = Done (fresh_addr h) h' /\ queue h' (fresh_addr h) l /\
    texts_ok h' l /\ map (key_of h') l = strs /\
    (forall a, a ∈ fresh_addr h :: l -> links h !! a = None) /\
    (forall a, a ∈ l -> values h !! a = None) /\
    (forall a, a ∉ l -> values h' !! a = values h !! a) /\
    (forall a, a ∉ fresh_addr h :: l -> links h' !! a = links h !! a).
Proof.
  destruct (q_new_spec h) as (h0 & E0 & Q0 & V0 & F0).
  set (p := fresh_addr h) in *.
  destruct (q_insert_all_spec strs h0 p [] Q0 ltac:(apply Forall_nil_2))
    as (h' & l & E' & Q' & T' & M' & _ & N' & FV' & FL').
  simpl in Q', T', FL'.
  pose proof (queue_head_notin _ _ _ Q') as Hpl.
  exists h', l. split; [|split; [exact Q'|split; [exact T'|split; [exact M'|]]]].
  { unfold q_of_list. rewrite (bind_Done _ _ _ _ _ E0).
    rewrite (bind_Done _ _ _ _ _ E'). reflexivity. }
  split; [|split; [|split]].
  - intros a Ha. apply elem_of_cons in Ha as [->|Ha]; [apply fresh_addr_links|].
    rewrite <- F0 by (intros ->; auto). apply N', Ha.
  - intros a Ha. rewrite <- V0. apply N', Ha.
  - intros a Ha. rewrite FV' by exact Ha. rewrite V0. reflexivity.
  - intros a Ha. rewrite FL' by exact Ha. apply F0. intros ->. apply Ha. left.
Qed.

(** X8. No leak: creating a queue with [q_new], filling it with any strings
    by [q_insert_tail] and freeing it with [q_free] gives back the heap as
    it was before, whatever it held; with no string this is [q_new] followed
    at once by [q_free]. *)
Theorem q_new_fill_free_restores_heap
  (fuel : nat) (h : heap) (strs : list string) :
  (length strs <= fuel)%nat ->
  (head <- q_of_list strs ;; q_free fuel head) h = Done tt h /\
  (head <- q_new true ;; q_free fuel head) h = Done tt h.
Proof.
  intros Hlen.
  assert (forall ss, (length ss <= fuel)%nat ->
                     (head <- q_of_list ss ;; q_free fuel head) h = Done tt h) as K.
  { intros ss Hss.
    destruct (q_of_list_spec ss h) as (h1 & l & E1 & Q1 & T1 & M1 & NL & NV & FV & FL).
    assert (length l <= fuel)%nat as Hl.
    { rewrite <- M1 in Hss. rewrite length_map in Hss. exact Hss. }
    destruct (q_free_run fuel h1 _ l Q1 T1 Hl) as (h2 & E2 & DL & DV & FL2 & FV2).
    rewrite (bind_Done _ _ _ _ _ E1), E2. f_equal.
    apply heap_eq; intros a.
    - destruct (decide (a ∈ fresh_addr h :: l)) as [Ha|Ha].
      + rewrite (DL a Ha), (NL a Ha). reflexivity.
      + rewrite (FL2 a Ha). apply FL, Ha.
    - destruct (decide (a ∈ l)) as [Ha|Ha].
      + rewrite (DV a Ha), (NV a Ha). reflexivity.
      + rewrite (FV2 a Ha). apply FV, Ha. }
  split; [apply K, Hlen|].
  specialize (K [] ltac:(simpl; lia)). unfold q_of_list in K. simpl in K.
  rewrite <- K. unfold bind, ret. destruct (q_new true h); reflexivity.
Qed.

Lemma q_new_fill_free_restores_heap_witness :
  (head <- q_of_list ["c"; "a"]%string ;; q_free 2 head) demo_heap
    = Done tt demo_heap /\
  (head <- q_new true ;; q_free 2 head) demo_heap = Done tt demo_heap.
Proof.
  refine (q_new_fill_free_restores_heap 2 demo_heap ["c"; "a"]%string _).
  simpl. lia.
Defined.

(** X9. First in, first out: a queue filled by successive [q_insert_tail]
    holds as many elements as strings were inserted (as long as that number
    fits the [int] counter of [q_size]), and a traversal from the head reads
    the strings in the order of insertion; [q_remove_head], with a null
    buffer or one of at least [bufsize >= 1] bytes, then hands out the
    element of the string inserted first, copies that string to the buffer
    as [copy_out] does, and leaves the other strings in their order. *)
Theorem q_insert_tail_fifo (fuel : nat) (h : heap) (strs : list string) :
  (length strs <= fuel)%nat -> Z.of_nat (length strs) <= INT_MAX ->
  exists head h' l,
    q_of_list strs h = Done head h' /\ queue h' head l /\
    q_size fuel head h' = Done (Z.of_nat (length strs)) h' /\
    q_texts fuel head h' = Done strs h' /\
    (forall s rest sp bufsize, strs = s :: rest -> buffer_ok sp bufsize ->
       exists x sp' h'',
         q_remove_head head sp bufsize h' = Done (x, sp') h'' /\
         copy_out sp s bufsize = Some sp' /\
         txt h'' x = Some s /\
         q_texts fuel head h'' = Done rest h'').
Proof.
  intros Hlen Hmax.
  destruct (q_of_list_spec strs h) as (h' & l & E & Q & T & M & _).
  assert (length l = length strs) as Hl by (rewrite <- M, length_map; reflexivity).
  exists (fresh_addr h), h', l. split; [exact E|]. split; [exact Q|].
  split; [|split].
  - rewrite <- Hl. apply q_size_spec; [exact Q|lia|lia].
  - rewrite <- M. apply q_texts_spec; [exact Q|apply texts_ok_key, T|lia].
  - intros s rest sp bufsize -> B. destruct l as [|x t]; [discriminate|].
    simpl in M. injection M as Mx Mt.
    pose proof (texts_ok_key h' _ T x ltac:(left)) as Hx. rewrite Mx in Hx.
    destruct (q_remove_head_run h' _ x t sp bufsize s Q Hx B)
      as (h'' & sp' & E'' & C'' & _ & Q'' & _ & _ & [_ SV] & _).
    assert (forall a, txt h'' a = txt h' a) as Tx
      by (intros a; unfold txt; rewrite SV; reflexivity).
    exists x, sp', h''. split; [exact E''|]. split; [exact C''|]. split.
    + rewrite Tx. exact Hx.
    + rewrite <- Mt. apply (q_texts_spec (key_of h')); [exact Q''| |simpl in Hl, Hlen; lia].
      intros a Ha. rewrite Tx. apply (texts_ok_key h' _ T). right. exact Ha.
Qed.

Lemma q_insert_tail_fifo_witness :
  exists head h' l,
    q_of_list ["c"; "a"]%string demo_heap = Done head h' /\ queue h' head l /\
    q_size 2 head h' = Done (Z.of_nat (length ["c"; "a"]%string)) h' /\
    q_texts 2 head h' = Done ["c"; "a"]%string h' /\
    (forall s rest sp bufsize,
       ["c"; "a"]%string = s :: rest -> buffer_ok sp bufsize ->
       exists x sp' h'',
         q_remove_head head sp bufsize h' = Done (x, sp') h'' /\
         copy_out sp s bufsize = Some sp' /\
         txt h'' x = Some s /\
         q_texts 2 head h'' = Done rest h'').
Proof.
  refine (q_insert_tail_fifo 2 demo_heap ["c"; "a"]%string _ _).
  - simpl. lia.
  - vm_compute. discriminate.
Defined.

(** ** mergeTwoLists and mergesort on null-terminated chains *)

Lemma merge_lists_sublist key la : forall lb,
  sublist la (merge_lists key la lb) /\ sublist lb (merge_lists key la lb).
Proof.
  induction la as [|a la IHa]; intros lb.
  - rewrite merge_lists_nil_l. split; [apply sublist_nil_l|reflexivity].
  - induction lb as [|b lb IHb].
    + rewrite merge_lists_nil_r. split; [reflexivity|apply sublist_nil_l].
    + rewrite merge_lists_cons. destruct (lt_key key a b).
      * destruct (IHa (b :: lb)) as [H1 H2].
        split; [apply sublist_skip, H1|apply sublist_cons, H2].
      * destruct IHb as [H1 H2].
        split; [apply sublist_cons, H1|apply sublist_skip, H2].
Qed.

Lemma lseg_nil_inv f p q : lseg f p [] q -> p = q.
Proof. simpl. auto. Qed.

(** X10. [mergeTwoLists] merges two ascending null-terminated chains of
    distinct nodes into one ascending null-terminated chain of the same
    nodes and returns its first node; the nodes of each chain keep their
    relative order, no [prev] link and no string is written, nothing is
    allocated or freed, and no node outside the chains is touched.  When
    one chain is empty the other is returned and the heap is unchanged. *)
Theorem mergeTwoLists_merges_chains
  (fuel : nat) (h : heap) (left right : Z) (la lb : list Z) :
  lseg (nxt h) left la 0 -> lseg (nxt h) right lb 0 ->
  NoDup (la ++ lb) -> (0 ∉ la ++ lb) -> texts_ok h (la ++ lb) ->
  sorted_by (key_of h) la -> sorted_by (key_of h) lb ->
  (length la + length lb <= fuel)%nat ->
  exists h' m,
    mergeTwoLists fuel left right h = Done (hd 0 m) h' /\
    lseg (nxt h') (hd 0 m) m 0 /\
    Permutation (la ++ lb) m /\ sorted_by (key_of h) m /\
    sublist la m /\ sublist lb m /\
    (forall a, a ∉ la ++ lb -> nxt h' a = nxt h a) /\
    (forall a, prv h' a = prv h a) /\ same_blocks h h' /\
    (la = [] \/ lb = [] -> hd 0 m = Z.lor left right /\ h' = h).
Proof.
  intros Ca Cb Hnd H0 T Sa Sb Hlen.
  destruct (mergeTwoLists_loop_spec (key_of h) fuel la lb h left right
              NULL LocalHead Ca Cb Hnd H0 (texts_ok_key h _ T) Hlen I)
    as (h' & r & E & Hh & C & Fn & Fp & S).
  simpl in Hh. subst r.
  exists h', (merge_lists (key_of h) la lb).
  split; [exact E|]. split; [exact C|].
  split; [apply merge_lists_perm|].
  split; [apply merge_lists_sorted; assumption|].
  split; [apply merge_lists_sublist|]. split; [apply merge_lists_sublist|].
  split; [intros a Ha; apply Fn; [exact Ha|exact I]|].
  split; [exact Fp|]. split; [exact S|].
  intros Hnil.
  assert (mergeTwoLists fuel left right h = Done (Z.lor left right) h) as E'.
  { unfold mergeTwoLists.
    assert ((left =? NULL) || (right =? NULL) = true) as Hz.
    { destruct Hnil as [-> | ->].
      - apply lseg_nil_inv in Ca. subst left. reflexivity.
      - apply lseg_nil_inv in Cb. subst right. apply orb_true_r. }
    destruct fuel; simpl; rewrite Hz; reflexivity. }
  unfold mergeTwoLists in E'. rewrite E' in E. injection E as E1 E2. auto.
Qed.

Lemma mergeTwoLists_merges_chains_witness :
  exists h' m,
    mergeTwoLists 3 2 3 (upd_next 4 0 (upd_next 2 0 demo_heap)) = Done (hd 0 m) h' /\
    lseg (nxt h') (hd 0 m) m 0 /\
    Permutation ([2] ++ [3; 4]) m /\
    sorted_by (key_of (upd_next 4 0 (upd_next 2 0 demo_heap))) m /\
    sublist [2] m /\ sublist [3; 4] m /\
    (forall a, a ∉ [2] ++ [3; 4] ->
               nxt h' a = nxt (upd_next 4 0 (upd_next 2 0 demo_heap)) a) /\
    (forall a, prv h' a = prv (upd_next 4 0 (upd_next 2 0 demo_heap)) a) /\
    same_blocks (upd_next 4 0 (upd_next 2 0 demo_heap)) h' /\
    ([2] = [] \/ [3; 4] = [] ->
     hd 0 m = Z.lor 2 3 /\ h' = upd_next 4 0 (upd_next 2 0 demo_heap)).
Proof.
  refine (mergeTwoLists_merges_chains 3 (upd_next 4 0 (upd_next 2 0 demo_heap))
            2 3 [2] [3; 4] _ _ _ _ _ _ _ _).
  - solve_lseg.
  - solve_lseg.
  - compute_done.
  - compute_done.
  - solve_texts.
  - exact I.
  - simpl. split; [|exact I]. vm_compute. discriminate.
  - simpl. lia.
Defined.

(** X11. [mergesort] turns a null-terminated chain of distinct nodes, whose
    [prev] links inside the chain lead to the predecessor, into an
    ascending null-terminated chain of the same nodes and returns its first
    node; no [prev] link and no string is written, nothing is allocated or
    freed, and no node outside the chain is touched.  A chain of at most
    one node is returned as it is, with the heap unchanged. *)
Theorem mergesort_sorts_chain (fuel : nat) (h : heap) (head : Z) (l : list Z) :
  lseg (nxt h) head l 0 -> NoDup l -> (0 ∉ l) -> texts_ok h l ->
  plinks h l -> (length l < fuel)%nat ->
  exists h' m,
    mergesort fuel head h = Done (hd 0 m) h' /\
    lseg (nxt h') (hd 0 m) m 0 /\
    Permutation l m /\ sorted_by (key_of h) m /\
    (forall a, a ∉ l -> nxt h' a = nxt h a) /\
    (forall a, prv h' a = prv h a) /\ same_blocks h h' /\
    ((length l <= 1)%nat -> hd 0 m = head /\ h' = h).
Proof.
  intros C Hnd H0 T P Hlen.
  destruct (mergesort_spec (key_of h) fuel l h head C Hnd H0
              (texts_ok_key h l T) P Hlen)
    as (h' & m & E & Pm & Sm & C' & Fn & Fp & S).
  exists h', m. repeat (split; [assumption|]).
  intros Hl.
  assert (mergesort fuel head h = Done head h) as E'.
  { destruct fuel as [|fuel]; [lia|]. simpl.
    destruct l as [|x [|y t]]; [| |simpl in Hl; lia].
    - apply lseg_nil_inv in C. subst head. reflexivity.
    - apply lseg_cons_inv in C as (-> & Nx & _). simpl in Nx.
      rewrite (eqb_ne x NULL) by (intros ->; apply H0; left).
      rewrite (bind_Done _ _ _ _ _ (get_next_Done _ _ _ Nx)). reflexivity. }
  rewrite E' in E. injection E as E1 E2. auto.
Qed.

Lemma mergesort_sorts_chain_witness :
  exists h' m,
    mergesort 4 2 (upd_next 4 0 demo_heap) = Done (hd 0 m) h' /\
    lseg (nxt h') (hd 0 m) m 0 /\
    Permutation [2; 3; 4] m /\ sorted_by (key_of (upd_next 4 0 demo_heap)) m /\
    (forall a, a ∉ [2; 3; 4] -> nxt h' a = nxt (upd_next 4 0 demo_heap) a) /\
    (forall a, prv h' a = prv (upd_next 4 0 demo_heap) a) /\
    same_blocks (upd_next 4 0 demo_heap) h' /\
    ((length [2; 3; 4] <= 1)%nat -> hd 0 m = 2 /\ h' = upd_next 4 0 demo_heap).
Proof.
  refine (mergesort_sorts_chain 4 (upd_next 4 0 demo_heap) 2 [2; 3; 4] _ _ _ _ _ _).
  - solve_lseg.
  - compute_done.
  - compute_done.
  - solve_texts.
  - simpl. repeat split; vm_compute; reflexivity.
  - simpl. lia.
Defined.

(** ** q_sort on a queue that is already in order *)

Section SortedUnique.
Variable key : Z -> string.

Lemma sorted_by_head_le l : forall x,
  Forall (fun a => c_string (key a)) (x :: l) -> sorted_by key (x :: l) ->
  forall b, b ∈ l -> strcmp (key x) (key b) <= 0.
Proof.
  induction l as [|y t IH]; intros x Hc Hs b Hb; [inversion Hb|].
  destruct Hs as [Hxy Hs].
  apply elem_of_cons in Hb as [->|Hb]; [exact Hxy|].
  apply Forall_cons in Hc as [Cx Hc].
  pose proof (IH y Hc Hs b Hb) as Hyb.
  pose proof Hc as Hc'. apply Forall_cons in Hc' as [Cy Ct].
  rewrite Forall_forall in Ct.
  apply (strcmp_le_trans (key x) (key y) (key b)); auto.
Qed.

Lemma sorted_by_tl x l : sorted_by key (x :: l) -> sorted_by key l.
Proof. destruct l; simpl; tauto. Qed.

Lemma sorted_by_min x l k :
  Forall (fun a => c_string (key a)) (x :: l) -> sorted_by key (x :: l) ->
  k ∈ map key (x :: l) -> strcmp (key x) k <= 0.
Proof.
  intros Hc Hs Hk.
  apply list_elem_of_In, in_map_iff in Hk as (b & <- & Hb).
  apply list_elem_of_In, elem_of_cons in Hb as [->|Hb].
  - rewrite strcmp_same. lia.
  - apply (sorted_by_head_le l x Hc Hs b Hb).
Qed.

(** Two ascending sequences with the same strings, counted with
    multiplicity, carry them in the same order. *)
Lemma sorted_perm_keys l : forall m,
  Forall (fun a => c_string (key a)) l -> Forall (fun a => c_string (key a)) m ->
  sorted_by key l -> sorted_by key m ->
  Permutation (map key l) (map key m) -> map key l = map key m.
Proof.
  induction l as [|a t IH]; intros m Cl Cm Sl Sm P.
  - simpl in P. apply Permutation_nil in P. rewrite P. reflexivity.
  - destruct m as [|b u].
    { symmetry in P. apply Permutation_nil in P. discriminate. }
    assert (strcmp (key a) (key b) <= 0) as Hab.
    { apply (sorted_by_min a t); [exact Cl|exact Sl|]. rewrite P. left. }
    assert (strcmp (key b) (key a) <= 0) as Hba.
    { apply (sorted_by_min b u); [exact Cm|exact Sm|]. rewrite <- P. left. }
    apply Forall_cons in Cl as [Ca Ct]. apply Forall_cons in Cm as [Cb Cu].
    assert (key a = key b) as Hk.
    { apply strcmp_eq; [exact Ca|exact Cb|].
      rewrite (strcmp_antisym (key a) (key b)) in Hba. lia. }
    simpl in P |- *. rewrite Hk in P |- *. f_equal.
    apply Permutation_cons_inv in P.
    apply IH; [exact Ct|exact Cu|eapply sorted_by_tl, Sl|eapply sorted_by_tl, Sm|exact P].
Qed.
End SortedUnique.

Lemma key_of_same_values h h' : values h' = values h -> key_of h' = key_of h.
Proof. intros E. unfold key_of, txt. rewrite E. reflexivity. Qed.

Lemma q_sort_sorted_texts fuel h head l :
  queue h head l -> texts_ok h l -> c_strings h l ->
  sorted_by (key_of h) l -> (length l < fuel)%nat ->
  exists h' m, q_sort fuel head h = Done tt h' /\ queue h' head m /\
               Permutation l m /\ same_blocks h h' /\
               map (key_of h) m = map (key_of h) l /\
               q_texts fuel head h' = Done (map (key_of h) l) h'.
Proof.
  intros Q T C Sl Hlen.
  destruct (q_sort_spec (key_of h) fuel h head l Q (texts_ok_key h l T) Hlen)
    as (h' & m & E & Q' & Pm & Sm & SB).
  assert (map (key_of h) m = map (key_of h) l) as Hm.
  { symmetry. apply sorted_perm_keys; [exact C| |exact Sl|exact Sm|].
    - apply (c_strings_perm h l m Pm C).
    - apply Permutation_map, Pm. }
  exists h', m. repeat (split; [assumption|]).
  rewrite <- Hm. apply q_texts_spec; [exact Q'| |].
  - intros a Ha. destruct SB as [_ SV]. unfold txt at 1. rewrite SV.
    apply (texts_ok_key h l T). rewrite Pm. exact Ha.
  - rewrite <- Pm. lia.
Qed.

(** X12. [q_sort] is idempotent on the strings: a queue whose strings are
    already in ascending order reads the same strings in the same order
    after [q_sort], and sorting a queue twice reads the same as sorting it
    once. *)
Theorem q_sort_idempotent (fuel : nat) (h : heap) (head : Z) (l : list Z) :
  queue h head l -> texts_ok h l -> c_strings h l -> (length l < fuel)%nat ->
  (sorted_by (key_of h) l ->
   exists h', q_sort fuel head h = Done tt h' /\
              q_texts fuel head h = Done (map (key_of h) l) h /\
              q_texts fuel head h' = Done (map (key_of h) l) h') /\
  (exists h1 h2 ts,
     q_sort fuel head h = Done tt h1 /\ q_texts fuel head h1 = Done ts h1 /\
     q_sort fuel head h1 = Done tt h2 /\ q_texts fuel head h2 = Done ts h2).
Proof.
  intros Q T C Hlen. split.
  - intros Sl.
    destruct (q_sort_sorted_texts fuel h head l Q T C Sl Hlen)
      as (h' & m & E & _ & _ & _ & _ & R).
    exists h'. split; [exact E|]. split; [|exact R].
    apply q_texts_spec; [exact Q|apply texts_ok_key, T|lia].
  - destruct (q_sort_spec (key_of h) fuel h head l Q (texts_ok_key h l T) Hlen)
      as (h1 & m & E1 & Q1 & Pm & Sm & [_ SV]).
    pose proof (key_of_same_values h h1 SV) as K.
    assert (texts_ok h1 m) as T1.
    { unfold texts_ok, txt. rewrite SV, <- Pm. exact T. }
    assert (c_strings h1 m) as C1.
    { unfold c_strings. rewrite K, <- Pm. exact C. }
    assert (sorted_by (key_of h1) m) as S1 by (rewrite K; exact Sm).
    assert (length m < fuel)%nat as Hm by (rewrite <- Pm; exact Hlen).
    destruct (q_sort_sorted_texts fuel h1 head m Q1 T1 C1 S1 Hm)
      as (h2 & m2 & E2 & _ & _ & _ & _ & R2).
    exists h1, h2, (map (key_of h1) m).
    split; [exact E1|]. split; [|split; [exact E2|exact R2]].
    apply q_texts_spec; [exact Q1|apply texts_ok_key, T1|lia].
Qed.

Lemma q_sort_idempotent_witness :
  (exists h', q_sort 3 1 tie_heap = Done tt h' /\
              q_texts 3 1 tie_heap = Done (map (key_of tie_heap) [2; 3]) tie_heap /\
              q_texts 3 1 h' = Done (map (key_of tie_heap) [2; 3]) h') /\
  (exists h1 h2 ts,
     q_sort 3 1 tie_heap = Done tt h1 /\ q_texts 3 1 h1 = Done ts h1 /\
     q_sort 3 1 h1 = Done tt h2 /\ q_texts 3 1 h2 = Done ts h2).
Proof.
  assert (queue tie_heap 1 [2; 3]) as Q by solve_ring.
  assert (texts_ok tie_heap [2; 3]) as T by solve_texts.
  assert (c_strings tie_heap [2; 3]) as C by compute_done.
  assert (length [2; 3] < 3)%nat as L by (simpl; lia).
  destruct (q_sort_idempotent 3 tie_heap 1 [2; 3] Q T C L) as [A B].
  split; [apply A|exact B].
  simpl. split; [|exact I]. vm_compute. discriminate.
Defined.

(** ** Null and empty queues *)

(** X13. On an empty queue every operation of [queue.c] that takes a queue
    returns its neutral result and leaves the heap exactly as it was, for
    any loop bound: [q_size] gives 0, [q_remove_head] and [q_remove_tail]
    give [NULL] and do not touch the buffer, [q_delete_mid] gives false,
    [q_delete_dup] gives true, and [q_swap], [q_reverse] and [q_sort] do
    nothing.  The same holds for a null queue, where [q_delete_dup] gives
    false, [q_insert_head] and [q_insert_tail] give false before
    allocating anything, and [q_free] does nothing. *)
Theorem empty_and_null_queue_neutral (fuel : nat) (h : heap) (head : Z) :
  queue h head [] ->
  (q_size fuel head h = Done 0 h /\
   (forall sp bufsize,
      q_remove_head head sp bufsize h = Done (NULL, sp) h /\
      q_remove_tail head sp bufsize h = Done (NULL, sp) h) /\
   q_delete_mid fuel head h = Done false h /\
   q_delete_dup fuel head h = Done true h /\
   q_swap fuel head h = Done tt h /\
   q_reverse fuel head h = Done tt h /\
   q_sort fuel head h = Done tt h) /\
  (q_size fuel NULL h = Done 0 h /\
   (forall sp bufsize,
      q_remove_head NULL sp bufsize h = Done (NULL, sp) h /\
      q_remove_tail NULL sp bufsize h = Done (NULL, sp) h) /\
   q_delete_mid fuel NULL h = Done false h /\
   q_delete_dup fuel NULL h = Done false h /\
   q_swap fuel NULL h = Done tt h /\
   q_reverse fuel NULL h = Done tt h /\
   q_sort fuel NULL h = Done tt h /\
   (forall ok_elem ok_str s,
      q_insert_head ok_elem ok_str NULL s h = Done false h /\
      q_insert_tail ok_elem ok_str NULL s h = Done false h) /\
   q_free fuel NULL h = Done tt h).
Proof.
  intros Q. split; [|repeat split].
  pose proof (queue_head_nonnull _ _ _ Q) as Hh.
  pose proof (ring_nxt h [] head [] Q) as N. simpl in N.
  pose proof (list_empty_spec _ _ _ Q) as LE.
  pose proof (q_sort_empty fuel h head Q) as ES.
  split; [|split; [|split; [|split; [|split; [|split]]]]].
  - apply (q_size_spec fuel h head [] Q); simpl; unfold INT_MAX; lia.
  - intros sp bufsize. apply q_remove_empty, Q.
  - unfold q_delete_mid. rewrite (eqb_ne head NULL Hh).
    rewrite (bind_Done _ _ _ _ _ LE). reflexivity.
  - unfold q_delete_dup. rewrite (eqb_ne head NULL Hh).
    rewrite (bind_Done _ _ _ _ _ ES).
    rewrite (bind_Done _ _ _ _ _ (get_next_Done _ _ _ N)).
    rewrite (bind_Done _ _ _ _ _ (get_next_Done _ _ _ N)).
    destruct fuel; simpl; rewrite Z.eqb_refl; reflexivity.
  - unfold q_swap. rewrite (eqb_ne head NULL Hh).
    rewrite (bind_Done _ _ _ _ _ (get_next_Done _ _ _ N)).
    destruct fuel; simpl; rewrite Z.eqb_refl; reflexivity.
  - unfold q_reverse. rewrite (eqb_ne head NULL Hh).
    rewrite (bind_Done _ _ _ _ _ LE). reflexivity.
  - exact ES.
Qed.

Lemma empty_and_null_queue_neutral_witness :
  (q_size 0 1 new_heap = Done 0 new_heap /\
   (forall sp bufsize,
      q_remove_head 1 sp bufsize new_heap = Done (NULL, sp) new_heap /\
      q_remove_tail 1 sp bufsize new_heap = Done (NULL, sp) new_heap) /\
   q_delete_mid 0 1 new_heap = Done false new_heap /\
   q_delete_dup 0 1 new_heap = Done true new_heap /\
   q_swap 0 1 new_heap = Done tt new_heap /\
   q_reverse 0 1 new_heap = Done tt new_heap /\
   q_sort 0 1 new_heap = Done tt new_heap) /\
  (q_size 0 NULL new_heap = Done 0 new_heap /\
   (forall sp bufsize,
      q_remove_head NULL sp bufsize new_heap = Done (NULL, sp) new_heap /\
      q_remove_tail NULL sp bufsize new_heap = Done (NULL, sp) new_heap) /\
   q_delete_mid 0 NULL new_heap = Done false new_heap /\
   q_delete_dup 0 NULL new_heap = Done false new_heap /\
   q_swap 0 NULL new_heap = Done tt new_heap /\
   q_reverse 0 NULL new_heap = Done tt new_heap /\
   q_sort 0 NULL new_heap = Done tt new_heap /\
   (forall ok_elem ok_str s,
      q_insert_head ok_elem ok_str NULL s new_heap = Done false new_heap /\
      q_insert_tail ok_elem ok_str NULL s new_heap = Done false new_heap) /\
   q_free 0 NULL new_heap = Done tt new_heap).
Proof.
  refine (empty_and_null_queue_neutral 0 new_heap 1 _).
  solve_ring.
Defined.

(** ** Rearranging in place: q_reverse, q_swap and q_sort *)

Lemma links_eq_of_nxt_prv h h' a :
  nxt h' a = nxt h a -> prv h' a = prv h a -> links h' !! a = links h !! a.
Proof.
  unfold nxt, prv.
  destruct (links h' !! a) as [[n' p']|], (links h !! a) as [[n p]|];
    simpl; congruence.
Qed.

Lemma list_move_frame h c1 x c2 d1 y d2 :
  ring h (c1 ++ x :: c2) -> c1 ++ c2 = d1 ++ y :: d2 ->
  exists h', list_move x y h = Done tt h' /\ ring h' (d1 ++ y :: x :: d2) /\
             same_blocks h h' /\
             (forall a, a ∉ x :: c1 ++ c2 -> links h' !! a = links h !! a).
Proof.
  intros R E.
  assert (c1 ++ c2 <> []) as Hne by (rewrite E; destruct d1; discriminate).
  assert (x ∉ c1 ++ c2) as Hx.
  { destruct R as (Hnd & _). apply NoDup_app in Hnd as (_ & Hd & Hnd).
    apply NoDup_cons in Hnd as [Hx2 _]. intros Hx.
    apply elem_of_app in Hx as [Hx|Hx]; [|auto]. apply (Hd x Hx). left. }
  assert (live h x) as Lx by (eapply ring_live; [exact R|set_solver]).
  assert (x <> 0) as Hx0 by (eapply ring_nonnull; [exact R|set_solver]).
  destruct (list_del_spec _ _ _ _ R Hne) as (h1 & E1 & R1 & S1 & F1).
  rewrite E in R1, Hx.
  assert (live h1 x) as Lx1 by (apply (same_blocks_live _ _ _ S1); exact Lx).
  destruct (list_add_spec _ _ _ _ _ R1 Hx Hx0 Lx1) as (h2 & E2 & R2 & S2 & F2).
  exists h2. unfold list_move. rewrite (bind_Done _ _ _ _ _ E1).
  split; [exact E2|]. split; [exact R2|].
  split; [eapply same_blocks_trans; eassumption|].
  intros a Ha. rewrite F2 by (rewrite <- E; exact Ha).
  apply F1. intros H. apply Ha. right. exact H.
Qed.

Lemma q_reverse_loop_frame fuel : forall todo acc h head node safe,
  ring h (head :: acc ++ todo) -> (length todo <= fuel)%nat ->
  node = hd head todo -> (todo <> [] -> safe = hd head (tl todo)) ->
  exists h', q_reverse_loop fuel head node safe h = Done tt h' /\
             ring h' (head :: rev todo ++ acc) /\ same_blocks h h' /\
             (forall a, a ∉ head :: acc ++ todo -> links h' !! a = links h !! a).
Proof.
  induction fuel as [|fuel IH]; intros todo acc h head node safe R Hlen Hnode Hsafe.
  - destruct todo; [|simpl in Hlen; lia]. simpl in *. subst node.
    rewrite Z.eqb_refl. exists h. rewrite app_nil_r in R.
    split; [reflexivity|]. split; [exact R|].
    split; [apply same_blocks_refl|reflexivity].
  - destruct todo as [|x t].
    + simpl in *. subst node. rewrite Z.eqb_refl. exists h.
      rewrite app_nil_r in R.
      split; [reflexivity|]. split; [exact R|].
      split; [apply same_blocks_refl|reflexivity].
    + simpl in Hnode, Hsafe, Hlen. subst node.
      specialize (Hsafe ltac:(discriminate)).
      assert (x <> head) as Hxh.
      { pose proof (queue_head_notin _ _ _ R) as Hh. set_solver. }
      simpl. rewrite (eqb_ne _ _ Hxh).
      destruct (list_move_frame h (head :: acc) x t [] head (acc ++ t) R eq_refl)
        as (h1 & E1 & R1 & S1 & F1).
      simpl in R1.
      rewrite (bind_Done _ _ _ _ _ E1).
      assert (exists s', nxt h1 safe = Some s' /\
                         (t <> [] -> s' = hd head (tl t))) as (s' & Hs' & Hs'2).
      { destruct t as [|y t'].
        - simpl in Hsafe. subst safe.
          pose proof (ring_nxt h1 [] head _ R1) as E. eexists. split; [exact E|].
          congruence.
        - simpl in Hsafe. subst safe.
          pose proof (ring_nxt h1 (head :: x :: acc) y t' R1) as E.
          eexists. split; [exact E|]. intros _. destruct t'; reflexivity. }
      rewrite (bind_Done _ _ _ _ _ (get_next_Done _ _ _ Hs')).
      destruct (IH t (x :: acc) h1 head safe s') as (h2 & E2 & R2 & S2 & F2).
      * change (head :: (x :: acc) ++ t) with (head :: x :: acc ++ t). exact R1.
      * lia.
      * exact Hsafe.
      * exact Hs'2.
      * exists h2. split; [exact E2|]. split; [|split].
        { rewrite <- app_assoc. exact R2. }
        { eapply same_blocks_trans; eassumption. }
        { intros a Ha. rewrite F2 by set_solver. apply F1. set_solver. }
Qed.

Lemma q_reverse_frame fuel h head l :
  queue h head l -> (length l <= fuel)%nat ->
  exists h', q_reverse fuel head h = Done tt h' /\ queue h' head (rev l) /\
             same_blocks h h' /\
             (forall a, a ∉ head :: l -> links h' !! a = links h !! a).
Proof.
  intros R Hlen. unfold q_reverse.
  rewrite (eqb_ne head NULL) by (eapply queue_head_nonnull; exact R).
  rewrite (bind_Done _ _ _ _ _ (list_empty_spec _ _ _ R)).
  destruct l as [|x t].
  - exists h. split; [reflexivity|]. split; [exact R|].
    split; [apply same_blocks_refl|reflexivity].
  - pose proof (ring_nxt h [] head (x :: t) R) as E. simpl in E.
    rewrite (bind_Done _ _ _ _ _ (get_next_Done _ _ _ E)).
    pose proof (ring_nxt h [head] x t R) as E2.
    rewrite (bind_Done _ _ _ _ _ (get_next_Done _ _ _ E2)).
    destruct (q_reverse_loop_frame fuel (x :: t) [] h head x (hd x (t ++ [head])))
      as (h' & E' & R' & S' & F'); auto.
    + intros _. simpl. destruct t; reflexivity.
    + exists h'. split; [exact E'|]. rewrite app_nil_r in R'. auto.
Qed.

Lemma q_swap_loop_frame fuel : forall todo acc h head node,
  ring h (head :: acc ++ todo) -> (length todo <= fuel)%nat ->
  node = hd head todo ->
  exists h', q_swap_loop fuel head node h = Done tt h' /\
             ring h' (head :: acc ++ swap_pairs todo) /\ same_blocks h h' /\
             (forall a, a ∉ head :: acc ++ todo -> links h' !! a = links h !! a).
Proof.
  induction fuel as [|fuel IH]; intros todo acc h head node R Hlen ->.
  - destruct todo; [|simpl in Hlen; lia]. simpl. rewrite Z.eqb_refl.
    exists h. split; [reflexivity|]. split; [exact R|].
    split; [apply same_blocks_refl|reflexivity].
  - destruct todo as [|a [|b t]].
    + simpl. rewrite Z.eqb_refl.
      exists h. split; [reflexivity|]. split; [exact R|].
      split; [apply same_blocks_refl|reflexivity].
    + destruct (ring_step _ _ _ _ _ R) as [Ha Na]. simpl in Na.
      simpl. rewrite (eqb_ne _ _ Ha).
      rewrite (bind_Done _ _ _ _ _ (get_next_Done _ _ _ Na)).
      rewrite Z.eqb_refl.
      exists h. split; [reflexivity|]. split; [exact R|].
      split; [apply same_blocks_refl|reflexivity].
    + destruct (ring_step _ _ _ _ _ R) as [Ha Na]. simpl in Na.
      assert (ring h (head :: (acc ++ [a]) ++ b :: t)) as R'.
      { rewrite <- app_assoc. exact R. }
      destruct (ring_step _ _ _ _ _ R') as [Hb _].
      simpl q_swap_loop. rewrite (eqb_ne _ _ Ha).
      rewrite (bind_Done _ _ _ _ _ (get_next_Done _ _ _ Na)).
      rewrite (eqb_ne _ _ Hb).
      assert (ring h ((head :: acc) ++ a :: b :: t)) as R0 by exact R.
      destruct (list_del_init_spec _ _ _ _ R0 ltac:(discriminate))
        as (h1 & E1 & R1 & N1 & P1 & S1 & F1).
      rewrite (bind_Done _ _ _ _ _ E1).
      assert (a ∉ (head :: acc) ++ b :: t) as Hx.
      { destruct R0 as (Hnd & _). apply NoDup_app in Hnd as (_ & Hd & Hnd).
        apply NoDup_cons in Hnd as [Hx2 _]. intros Hx.
        apply elem_of_app in Hx as [Hx|Hx]; [|auto]. apply (Hd a Hx). left. }
      assert (a <> 0) as Ha0 by (eapply ring_nonnull; [exact R0|set_solver]).
      assert (live h1 a) as L1 by (eapply nxt_live; exact N1).
      destruct (list_add_spec _ _ _ _ _ R1 Hx Ha0 L1)
        as (h2 & E2 & R2 & S2 & F2).
      rewrite (bind_Done _ _ _ _ _ E2).
      assert (ring h2 (head :: (acc ++ [b]) ++ a :: t)) as R2'.
      { rewrite <- app_assoc. exact R2. }
      destruct (ring_step _ _ _ _ _ R2') as [_ Na2].
      rewrite (bind_Done _ _ _ _ _ (get_next_Done _ _ _ Na2)).
      destruct (IH t (acc ++ [b; a]) h2 head (hd head t)) as (h3 & E3 & R3 & S3 & F3).
      * rewrite <- app_assoc. exact R2.
      * simpl in Hlen. lia.
      * reflexivity.
      * exists h3. split; [exact E3|]. split; [|split].
        { rewrite <- app_assoc in R3. exact R3. }
        { eapply same_blocks_trans; [|exact S3].
          eapply same_blocks_trans; eassumption. }
        { intros x Hx'. rewrite F3 by set_solver. rewrite F2 by set_solver.
          apply F1. set_solver. }
Qed.

Lemma q_swap_frame fuel h head l :
  queue h head l -> (length l <= fuel)%nat ->
  exists h', q_swap fuel head h = Done tt h' /\
             queue h' head (swap_pairs l) /\ same_blocks h h' /\
             (forall a, a ∉ head :: l -> links h' !! a = links h !! a).
Proof.
  intros Q Hlen. unfold q_swap.
  rewrite (eqb_ne head NULL) by (eapply queue_head_nonnull; exact Q).
  pose proof (ring_nxt h [] head l Q) as E. rewrite app_nil_r in E.
  rewrite (bind_Done _ _ _ _ _ (get_next_Done _ _ _ E)).
  apply (q_swap_loop_frame fuel l [] h head); auto.
Qed.

Section SortFrame.
Variable key : Z -> string.

Lemma q_sort_frame fuel h head l :
  queue h head l -> (forall a, a ∈ l -> txt h a = Some (key a)) ->
  (length l < fuel)%nat ->
  exists h' m, q_sort fuel head h = Done tt h' /\ queue h' head m /\
               Permutation l m /\ sorted_by key m /\ same_blocks h h' /\
               (forall a, a ∉ head :: l -> links h' !! a = links h !! a).
Proof.
  intros Q Htxt Hlen.
  destruct l as [|x [|y t]].
  - exists h, []. rewrite (q_sort_empty _ _ _ Q).
    split; [reflexivity|]. split; [exact Q|]. split; [reflexivity|].
    split; [exact I|]. split; [apply same_blocks_refl|reflexivity].
  - exists h, [x]. rewrite (q_sort_single _ _ _ _ Q).
    split; [reflexivity|]. split; [exact Q|]. split; [reflexivity|].
    split; [exact I|]. split; [apply same_blocks_refl|reflexivity].
  - set (l := x :: y :: t) in *.
    assert (l <> []) as Hl by discriminate.
    pose proof (queue_head_nonnull _ _ _ Q) as Hh0.
    pose proof (queue_head_notin _ _ _ Q) as Hhl.
    pose proof Q as (Hnd & H0 & Cn & Cp).
    apply NoDup_cons in Hnd as [_ Hndl].
    assert (0 ∉ l) as H0l by set_solver.
    pose proof (ring_prv h [] head l Q) as Hp.
    change (rev [] ++ rev l) with (rev l) in Hp.
    destruct (rev_cons_split l head Hl) as (r & Er & El).
    set (tl_ := hd head (rev l)) in *.
    assert (tl_ ∈ l) as Htl by (rewrite El; set_solver).
    assert (tl_ <> head) as Hth by (intros E; apply Hhl; rewrite <- E; exact Htl).
    assert (live h tl_) as Ltl by (eapply ring_live; [exact Q|set_solver]).
    pose proof (ring_nxt h [] head l Q) as Hn.
    rewrite app_nil_r in Hn. change (hd head l) with x in Hn.
    set (h1 := upd_next tl_ NULL h).
    assert (forall a, a <> tl_ -> nxt h1 a = nxt h a) as N1.
    { intros a Ha. unfold h1. rewrite nxt_upd_next, decide_False by auto.
      reflexivity. }
    assert (forall a, prv h1 a = prv h a) as P1 by (intros a; apply prv_upd_next).
    assert (lseg (nxt h1) x l 0) as C1.
    { apply cycle_cons in Cn as (n & Hn' & Cn).
      assert (n = x) as -> by congruence.
      rewrite El in Cn |- *. apply lseg_snoc in Cn as [Cn Ht].
      apply lseg_snoc. split.
      - eapply lseg_ext; [|exact Cn]. intros a Ha. apply N1. intros ->.
        rewrite El in Hndl. apply NoDup_app in Hndl as (_ & Hd & _).
        apply (Hd tl_ Ha). left.
      - unfold h1. rewrite nxt_upd_next, decide_True by auto. reflexivity. }
    destruct (mergesort_spec key fuel l h1 x C1 Hndl H0l)
      as (h2 & m & E2 & Pm & Sm & Cm & F2 & P2 & S2).
    { exact Htxt. }
    { eapply plinks_ext; [exact P1|]. apply (ring_plinks h head l []). exact Q. }
    { exact Hlen. }
    assert (forall a, a ∈ m <-> a ∈ l) as Mm by (intros a; rewrite Pm; reflexivity).
    assert (m <> []) as Hm.
    { intros ->. apply Permutation_nil_r in Pm. auto. }
    assert (same_blocks h h2) as S02.
    { eapply same_blocks_trans; [apply same_blocks_upd_next|exact S2]. }
    assert (live h2 head) as Lh2.
    { apply (same_blocks_live _ _ _ S02). eapply ring_live; [exact Q|left]. }
    set (h3 := upd_next head (hd 0 m) h2).
    assert (forall a, nxt h3 a =
              if decide (a = head) then Some (hd 0 m) else nxt h2 a) as N3.
    { intros a. unfold h3. apply nxt_upd_next. exact Lh2. }
    assert (head ∉ m) as Hhm by (rewrite Mm; exact Hhl).
    destruct (q_sort_relink_spec fuel m head LocalHead h3 head)
      as (h4 & ptr & E4 & Hs4 & N4 & C4 & F4 & S4).
    { reflexivity. }
    { rewrite N3, decide_True by auto. reflexivity. }
    { eapply lseg_ext; [|exact Cm]. intros a Ha.
      rewrite N3, decide_False; [reflexivity|]. intros ->. auto. }
    { apply NoDup_cons. split; [exact Hhm|]. rewrite <- Pm. exact Hndl. }
    { rewrite Mm. exact H0l. }
    { rewrite <- Pm. lia. }
    destruct (rev_cons_split m head Hm) as (r' & Er' & Em).
    set (last := hd head (rev m)) in *.
    assert (last ∈ m) as Hlast by (rewrite Em; set_solver).
    assert (last <> head) as Hlh by (intros E; apply Hhm; rewrite <- E; exact Hlast).
    assert (same_blocks h h4) as S04.
    { eapply same_blocks_trans; [exact S02|].
      eapply same_blocks_trans; [apply same_blocks_upd_next|exact S4]. }
    assert (live h4 last) as Ll4.
    { apply (same_blocks_live _ _ _ S04).
      eapply ring_live; [exact Q|]. right. apply Mm. exact Hlast. }
    set (h5 := upd_next last head h4).
    assert (forall a, nxt h5 a =
              if decide (a = last) then Some head else nxt h4 a) as N5.
    { intros a. unfold h5. apply nxt_upd_next. exact Ll4. }
    assert (slot_at ptr h5 head last) as Hs5.
    { destruct ptr as [|t']; simpl in *; [exact Hs4|].
      destruct Hs4 as [Hs4 Ht']. split; [|exact Ht'].
      rewrite N5, decide_False by exact Ht'. exact Hs4. }
    assert (live h5 head) as Lh5.
    { unfold h5. apply live_upd_next. apply (same_blocks_live _ _ _ S04).
      eapply ring_live; [exact Q|left]. }
    set (h6 := upd_prev head last h5).
    exists h6, m. split; [|split; [|split; [exact Pm|split; [exact Sm|split]]]].
    + unfold q_sort. rewrite (eqb_ne head NULL Hh0).
      rewrite (bind_Done _ _ _ _ _ (list_empty_spec _ _ _ Q)).
      rewrite (bind_Done _ _ _ _ _ (list_is_singular_spec _ _ _ Q)).
      rewrite (bind_Done _ _ _ _ _ (get_prev_Done _ _ _ Hp)).
      rewrite (bind_Done _ _ _ _ _ (set_next_Done _ _ NULL Ltl)).
      fold h1.
      rewrite (bind_Done _ _ _ _ _ (get_next_Done h1 head x
                 ltac:(rewrite N1 by auto; exact Hn))).
      rewrite (bind_Done _ _ _ _ _ E2).
      rewrite (bind_Done _ _ _ _ _ (set_next_Done _ _ (hd 0 m) Lh2)).
      fold h3. rewrite (bind_Done _ _ _ _ _ E4).
      rewrite (bind_Done _ _ _ _ _ (slot_at_load _ _ _ _ Hs4)).
      rewrite (bind_Done _ _ _ _ _ (set_next_Done _ _ head Ll4)).
      fold h5. rewrite (bind_Done _ _ _ _ _ (slot_at_load _ _ _ _ Hs5)).
      rewrite (set_prev_Done _ _ last Lh5). reflexivity.
    + assert (forall a, nxt h6 a = nxt h5 a) as N6
        by (intros a; apply nxt_upd_prev).
      assert (forall a, prv h6 a =
                if decide (a = head) then Some last else prv h4 a) as P6.
      { intros a. unfold h6. rewrite prv_upd_prev by exact Lh5.
        case_decide; [reflexivity|]. unfold h5. apply prv_upd_next. }
      assert (NoDup m) as Hndm by (rewrite <- Pm; exact Hndl).
      split; [|split; [|split]].
      * apply NoDup_cons. split; [exact Hhm|exact Hndm].
      * intros H. apply elem_of_cons in H as [H|H]; [auto|].
        apply H0l. apply Mm. exact H.
      * apply cycle_cons. exists (hd 0 m). split.
        { rewrite N6, N5, decide_False by auto.
          rewrite N4, N3, decide_True by auto. reflexivity. }
        { rewrite Em in Cm, Hndm |- *.
          apply lseg_snoc in Cm as [Cm Hl0].
          apply lseg_snoc. split.
          - eapply lseg_ext; [|exact Cm]. intros a Ha.
            assert (a <> last) as Hal.
            { intros ->. apply NoDup_app in Hndm as (_ & Hd & _).
              apply (Hd last Ha). left. }
            assert (a <> head) as Hah.
            { intros ->. apply Hhm. rewrite Em. set_solver. }
            rewrite N6, N5, decide_False by exact Hal.
            rewrite N4, N3, decide_False by exact Hah. reflexivity.
          - rewrite N6, N5, decide_True by auto. reflexivity. }
      * simpl rev. apply cycle_rot1. apply cycle_cons. exists last. split.
        { rewrite P6, decide_True by auto. reflexivity. }
        { eapply lseg_ext; [|exact C4]. intros a Ha.
          rewrite P6, decide_False; [reflexivity|].
          intros ->. apply Hhm. apply elem_of_rev. exact Ha. }
    + eapply same_blocks_trans; [exact S04|].
      eapply same_blocks_trans; [apply same_blocks_upd_next|].
      apply same_blocks_upd_prev.
    + intros a Ha.
      assert (a <> head) as Hah by (intros ->; apply Ha; left).
      assert (a ∉ l) as Hal by (intros H; apply Ha; right; exact H).
      assert (a <> tl_) as Hat by (intros ->; auto).
      assert (a <> last) as Hala by (intros ->; apply Hal, Mm, Hlast).
      apply links_eq_of_nxt_prv.
      * unfold h6. rewrite nxt_upd_prev. rewrite N5, decide_False by exact Hala.
        rewrite N4, N3, decide_False by exact Hah.
        rewrite F2 by exact Hal. apply N1, Hat.
      * unfold h6. rewrite prv_upd_prev by exact Lh5.
        rewrite decide_False by exact Hah. unfold h5. rewrite prv_upd_next.
        rewrite F4 by (rewrite Mm; exact Hal).
        unfold h3. rewrite prv_upd_next. rewrite P2. apply P1.
Qed.
End SortFrame.

(** X14. [q_reverse], [q_swap] and [q_sort] rearrange the queue in place:
    they write nothing but the links of the sentinel and of the elements of
    the queue.  No block is allocated or freed, no string is written, and
    the links of every node outside the queue are as they were. *)
Theorem rearranging_is_in_place (fuel : nat) (h : heap) (head : Z) (l : list Z) :
  queue h head l -> texts_ok h l -> (length l < fuel)%nat ->
  (exists h', q_reverse fuel head h = Done tt h' /\
              only_relinks (head :: l) h h') /\
  (exists h', q_swap fuel head h = Done tt h' /\
              only_relinks (head :: l) h h') /\
  (exists h', q_sort fuel head h = Done tt h' /\
              only_relinks (head :: l) h h').
Proof.
  intros Q T Hlen. split; [|split].
  - destruct (q_reverse_frame fuel h head l Q ltac:(lia)) as (h' & E & _ & S & F).
    exists h'. split; [exact E|split; assumption].
  - destruct (q_swap_frame fuel h head l Q ltac:(lia)) as (h' & E & _ & S & F).
    exists h'. split; [exact E|split; assumption].
  - destruct (q_sort_frame (key_of h) fuel h head l Q (texts_ok_key h l T) Hlen)
      as (h' & m & E & _ & _ & _ & S & F).
    exists h'. split; [exact E|split; assumption].
Qed.

Lemma rearranging_is_in_place_witness :
  (exists h', q_reverse 4 1 demo_heap = Done tt h' /\
              only_relinks (1 :: [2; 3; 4]) demo_heap h') /\
  (exists h', q_swap 4 1 demo_heap = Done tt h' /\
              only_relinks (1 :: [2; 3; 4]) demo_heap h') /\
  (exists h', q_sort 4 1 demo_heap = Done tt h' /\
              only_relinks (1 :: [2; 3; 4]) demo_heap h').
Proof.
  refine (rearranging_is_in_place 4 demo_heap 1 [2; 3; 4] _ _ _).
  - solve_ring.
  - solve_texts.
  - simpl. lia.
Defined.

Lemma only_relinks_back h h1 h2 c :
  ring h c -> ring h2 c -> forall c',
  (forall a, a ∈ c' <-> a ∈ c) ->
  only_relinks c h h1 -> only_relinks c' h1 h2 -> h2 = h.
Proof.
  intros R R2 c' Hc [[_ V1] F1] [[_ V2] F2]. apply heap_eq.
  - intros a. destruct (decide (a ∈ c)) as [Ha|Ha].
    + apply (ring_links_determined h h2 c a R R2 Ha).
    + rewrite F2 by (rewrite Hc; exact Ha). apply F1, Ha.
  - intros a. rewrite V2, V1. reflexivity.
Qed.

(** X15. Applying [q_reverse] twice, or [q_swap] twice, gives back the heap
    exactly as it was: not only the order of the queue, but every link and
    every string of the heap. *)
Theorem q_reverse_q_swap_twice_restore_heap
  (fuel : nat) (h : heap) (head : Z) (l : list Z) :
  queue h head l -> (length l <= fuel)%nat ->
  (q_reverse fuel head ;; q_reverse fuel head) h = Done tt h /\
  (q_swap fuel head ;; q_swap fuel head) h = Done tt h.
Proof.
  intros Q Hlen. split.
  - destruct (q_reverse_frame fuel h head l Q Hlen) as (h1 & E1 & Q1 & S1 & F1).
    destruct (q_reverse_frame fuel h1 head (rev l) Q1) as (h2 & E2 & Q2 & S2 & F2).
    { rewrite length_rev. exact Hlen. }
    rewrite rev_involutive in Q2.
    rewrite (bind_Done _ _ _ _ _ E1), E2. f_equal.
    apply (only_relinks_back h h1 h2 (head :: l) Q Q2 (head :: rev l)).
    + intros a. rewrite !elem_of_cons, elem_of_rev. reflexivity.
    + split; assumption.
    + split; assumption.
  - destruct (q_swap_frame fuel h head l Q Hlen) as (h1 & E1 & Q1 & S1 & F1).
    destruct (q_swap_frame fuel h1 head (swap_pairs l) Q1) as (h2 & E2 & Q2 & S2 & F2).
    { rewrite swap_pairs_length. exact Hlen. }
    rewrite swap_pairs_involutive in Q2.
    rewrite (bind_Done _ _ _ _ _ E1), E2. f_equal.
    apply (only_relinks_back h h1 h2 (head :: l) Q Q2 (head :: swap_pairs l)).
    + intros a. rewrite !elem_of_cons.
      assert (a ∈ swap_pairs l <-> a ∈ l) as ->; [|reflexivity].
      clear. induction l as [|x|x y t IH] using pairs_ind; simpl;
        [reflexivity..|].
      rewrite !elem_of_cons, IH. tauto.
    + split; assumption.
    + split; assumption.
Qed.

Lemma q_reverse_q_swap_twice_restore_heap_witness :
  (q_reverse 3 1 ;; q_reverse 3 1) demo_heap = Done tt demo_heap /\
  (q_swap 3 1 ;; q_swap 3 1) demo_heap = Done tt demo_heap.
Proof.
  refine (q_reverse_q_swap_twice_restore_heap 3 demo_heap 1 [2; 3; 4] _ _).
  - solve_ring.
  - simpl. lia.
Defined.

(** ** Releasing an element that is still linked *)

Lemma q_size_loop_dangling h head x fuel : forall l1 li len,
  lseg (nxt h) li l1 x -> head ∉ l1 -> x <> head -> nxt h x = None ->
  (length l1 < fuel)%nat ->
  q_size_loop fuel head li len h = Undefined.
Proof.
  induction fuel as [|fuel IH]; intros l1 li len C Hh Hx Nx Hlen; [lia|].
  destruct l1 as [|y t].
  - simpl in C. subst li. cbn [q_size_loop]. rewrite (eqb_ne _ _ Hx).
    destruct (len =? INT_MAX); [reflexivity|].
    unfold bind, get_next. rewrite Nx. reflexivity.
  - apply lseg_cons_inv in C as (-> & Ny & C).
    assert (y <> head) as Hy by (intros ->; apply Hh; left).
    cbn [q_size_loop]. rewrite (eqb_ne _ _ Hy).
    destruct (len =? INT_MAX); [reflexivity|].
    rewrite (bind_Done _ _ _ _ _ (get_next_Done _ _ _ Ny)).
    apply (IH t); auto.
    + intros H. apply Hh. right. exact H.
    + simpl in Hlen. lia.
Qed.

(** X16. [q_release_element] does not unlink: releasing an element that is
    still in the queue succeeds, but leaves its predecessor pointing to the
    freed block, so that the next traversal ([q_size]) reads freed memory,
    and a second release of the element is a double free. *)
Theorem q_release_element_linked_dangles
  (fuel : nat) (h : heap) (head : Z) (l1 : list Z) (x : Z) (l2 : list Z) :
  queue h head (l1 ++ x :: l2) -> is_Some (values h !! x) ->
  (length l1 < fuel)%nat ->
  exists h',
    q_release_element x h = Done tt h' /\
    links h' !! x = None /\ values h' !! x = None /\
    nxt h' (hd head (rev l1)) = Some x /\
    q_size fuel head h' = Undefined /\
    q_release_element x h' = Undefined.
Proof.
  intros Q [v Hv] Hlen.
  pose proof (queue_head_nonnull _ _ _ Q) as Hh0.
  pose proof Q as (Hnd & _ & Cn & _).
  apply NoDup_cons in Hnd as [Hhl Hnd].
  apply NoDup_app in Hnd as (_ & Hd & Hnd2).
  assert (x ∉ l1) as Hx1 by (intros H; apply (Hd x H); left).
  assert (x <> head) as Hxh by (intros ->; apply Hhl; set_solver).
  assert (head ∉ l1) as Hh1 by (intros H; apply Hhl; set_solver).
  assert (live h x) as [n Hn] by (eapply ring_live; [exact Q|set_solver]).
  set (h' := Heap (delete x (links h)) (delete x (values h))).
  assert (nxt h' x = None) as Nx.
  { unfold nxt, h'. simpl. rewrite lookup_delete_eq. reflexivity. }
  apply cycle_cons in Cn as (n0 & Hn0 & C).
  apply lseg_app in C as (m & C1 & C2).
  apply lseg_cons_inv in C2 as (-> & _).
  assert (lseg (nxt h') n0 l1 x) as C1'.
  { eapply lseg_ext; [|exact C1]. intros a Ha. unfold h'.
    apply nxt_delete. intros ->. auto. }
  exists h'. split; [|split; [|split; [|split; [|split]]]].
  - unfold q_release_element. rewrite Hn, Hv. reflexivity.
  - apply lookup_delete_eq.
  - apply lookup_delete_eq.
  - destruct (rev l1) as [|z r] eqn:Er; simpl.
    + assert (l1 = []) as -> by (rewrite <- (rev_involutive l1), Er; reflexivity).
      simpl in C1. subst n0. unfold h'. rewrite nxt_delete by auto. exact Hn0.
    + assert (l1 = rev r ++ [z]) as El
        by (rewrite <- (rev_involutive l1), Er; reflexivity).
      rewrite El in C1. apply lseg_snoc in C1 as [_ Nz].
      unfold h'. rewrite nxt_delete; [exact Nz|].
      intros ->. apply Hx1. rewrite El. set_solver.
  - unfold q_size. rewrite (eqb_ne head NULL Hh0).
    assert (nxt h' head = Some n0) as Nh.
    { unfold h'. rewrite nxt_delete by auto. exact Hn0. }
    rewrite (bind_Done _ _ _ _ _ (get_next_Done _ _ _ Nh)).
    apply (q_size_loop_dangling h' head x fuel l1); auto.
  - unfold q_release_element, h'. simpl. rewrite lookup_delete_eq. reflexivity.
Qed.

Lemma q_release_element_linked_dangles_witness :
  exists h',
    q_release_element 3 demo_heap = Done tt h' /\
    links h' !! 3 = None /\ values h' !! 3 = None /\
    nxt h' (hd 1 (rev [2])) = Some 3 /\
    q_size 2 1 h' = Undefined /\
    q_release_element 3 h' = Undefined.
Proof.
  refine (q_release_element_linked_dangles 2 demo_heap 1 [2] 3 [4] _ _ _).
  - solve_ring.
  - eexists. reflexivity.
  - simpl. lia.
Defined.
